(** * Codebase Genius: the docs generator, the code-context graph and the bridge

    A shallow embedding of
    - [BE/gen_docs.py]   (tree walk, language buckets, README line, import
                          edges, Mermaid rendering, the report),
    - [BE/py/parser.py]  ([build_ccg], [graph_to_dot]),
    - [BE/py/simple_fs.py] ([list_py_files], [ensure_dir], [write_text]),
    - [BE/py/utils.py]   ([safe_repo_name], [file_tree], [readme_summary]),
    - [BE/gen_bridge.py] ([run_gen]),
    together with the parts of the Python library they lean on: [str]
    methods, a backtracking [re] engine that reads the patterns as the
    source spells them, [pathlib] names, and a small file-system model.

    Conventions of the model.
    - Text is [string] (8-bit characters).  The character classes [\s] and
      [\w], [str.strip], [str.lower] and [str.splitlines] are the Python
      ones restricted to code points below 128; characters above 127 are
      treated as neither spaces nor word characters.
    - The scan reads a tree ([fsnode]); a directory lists its entries in the
      order [os.scandir] yields them, which the system does not fix.  Paths
      of the scan are kept relative to the scanned root.  Symbolic links are
      not modelled, and names compare case-sensitively.
    - A string holding a NUL character names no path: [Path.resolve] and
      [os.walk] raise [ValueError] on it.
    - Code that can raise returns a [result]; code that changes the process
      (working directory, files) is a function on [world]; the calls of the
      environment that can fail do so as a [faults] record says. *)

From Stdlib Require Import Ascii String List Bool Arith Lia NArith.
From stdpp Require Import base option list strings pretty gmap sorting.

Local Open Scope string_scope.
Local Open Scope list_scope.

(** ** Results of code that can raise *)

Inductive exn : Type :=
| ReError            (* re.error: the pattern does not compile *)
| ReUnsupported      (* a pattern outside the fragment of [re] modelled here *)
| OSError            (* any failing file-system call *)
| KeyError           (* a dict read at a key it does not hold *)
| OtherError (msg : string).

Inductive result (A : Type) : Type :=
| Ok (a : A)
| Raise (e : exn).
Arguments Ok {A} a.
Arguments Raise {A} e.

Global Instance result_ret : MRet result := λ A a, Ok a.
Global Instance result_fmap : FMap result := λ A B f r,
  match r with
  | Ok a => Ok (f a)
  | Raise e => Raise e
  end.
Global Instance result_bind : MBind result := λ A B f r,
  match r with
  | Ok a => f a
  | Raise e => Raise e
  end.

(** ** Python [str] *)

Module PyStr.

Definition chars (s : string) : list ascii := list_ascii_of_string s.
Definition str (l : list ascii) : string := string_of_list_ascii l.

Definition code (c : ascii) : N := N_of_ascii c.
Definition between (lo hi : N) (c : ascii) : bool :=
  (lo <=? code c)%N && (code c <=? hi)%N.

(** [str.isspace] below 128: TAB LF VT FF CR, FS GS RS US, SPACE. *)
Definition isspace (c : ascii) : bool :=
  between 9 13 c || between 28 31 c || (code c =? 32)%N.

Definition isalnum (c : ascii) : bool :=
  between 48 57 c || between 65 90 c || between 97 122 c.

(** [\w]: alphanumeric or underscore. *)
Definition isword (c : ascii) : bool := isalnum c || (code c =? 95)%N.

Definition lower_char (c : ascii) : ascii :=
  if between 65 90 c then ascii_of_N (code c + 32) else c.

(** [s.lower()] *)
Definition lower (s : string) : string := str (map lower_char (chars s)).

Fixpoint drop_while (p : ascii → bool) (l : list ascii) : list ascii :=
  match l with
  | c :: l' => if p c then drop_while p l' else l
  | [] => []
  end.

Definition strip_by (p : ascii → bool) (l : list ascii) : list ascii :=
  rev (drop_while p (rev (drop_while p l))).

(** [s.strip()] *)
Definition strip (s : string) : string := str (strip_by isspace (chars s)).

(** [s.strip(cs)] for a one-character set [cs]. *)
Definition strip_char (c : ascii) (s : string) : string :=
  str (strip_by (Ascii.eqb c) (chars s)).

(** Line boundaries of [str.splitlines] below 128:
    LF, VT, FF, CR (and CR LF), FS, GS, RS. *)
Definition is_linebreak (c : ascii) : bool :=
  between 10 13 c || between 28 30 c.

Fixpoint splitlines_go (cur : list ascii) (s : list ascii) : list string :=
  match s with
  | [] => match cur with [] => [] | _ => [str (rev cur)] end
  | c :: rest =>
      if (code c =? 13)%N then
        match rest with
        | d :: rest' =>
            if (code d =? 10)%N then str (rev cur) :: splitlines_go [] rest'
            else str (rev cur) :: splitlines_go [] rest
        | [] => str (rev cur) :: splitlines_go [] rest
        end
      else if is_linebreak c then str (rev cur) :: splitlines_go [] rest
      else splitlines_go (c :: cur) rest
  end.

(** [s.splitlines()] *)
Definition splitlines (s : string) : list string := splitlines_go [] (chars s).

Fixpoint split_go (sep : ascii) (cur : list ascii) (s : list ascii) : list string :=
  match s with
  | [] => [str (rev cur)]
  | c :: rest =>
      if Ascii.eqb c sep then str (rev cur) :: split_go sep [] rest
      else split_go sep (c :: cur) rest
  end.

(** [s.split(sep)] for a one-character separator. *)
Definition split (sep : ascii) (s : string) : list string :=
  split_go sep [] (chars s).

(** [sep.join(l)] *)
Fixpoint join (sep : string) (l : list string) : string :=
  match l with
  | [] => ""
  | [x] => x
  | x :: rest => x ++ sep ++ join sep rest
  end.

(** [s.startswith(".")] and the like, for a one-character prefix. *)
Definition startswith_char (c : ascii) (s : string) : bool :=
  match s with
  | String d _ => Ascii.eqb c d
  | EmptyString => false
  end.

(** [t in s] for strings. *)
Fixpoint contains (t s : string) : bool :=
  String.prefix t s ||
  match s with
  | String _ s' => contains t s'
  | EmptyString => false
  end.

Definition LF : string := String (ascii_of_N 10) "".
Definition DQ : string := String (ascii_of_N 34) "".

End PyStr.

(** ** Python [re]: patterns, their compilation, backtracking matching *)

Module PyRe.
Import PyStr.

(** Members of a character set. *)
Inductive citem : Type :=
| CRange (lo hi : ascii)     (* [lo-hi], and a single character as [c-c] *)
| CSpace                     (* \s *)
| CWord                      (* \w *)
| CNotNl.                    (* . *)

Record cset : Type := CSet { cs_neg : bool; cs_items : list citem }.

Definition citem_mem (c : ascii) (it : citem) : bool :=
  match it with
  | CRange lo hi => between (code lo) (code hi) c
  | CSpace => isspace c
  | CWord => isword c
  | CNotNl => negb (code c =? 10)%N
  end.

Definition cset_mem (cs : cset) (c : ascii) : bool :=
  xorb (cs_neg cs) (existsb (citem_mem c) (cs_items cs)).

(** Compiled patterns.  A quantifier applies to a one-character atom,
    which is all the patterns of this program need. *)
Inductive re : Type :=
| Eps
| Chr (cs : cset)
| Bol                                   (* ^ *)
| Wordb                                 (* \b *)
| Seq (a b : re)
| Alt (a b : re)
| Rep (greedy : bool) (min : nat) (cs : cset)   (* cs{min,} and cs{min,}? *)
| Grp (i : nat) (r : re).               (* the i-th capturing group *)

(** *** The pattern parser: one pass with a stack of open groups *)

Record frame : Type := Frame {
  f_idx : nat;           (* number of the group being read, 0 at top level *)
  f_alts : list re;      (* alternatives already closed by a bar *)
  f_cur : list re        (* items of the current alternative, last first *)
}.

Definition seq_of (items_rev : list re) : re :=
  fold_left (fun acc r => Seq r acc) items_rev Eps.

Definition close (f : frame) : re :=
  fold_right Alt (seq_of (f_cur f)) (f_alts f).

Definition push (r : re) (f : frame) : frame :=
  Frame (f_idx f) (f_alts f) (r :: f_cur f).

Definition ch_is (c : ascii) (s : string) : bool :=
  match s with
  | String d EmptyString => Ascii.eqb c d
  | _ => false
  end.

Definition backslash : ascii := ascii_of_N 92.

(** What [\c] stands for, outside and inside a character set. *)
Definition escape_item (c : ascii) : result citem :=
  if ch_is c "s" then Ok CSpace
  else if ch_is c "w" then Ok CWord
  else if isalnum c then Raise ReUnsupported
  else Ok (CRange c c).

Definition escape_atom (c : ascii) : result re :=
  if ch_is c "b" then Ok Wordb
  else it ← escape_item c; Ok (Chr (CSet false [it])).

Fixpoint parse (s : list ascii) (cls : option (bool * list citem))
    (stk : list frame) (cur : frame) (ng : nat) : result re :=
  match s with
  | [] =>
      match cls, stk with
      | None, [] => Ok (close cur)
      | _, _ => Raise ReError      (* unterminated set, or missing ) *)
      end
  | c :: rest =>
      match cls with
      | Some (neg, items) =>
          if ch_is c "]" then
            parse rest None stk (push (Chr (CSet neg (rev items))) cur) ng
          else if Ascii.eqb c backslash then
            match rest with
            | [] => Raise ReError
            | e :: rest' =>
                match escape_item e with
                | Ok it => parse rest' (Some (neg, it :: items)) stk cur ng
                | Raise x => Raise x
                end
            end
          else
            match rest with
            | d :: hi :: rest' =>
                if ch_is d "-" && negb (ch_is hi "]") then
                  if Ascii.eqb hi backslash then Raise ReUnsupported
                  else if (code hi <? code c)%N then Raise ReError
                  else parse rest' (Some (neg, CRange c hi :: items)) stk cur ng
                else parse rest (Some (neg, CRange c c :: items)) stk cur ng
            | _ => parse rest (Some (neg, CRange c c :: items)) stk cur ng
            end
      | None =>
          if ch_is c "(" then
            match rest with
            | q :: _ =>
                if ch_is q "?" then Raise ReUnsupported
                else parse rest None (cur :: stk) (Frame (S ng) [] []) (S ng)
            | [] => parse rest None (cur :: stk) (Frame (S ng) [] []) (S ng)
            end
          else if ch_is c ")" then
            match stk with
            | [] => Raise ReError    (* unbalanced parenthesis *)
            | par :: stk' =>
                parse rest None stk' (push (Grp (f_idx cur) (close cur)) par) ng
            end
          else if ch_is c "|" then
            parse rest None stk
              (Frame (f_idx cur) (f_alts cur ++ [seq_of (f_cur cur)]) []) ng
          else if ch_is c "*" || ch_is c "+" then
            let min := if ch_is c "+" then 1 else 0 in
            match f_cur cur with
            | Chr cs :: items =>
                match rest with
                | q :: rest' =>
                    if ch_is q "?" then
                      parse rest' None stk
                        (Frame (f_idx cur) (f_alts cur) (Rep false min cs :: items)) ng
                    else
                      parse rest None stk
                        (Frame (f_idx cur) (f_alts cur) (Rep true min cs :: items)) ng
                | [] =>
                    parse rest None stk
                      (Frame (f_idx cur) (f_alts cur) (Rep true min cs :: items)) ng
                end
            | Grp _ _ :: _ => Raise ReUnsupported
            | _ => Raise ReError     (* nothing to repeat, multiple repeat *)
            end
          else if ch_is c "?" || ch_is c "{" || ch_is c "$" then Raise ReUnsupported
          else if ch_is c "[" then
            match rest with
            | q :: rest' =>
                if ch_is q "]" then Raise ReUnsupported
                else if ch_is q "^" then
                  match rest' with
                  | q' :: _ =>
                      if ch_is q' "]" then Raise ReUnsupported
                      else parse rest' (Some (true, [])) stk cur ng
                  | [] => Raise ReError
                  end
                else parse rest (Some (false, [])) stk cur ng
            | [] => Raise ReError
            end
          else if Ascii.eqb c backslash then
            match rest with
            | [] => Raise ReError
            | e :: rest' =>
                match escape_atom e with
                | Ok a => parse rest' None stk (push a cur) ng
                | Raise x => Raise x
                end
            end
          else if ch_is c "." then
            parse rest None stk (push (Chr (CSet false [CNotNl])) cur) ng
          else if ch_is c "^" then parse rest None stk (push Bol cur) ng
          else parse rest None stk (push (Chr (CSet false [CRange c c])) cur) ng
      end
  end.

(** [re.compile(pattern)] *)
Definition compile (pattern : string) : result re :=
  parse (chars pattern) None [] (Frame 0 [] []) 0.

(** *** Matching *)

Record mstate : Type := MState {
  ms_prev : option ascii;              (* the character before the position *)
  ms_rest : list ascii;                (* the input from the position on *)
  ms_caps : list (nat * string)        (* captured groups, latest first *)
}.

Definition at_bol (multiline : bool) (prev : option ascii) : bool :=
  match prev with
  | None => true
  | Some c => multiline && (code c =? 10)%N
  end.

Definition at_wordb (prev : option ascii) (rest : list ascii) : bool :=
  xorb (from_option isword false prev) (from_option isword false (head rest)).

Section Matcher.
Context {R : Type} (multiline : bool).

Fixpoint rep (greedy : bool) (min : nat) (cs : cset) (prev : option ascii)
    (rest : list ascii) (caps : list (nat * string))
    (k : mstate → option R) {struct rest} : option R :=
  let more :=
    match rest with
    | c :: rest' =>
        if cset_mem cs c then rep greedy (pred min) cs (Some c) rest' caps k
        else None
    | [] => None
    end in
  let stop := k (MState prev rest caps) in
  match min with
  | S _ => more
  | O =>
      if greedy then match more with Some r => Some r | None => stop end
      else match stop with Some r => Some r | None => more end
  end.

Fixpoint run (r : re) (st : mstate) (k : mstate → option R) : option R :=
  match r with
  | Eps => k st
  | Chr cs =>
      match ms_rest st with
      | c :: rest' =>
          if cset_mem cs c then k (MState (Some c) rest' (ms_caps st)) else None
      | [] => None
      end
  | Bol => if at_bol multiline (ms_prev st) then k st else None
  | Wordb => if at_wordb (ms_prev st) (ms_rest st) then k st else None
  | Seq a b => run a st (fun st' => run b st' k)
  | Alt a b =>
      match run a st k with
      | Some x => Some x
      | None => run b st k
      end
  | Rep greedy min cs => rep greedy min cs (ms_prev st) (ms_rest st) (ms_caps st) k
  | Grp i r' =>
      run r' st (fun st' =>
        let n := length (ms_rest st) - length (ms_rest st') in
        k (MState (ms_prev st') (ms_rest st')
             ((i, str (take n (ms_rest st))) :: ms_caps st')))
  end.
End Matcher.

(** A match: how many characters it spans and what its groups captured. *)
Record rmatch : Type := RMatch { m_len : nat; m_caps : list (nat * string) }.

Definition match_at (multiline : bool) (r : re) (prev : option ascii)
    (rest : list ascii) : option rmatch :=
  run multiline r (MState prev rest [])
    (fun st => Some (RMatch (length rest - length (ms_rest st)) (ms_caps st))).

(** [m.group(i)] for a group that took part in the match. *)
Fixpoint lookup_cap (i : nat) (caps : list (nat * string)) : string :=
  match caps with
  | (j, s) :: caps' => if Nat.eqb i j then s else lookup_cap i caps'
  | [] => ""
  end.
Definition group (i : nat) (m : rmatch) : string := lookup_cap i (m_caps m).

Fixpoint search_go (multiline : bool) (r : re) (prev : option ascii)
    (rest : list ascii) : option rmatch :=
  match match_at multiline r prev rest with
  | Some m => Some m
  | None =>
      match rest with
      | c :: rest' => search_go multiline r (Some c) rest'
      | [] => None
      end
  end.

(** [r.match(s)] and [r.search(s)] *)
Definition rmatch_of (multiline : bool) (r : re) (s : string) : option rmatch :=
  match_at multiline r None (chars s).
Definition search (multiline : bool) (r : re) (s : string) : option rmatch :=
  search_go multiline r None (chars s).

(** Scanning for all non-overlapping matches, left to right.  [skip] counts
    the characters still covered by the last match. *)
Fixpoint findall_go (multiline : bool) (r : re) (prev : option ascii)
    (rest : list ascii) (skip : nat) {struct rest} : list rmatch :=
  match skip, rest with
  | S k, c :: rest' => findall_go multiline r (Some c) rest' k
  | S _, [] => []
  | O, _ =>
      match match_at multiline r prev rest with
      | Some m =>
          m :: match rest with
               | c :: rest' => findall_go multiline r (Some c) rest' (pred (m_len m))
               | [] => []
               end
      | None =>
          match rest with
          | c :: rest' => findall_go multiline r (Some c) rest' 0
          | [] => []
          end
      end
  end.

(** [r.findall(s)]: the matches; the caller reads the groups it wants. *)
Definition findall (multiline : bool) (r : re) (s : string) : list rmatch :=
  findall_go multiline r None (chars s) 0.

Fixpoint sub_go (multiline : bool) (r : re) (repl : list ascii)
    (prev : option ascii) (rest : list ascii) (skip : nat) {struct rest} : list ascii :=
  match skip, rest with
  | S k, c :: rest' => sub_go multiline r repl (Some c) rest' k
  | S _, [] => []
  | O, _ =>
      match match_at multiline r prev rest with
      | Some m =>
          repl ++ match rest with
                  | c :: rest' =>
                      match m_len m with
                      | O => c :: sub_go multiline r repl (Some c) rest' 0
                      | S n => sub_go multiline r repl (Some c) rest' n
                      end
                  | [] => []
                  end
      | None =>
          match rest with
          | c :: rest' => c :: sub_go multiline r repl (Some c) rest' 0
          | [] => []
          end
      end
  end.

(** [r.sub(repl, s)] for a replacement without group references. *)
Definition sub (multiline : bool) (r : re) (repl : string) (s : string) : string :=
  str (sub_go multiline r (chars repl) None (chars s) 0).

End PyRe.

(** ** [pathlib] and the file system *)

(** A path is the list of its components.  Every path of the scan lies
    under the scanned root and is kept relative to it, so [root / "a" / "b.py"]
    is [["a"; "b.py"]] and [p.relative_to(root)] is [p] itself. *)
Abbreviation Path := (list string).

Module PyPath.
Import PyStr.

(** [p.name] *)
Definition name (p : Path) : string := from_option id "" (last p).

(** [s.rfind(".")], as the number of characters before the last dot. *)
Fixpoint rfind_dot (l : list ascii) : option nat :=
  match l with
  | [] => None
  | c :: l' =>
      match rfind_dot l' with
      | Some i => Some (S i)
      | None => if Ascii.eqb c "." then Some 0 else None
      end
  end.

(** Where [p.suffix] starts: [i] with [0 < i < len(name) - 1]. *)
Definition suffix_start (nm : string) : option nat :=
  match rfind_dot (chars nm) with
  | Some i => if (0 <? i)%nat && (i <? String.length nm - 1)%nat then Some i else None
  | None => None
  end.

(** [p.suffix] and [p.stem] *)
Definition suffix (p : Path) : string :=
  match suffix_start (name p) with
  | Some i => str (drop i (chars (name p)))
  | None => ""
  end.
Definition stem (p : Path) : string :=
  match suffix_start (name p) with
  | Some i => str (take i (chars (name p)))
  | None => name p
  end.

(** [Path(s)] for a relative [s]: the components between slashes, without
    the empty ones and the single dots. *)
Definition of_string (s : string) : Path :=
  filter (λ x, x ≠ "" ∧ x ≠ ".") (split "/" s).

(** [p.as_posix()] and [str(p)] of a relative path *)
Definition as_posix (p : Path) : string :=
  match p with
  | [] => "."
  | _ => join "/" p
  end.

(** The order of [Path] values: that of their lists of components. *)
Fixpoint leb (p q : Path) : bool :=
  match p, q with
  | [], _ => true
  | _ :: _, [] => false
  | a :: p', b :: q' => if String.eqb a b then leb p' q' else String.leb a b
  end.
Definition le (p q : Path) : Prop := leb p q.

Global Instance le_dec : RelDecision le.
Proof. intros p q. unfold le. apply _. Defined.

End PyPath.

(** A file-system tree.  A file carries the text [read_text] returns for it
    ([None] when reading it raises); a directory lists its entries in the
    order the operating system enumerates them. *)
#[local] Unset Elimination Schemes.
Inductive fsnode : Type :=
| File (content : option string)
| Dir (entries : list (string * fsnode)).
#[local] Set Elimination Schemes.

Definition entry (nm : string) (es : list (string * fsnode)) : option fsnode :=
  snd <$> List.find (λ e, String.eqb (fst e) nm) es.

Fixpoint tree_lookup (t : fsnode) (p : Path) : option fsnode :=
  match p with
  | [] => Some t
  | nm :: p' =>
      match t with
      | Dir es => entry nm es ≫= λ sub, tree_lookup sub p'
      | File _ => None
      end
  end.

(** [p.exists()] and [p.read_text(encoding="utf-8", errors="ignore")] *)
Definition path_exists (root : fsnode) (p : Path) : bool :=
  bool_decide (is_Some (tree_lookup root p)).

Definition read_text (root : fsnode) (p : Path) : result string :=
  match tree_lookup root p with
  | Some (File (Some txt)) => Ok txt
  | _ => Raise OSError
  end.

Definition is_dir (t : fsnode) : bool :=
  match t with Dir _ => true | File _ => false end.

(** Orders used by [sorted]: tuples of strings compare component-wise. *)
Definition edge_leb (e1 e2 : string * string) : bool :=
  if String.eqb (fst e1) (fst e2) then String.leb (snd e1) (snd e2)
  else String.leb (fst e1) (fst e2).
Definition edge_le (e1 e2 : string * string) : Prop := edge_leb e1 e2.

Global Instance edge_le_dec : RelDecision edge_le.
Proof. intros p q. unfold edge_le. apply _. Defined.

(** ** BE/gen_docs.py *)

Import PyStr.

Definition IGNORES : list string :=
  [ ".git"; ".hg"; ".svn"; ".idea"; ".vscode"; ".venv"; "venv";
    "__pycache__"; "node_modules"; "dist"; "build"; ".pytest_cache";
    ".mypy_cache"; ".ruff_cache"; ".tox"; ".cache"; "target"; "out"; "bin" ].

Definition LANG_EXTS : list (string * list string) :=
  [ ("Python", [".py"]);
    ("JavaScript/TypeScript", [".js"; ".mjs"; ".cjs"; ".jsx"; ".ts"; ".tsx"]);
    ("Java", [".java"]);
    ("Go", [".go"]);
    ("Rust", [".rs"]);
    ("C/C++", [".c"; ".h"; ".cc"; ".cpp"; ".hpp"; ".cxx"; ".hxx"]) ].

Definition README_FILES : list string :=
  ["README.md"; "Readme.md"; "readme.md"; "README"; "README.rst"].

(** The filter of [walk_files]:
    [x not in IGNORES and not x.startswith(".")]. *)
Definition keep_dir (x : string) : bool :=
  negb (bool_decide (x ∈ IGNORES)) && negb (startswith_char "." x).

(** [walk_files]: [os.walk] top-down; each directory yields its files, then
    the walk descends into the sub-directories the filter kept. *)
Fixpoint walk_files_from (d : Path) (t : fsnode) : list Path :=
  match t with
  | File _ => []
  | Dir es =>
      map (λ e, d ++ [fst e]) (filter (λ e, is_dir (snd e) = false) es) ++
      (fix descend (es : list (string * fsnode)) : list Path :=
         match es with
         | [] => []
         | (nm, sub) :: es' =>
             (if is_dir sub && keep_dir nm then walk_files_from (d ++ [nm]) sub else [])
             ++ descend es'
         end) es
  end.

Definition walk_files (root : fsnode) : list Path := walk_files_from [] root.

(** The inner loop of [find_by_lang]: the first entry of [LANG_EXTS] whose
    extensions hold [p.suffix.lower()]. *)
Definition lang_of (p : Path) : option string :=
  fst <$> List.find (λ le, bool_decide (lower (PyPath.suffix p) ∈ snd le)) LANG_EXTS.

Definition empty_buckets : gmap string (list Path) :=
  list_to_map (map (λ le, (fst le, [])) LANG_EXTS).

Definition bucket_add (b : gmap string (list Path)) (p : Path) : gmap string (list Path) :=
  match lang_of p with
  | Some lang => alter (λ l, l ++ [p]) lang b
  | None => b
  end.

Definition find_by_lang (root : fsnode) : gmap string (list Path) :=
  merge_sort PyPath.le <$> foldl bucket_add empty_buckets (walk_files root).

(** The patterns of the module, compiled once. *)
Definition compiled (pattern : string) : PyRe.re :=
  match PyRe.compile pattern with
  | Ok r => r
  | Raise _ => PyRe.Eps
  end.

Definition heading_pattern : string := "^#+\s*".
Definition heading_re : PyRe.re := Eval vm_compute in compiled heading_pattern.

Definition slug_pattern : string := "[^A-Za-z0-9]+".
Definition slug_re : PyRe.re := Eval vm_compute in compiled slug_pattern.

Definition imp_re1_pattern : string := "^\s*import\s+([A-Za-z0-9_\.]+)".
Definition imp_re1 : PyRe.re := Eval vm_compute in compiled imp_re1_pattern.

Definition imp_re2_pattern : string := "^\s*from\s+([A-Za-z0-9_\.]+)\s+import\s+".
Definition imp_re2 : PyRe.re := Eval vm_compute in compiled imp_re2_pattern.

Definition require_pattern : string :=
  "require\([" +:+ DQ +:+ "\'](.+?)[" +:+ DQ +:+ "\']\)".
Definition require_re : PyRe.re := Eval vm_compute in compiled require_pattern.

Definition import_pattern : string :=
  "^\s*import\s+.*?from\s+[" +:+ DQ +:+ "\'](.+?)[" +:+ DQ +:+ "\']".
Definition import_re : PyRe.re := Eval vm_compute in compiled import_pattern.

(** The summary of one README text: its first line that is not blank once
    stripped, without leading hashes and the spaces after them. *)
Definition first_summary (txt : string) : option string :=
  PyRe.sub false heading_re "" <$>
    List.find (λ clean, negb (String.eqb clean "")) (map strip (splitlines txt)).

Fixpoint read_readme_from (root : fsnode) (names : list string) : result (option string) :=
  match names with
  | [] => Ok None
  | nm :: rest =>
      if path_exists root [nm] then
        txt ← read_text root [nm];
        match first_summary txt with
        | Some line => Ok (Some line)
        | None => read_readme_from root rest
        end
      else read_readme_from root rest
  end.

Definition read_readme (root : fsnode) : result (option string) :=
  read_readme_from root README_FILES.

Definition slug_for_mermaid (p : Path) : string :=
  strip_char "_" (PyRe.sub false slug_re "_" (PyPath.as_posix p)).

(** [{p.stem: p for p in files}]: a later file replaces an earlier one. *)
Definition stem_index (files : list Path) : gmap string Path :=
  foldl (λ m p, <[PyPath.stem p := p]> m) ∅ files.

Definition first_match (r1 r2 : option PyRe.rmatch) : option PyRe.rmatch :=
  match r1 with
  | Some m => Some m
  | None => r2
  end.

(** The module head an import line names: [m.group(1).split(".")[0]]. *)
Definition py_import_head (line : string) : option string :=
  m ← first_match (PyRe.rmatch_of false imp_re1 line) (PyRe.rmatch_of false imp_re2 line);
  Some (hd "" (split "." (PyRe.group 1 m))).

(** The base an import or require line names: [Path(m.group(1)).stem]. *)
Definition js_import_base (line : string) : option string :=
  m ← first_match (PyRe.rmatch_of false import_re line) (PyRe.search false require_re line);
  Some (PyPath.stem (PyPath.of_string (PyRe.group 1 m))).

Section ImportEdges.
Context (target : string → option string) (root : fsnode).

Definition line_edge (index : gmap string Path) (src : string)
    (edges : gset (string * string)) (line : string) : gset (string * string) :=
  match target line with
  | None => edges
  | Some nm =>
      match index !! nm with
      | Some q =>
          let dst := slug_for_mermaid q in
          if decide (src ≠ dst) then edges ∪ {[ (src, dst) ]} else edges
      | None => edges
      end
  end.

Definition file_edges (index : gmap string Path)
    (edges : gset (string * string)) (p : Path) : gset (string * string) :=
  match read_text root p with
  | Raise _ => edges
  | Ok text => foldl (line_edge index (slug_for_mermaid p)) edges (splitlines text)
  end.

Definition edge_set (files : list Path) : gset (string * string) :=
  foldl (file_edges (stem_index files)) ∅ files.

Definition import_edges (files : list Path) : list (string * string) :=
  merge_sort edge_le (elements (edge_set files)).
End ImportEdges.

Definition py_import_edges (root : fsnode) (files : list Path) : list (string * string) :=
  import_edges py_import_head root files.

Definition js_import_edges (root : fsnode) (files : list Path) : list (string * string) :=
  import_edges js_import_base root files.

Definition edge_line (e : string * string) : string :=
  "  " +:+ fst e +:+ " --> " +:+ snd e.

Definition mermaid_graph (edges : list (string * string)) (title : string) : string :=
  match edges with
  | [] => "```mermaid" +:+ LF +:+ "graph LR" +:+ LF +:+
          "%% No edges detected for " +:+ title +:+ LF +:+ "```" +:+ LF
  | _ => join LF (["```mermaid"; "graph LR"] ++ map edge_line edges ++ ["```"; ""])
  end.

Definition getitem {V} (d : gmap string V) (k : string) : result V :=
  match d !! k with
  | Some v => Ok v
  | None => Raise KeyError
  end.

Definition summary_line (buckets : gmap string (list Path)) (lang : string) : result string :=
  files ← getitem buckets lang;
  Ok ("- " +:+ lang +:+ ": " +:+ pretty (length files)).

Definition listing_section (buckets : gmap string (list Path)) (lang : string)
    : result (list string) :=
  files ← getitem buckets lang;
  Ok (["## " +:+ lang +:+ " files"] ++
      match files with
      | [] => ["_None_"]
      | _ => map (λ p, "- `" +:+ PyPath.as_posix p +:+ "`") files
      end ++ [""]).

Definition readme_section (readme_line : option string) : list string :=
  match readme_line with
  | Some line =>
      if String.eqb line "" then []
      else ["## README summary (first non-empty line)" +:+ LF; "> " +:+ line +:+ LF]
  | None => []
  end.

Definition graph_section (heading title : string) (edges : list (string * string))
    : list string :=
  match edges with
  | [] => []
  | _ => [heading +:+ LF; mermaid_graph edges title]
  end.

Definition py_heading : string := "## Python import graph (Mermaid)".
Definition js_heading : string := "## JS/TS import graph (Mermaid)".

(** The list [lines] of [write_markdown]; [resolved] is [root.resolve()]. *)
Definition markdown_lines (resolved : string) (buckets : gmap string (list Path))
    (readme_line : option string) (py_edges js_edges : list (string * string))
    : result (list string) :=
  summary ← mapM (summary_line buckets) (LANG_EXTS.*1);
  listing ← mapM (listing_section buckets) (LANG_EXTS.*1);
  Ok (["# Codebase Genius — Docs" +:+ LF;
       "Scanned root: `" +:+ resolved +:+ "`" +:+ LF;
       "## Summary" +:+ LF] ++
      summary ++ [""] ++
      readme_section readme_line ++
      graph_section py_heading "Python" py_edges ++
      graph_section js_heading "JS/TS" js_edges ++
      concat listing).

(** The text [write_markdown] hands to [out_md.write_text]. *)
Definition markdown_text (resolved : string) (buckets : gmap string (list Path))
    (readme_line : option string) (py_edges js_edges : list (string * string))
    : result string :=
  join LF <$> markdown_lines resolved buckets readme_line py_edges js_edges.

Definition edges_if_any (extract : list Path → list (string * string))
    (files : list Path) : list (string * string) :=
  match files with
  | [] => []
  | _ => extract files
  end.

(** [main] before it calls [write_markdown]: the README line, and the edges
    of the two families that have an extractor. *)
Definition main_scan (root : fsnode)
    : result (option string * list (string * string) * list (string * string)) :=
  let buckets := find_by_lang root in
  readme_line ← read_readme root;
  py_files ← getitem buckets "Python";
  let py_edges := edges_if_any (py_import_edges root) py_files in
  js_files ← getitem buckets "JavaScript/TypeScript";
  let js_edges := edges_if_any (js_import_edges root) js_files in
  Ok (readme_line, py_edges, js_edges).

(** The lines and the text [main] has [write_markdown] render. *)
Definition main_lines (root : fsnode) (resolved : string) : result (list string) :=
  scan ← main_scan root;
  markdown_lines resolved (find_by_lang root) scan.1.1 scan.1.2 scan.2.

Definition main_text (root : fsnode) (resolved : string) : result string :=
  join LF <$> main_lines root resolved.

(** ** Writing: the process state and the calls that change it *)

(** The working directory, the directories and the regular files with their
    contents, all by absolute path. *)
Record world : Type := World {
  w_cwd : Path;
  w_dirs : gset Path;
  w_files : gmap Path string
}.

(** Where the environment makes a call fail: [mkdir], the write (after so
    many characters reached the file), the rename. *)
Record faults : Type := Faults {
  mkdir_fails : bool;
  write_stops : option nat;
  replace_fails : bool
}.

Definition no_faults : faults := Faults false None false.

(** Code that reads and changes the process state and can raise. *)
Definition io (A : Type) : Type := world → result A * world.

Definition io_bind {A B} (m : io A) (f : A → io B) : io B := λ w,
  match m w with
  | (Ok a, w') => f a w'
  | (Raise e, w') => (Raise e, w')
  end.
Definition io_ret {A} (a : A) : io A := λ w, (Ok a, w).
Definition io_raise {A} (e : exn) : io A := λ w, (Raise e, w).

Notation "m >>> f" := (io_bind m (λ _, f)) (at level 60, right associativity).

Definition parent (p : Path) : Path := removelast p.

(** A string holding a NUL character names no path: the calls that hand it
    to the operating system raise [ValueError: embedded null byte]. *)
Definition has_nul (s : string) : bool := existsb (λ c, (code c =? 0)%N) (chars s).
Definition embedded_null : exn := OtherError "embedded null byte".

(** The absolute path a string stands for from the working directory [cwd],
    in a file system without symbolic links. *)
Definition normal_path (cwd : Path) (s : string) : Path :=
  fold_left (λ acc x, if String.eqb x ".." then removelast acc else acc ++ [x])
    (PyPath.of_string s) (if startswith_char "/" s then [] else cwd).

(** [Path(s).resolve()] *)
Definition resolve (cwd : Path) (s : string) : result Path :=
  if has_nul s then Raise embedded_null else Ok (normal_path cwd s).

Definition abs_string (p : Path) : string := "/" +:+ join "/" p.

(** [os.chdir(d)] *)
Definition chdir (d : Path) : io unit := λ w,
  if bool_decide (d ∈ w_dirs w) then (Ok (), World d (w_dirs w) (w_files w))
  else (Raise OSError, w).

Definition ancestors (d : Path) : list Path :=
  map (λ n, take n d) (seq 0 (S (length d))).

(** [d.mkdir(parents=True, exist_ok=True)] *)
Definition mkdir_p (flt : faults) (d : Path) : io unit := λ w,
  if mkdir_fails flt || existsb (λ q, bool_decide (q ∈ dom (w_files w))) (ancestors d)
  then (Raise OSError, w)
  else (Ok (), World (w_cwd w) (w_dirs w ∪ list_to_set (ancestors d)) (w_files w)).

(** [p.write_text(data, encoding="utf-8")]: opening for writing empties the
    file, then the data goes in. *)
Definition path_write_text (flt : faults) (p : Path) (data : string) : io unit := λ w,
  if bool_decide (p ∈ w_dirs w) || negb (bool_decide (parent p ∈ w_dirs w))
  then (Raise OSError, w)
  else match write_stops flt with
       | Some n =>
           (Raise OSError, World (w_cwd w) (w_dirs w) (<[p := substring 0 n data]> (w_files w)))
       | None => (Ok (), World (w_cwd w) (w_dirs w) (<[p := data]> (w_files w)))
       end.

(** [tmp.replace(p)] *)
Definition path_replace (flt : faults) (tmp p : Path) : io unit := λ w,
  match w_files w !! tmp with
  | Some data =>
      if replace_fails flt || bool_decide (p ∈ w_dirs w) then (Raise OSError, w)
      else (Ok (), World (w_cwd w) (w_dirs w) (<[p := data]> (delete tmp (w_files w))))
  | None => (Raise OSError, w)
  end.

(** The last two statements of [write_markdown], for the text it built. *)
Definition write_markdown_out (flt : faults) (out_md : Path) (text : string) : io unit :=
  mkdir_p flt (parent out_md) >>> path_write_text flt out_md text.

(** [write_markdown]: the text is built, then written to [out_md]. *)
Definition write_markdown (resolved : string) (buckets : gmap string (list Path))
    (readme_line : option string) (py_edges js_edges : list (string * string))
    (out_md : Path) (flt : faults) : io unit := λ w,
  match markdown_text resolved buckets readme_line py_edges js_edges with
  | Ok text => write_markdown_out flt out_md text w
  | Raise e => (Raise e, w)
  end.

(** [gen_docs.main()], for the tree found under the root at the time of the
    scan; [argv1] is [sys.argv[1]] when there is one.  The scan starts with
    the [os.walk(root)] of [find_by_lang], which raises for a root holding a
    NUL character; [write_markdown] starts with [root.resolve()]. *)
Definition main (argv1 : option string) (tree : fsnode) (flt : faults) : io unit := λ w,
  let root := from_option id "." argv1 in
  if has_nul root then (Raise embedded_null, w)
  else
    match main_scan tree with
    | Ok (readme_line, py_edges, js_edges) =>
        match resolve (w_cwd w) root with
        | Ok resolved =>
            write_markdown (abs_string resolved) (find_by_lang tree)
              readme_line py_edges js_edges (w_cwd w ++ ["outputs"; "docs.md"]) flt w
        | Raise e => (Raise e, w)
        end
    | Raise e => (Raise e, w)
    end.

(** ** BE/py/simple_fs.py *)

Definition write_text (flt : faults) (path : Path) (content : string) : io unit :=
  mkdir_p flt (parent path) >>>
  match path with
  | [] => io_raise (OtherError "has an empty name")
  | _ =>
      let tmp := parent path ++ [PyPath.name path +:+ ".tmp"] in
      path_write_text flt tmp content >>> path_replace flt tmp path
  end.

(** ** BE/gen_bridge.py *)

Inductive gen_report : Type :=
| GenOk (root docs_path : string) (exists_ : bool) (size_bytes : nat)
| GenFailed (error root : string).

Definition report_ok (r : gen_report) : bool :=
  match r with
  | GenOk _ _ _ _ => true
  | GenFailed _ _ => false
  end.

Definition exn_message (e : exn) : string :=
  match e with
  | ReError => "missing ), unterminated subpattern"
  | ReUnsupported => "unsupported pattern"
  | OSError => "OSError"
  | KeyError => "KeyError"
  | OtherError msg => msg
  end.

Section RunGen.
(** What [import gen_docs] and [gen_docs.main()] do. *)
Context (gen_docs_main : io unit).

(** The [try] and [except] clauses, from inside [root_path]. *)
Definition run_gen_try (root_path : Path) : world → gen_report * world := λ w,
  match (chdir root_path >>> gen_docs_main) w with
  | (Ok _, w') =>
      let out_md := root_path ++ ["outputs"; "docs.md"] in
      let found := bool_decide (out_md ∈ dom (w_files w') ∨ out_md ∈ w_dirs w') in
      (GenOk (abs_string root_path) (abs_string out_md) found
         (if found then String.length (default "" (w_files w' !! out_md)) else 0), w')
  | (Raise e, w') => (GenFailed (exn_message e) (abs_string root_path), w')
  end.

Definition run_gen (root : string) : io gen_report := λ w,
  let root := if String.eqb root "" then "." else root in
  match resolve (w_cwd w) root with
  | Raise e => (Raise e, w)              (* raised before the [try] *)
  | Ok root_path =>
      let cwd := w_cwd w in
      let '(r, w1) := run_gen_try root_path w in
      (* finally *)
      match chdir cwd w1 with
      | (Ok _, w2) => (Ok r, w2)
      | (Raise e, w2) => (Raise e, w2)
      end
  end.
End RunGen.

(** ** BE/py/parser.py *)

(** A [networkx.DiGraph]: nodes and edges in insertion order, each with its
    attribute dict. *)
Record DiGraph : Type := Graph {
  g_nodes : list (string * gmap string string);
  g_edges : list ((string * string) * gmap string string)
}.

Fixpoint upsert {K} `{EqDecision K} (k : K) (attrs : gmap string string)
    (l : list (K * gmap string string)) : list (K * gmap string string) :=
  match l with
  | [] => [(k, attrs)]
  | (k', a) :: l' =>
      if decide (k = k') then (k', attrs ∪ a) :: l'
      else (k', a) :: upsert k attrs l'
  end.

Definition add_node (n : string) (attrs : gmap string string) (g : DiGraph) : DiGraph :=
  Graph (upsert n attrs (g_nodes g)) (g_edges g).

Definition add_edge (u v : string) (attrs : gmap string string) (g : DiGraph) : DiGraph :=
  Graph (upsert v ∅ (upsert u ∅ (g_nodes g))) (upsert (u, v) attrs (g_edges g)).

Record Meta : Type := MkMeta { files_analyzed : nat; functions : nat; classes : nat }.

Fixpoint foldM {A S} (f : S → A → result S) (s : S) (l : list A) : result S :=
  match l with
  | [] => Ok s
  | x :: l' => s' ← f s x; foldM f s' l'
  end.

Definition funcs_pattern : string := "^\s*def\s+([a-zA-Z_]\w*)\s*\(".
Definition funcs_re : PyRe.re := Eval vm_compute in compiled funcs_pattern.

Definition clss_pattern : string := "^\s*class\s+([a-zA-Z_]\w*)\s*(\(|:)".
Definition clss_re : PyRe.re := Eval vm_compute in compiled clss_pattern.

(** The pattern [rf'\\b{callee}\\s*\\('] as the raw string spells it. *)
Definition call_pattern (callee : string) : string :=
  "\\b" +:+ callee +:+ "\\s*\\(".

(** [re.search(pattern, text)] as a truth value. *)
Definition re_search (pattern text : string) : result bool :=
  r ← PyRe.compile pattern;
  Ok (bool_decide (is_Some (PyRe.search false r text))).

(** [re.findall] with the two declaration patterns; of a class match only
    the name is used. *)
Definition funcs_of (text : string) : list string :=
  map (PyRe.group 1) (PyRe.findall true funcs_re text).
Definition clss_of (text : string) : list string :=
  map (PyRe.group 1) (PyRe.findall true clss_re text).

Section BuildCcg.
(** [calls callee text]: the test of the innermost [if]. *)
Context (calls : string → string → result bool).

Definition call_edge (file text caller : string) (g : DiGraph) (callee : string)
    : result DiGraph :=
  if decide (caller ≠ callee) then
    calls callee text ≫= λ found : bool,
    Ok (if found
        then add_edge ("func::" +:+ caller) ("func::" +:+ callee)
               {[ "type" := "calls"; "file" := file ]} g
        else g)
  else Ok g.

Definition caller_edges (file text : string) (funcs : list string) (g : DiGraph)
    (caller : string) : result DiGraph :=
  foldM (call_edge file text caller) g funcs.

(** One round of the loop over the files: [file] is [str(p)], [text] the
    decoded bytes. *)
Definition scan_file (st : DiGraph * Meta) (f : string * string)
    : result (DiGraph * Meta) :=
  let '(g, meta) := st in
  let '(file, text) := f in
  let funcs := funcs_of text in
  let clss := clss_of text in
  let g1 := foldl (λ g f, add_node ("func::" +:+ f)
                             {[ "kind" := "func"; "file" := file ]} g) g funcs in
  let g2 := foldl (λ g c, add_node ("class::" +:+ c)
                             {[ "kind" := "class"; "file" := file ]} g) g1 clss in
  g3 ← foldM (caller_edges file text funcs) g2 funcs;
  Ok (g3, MkMeta (S (files_analyzed meta))
                 (functions meta + length funcs)
                 (classes meta + length clss)).

Definition build_ccg_with (files : list (string * string)) : result (DiGraph * Meta) :=
  foldM scan_file (Graph [] [], MkMeta 0 0 0) files.
End BuildCcg.

(** The test of the inner loop, [re.search(rf'...', text)]. *)
Definition real_calls (callee text : string) : result bool :=
  re_search (call_pattern callee) text.

(** [build_ccg], for the [.py] files [rglob] finds under [src_root] in the
    order it yields them, each with its decoded text.  Loading the grammar
    and parsing ([_ensure_langs], [parser.parse]) leave no trace in the
    result and are taken to succeed. *)
Definition build_ccg (files : list (string * string)) : result (DiGraph * Meta) :=
  build_ccg_with real_calls files.

(** ** BE/py/parser.py: the files [build_ccg] reads, and [graph_to_dot] *)

(** [s.endswith(suf)] *)
Definition endswith (suf s : string) : bool :=
  bool_decide (chars suf `suffix_of` chars s).

(** [root.rglob("*.py")]: the directories below the root, each before its
    sub-directories; of each, the entries whose name ends in [.py], files
    and directories alike, hidden or not. *)
Fixpoint rglob_py_from (d : Path) (t : fsnode) : list Path :=
  match t with
  | File _ => []
  | Dir es =>
      map (λ e, d ++ [fst e]) (filter (λ e, endswith ".py" (fst e) = true) es) ++
      (fix descend (es : list (string * fsnode)) : list Path :=
         match es with
         | [] => []
         | (nm, sub) :: es' =>
             (if is_dir sub then rglob_py_from (d ++ [nm]) sub else []) ++ descend es'
         end) es
  end.

Definition rglob_py (root : fsnode) : list Path := rglob_py_from [] root.

Section BuildCcgAt.
(** [str(p)] for a path [p] below [src_root]. *)
Context (str_of : Path → string).

(** The head of the loop of [build_ccg]: the bytes of [p] are read and
    decoded, then the round of [scan_file] runs. *)
Definition scan_path (t : fsnode) (st : DiGraph * Meta) (p : Path)
    : result (DiGraph * Meta) :=
  text ← read_text t p;
  scan_file real_calls st (str_of p, text).

(** [build_ccg(src_root)], for the tree found at [src_root]. *)
Definition build_ccg_at (t : fsnode) : result (DiGraph * Meta) :=
  foldM (scan_path t) (Graph [] [], MkMeta 0 0 0) (rglob_py t).
End BuildCcgAt.

(** [graph_to_dot].  A [graphviz.Digraph] is kept as what its constructor
    received and the statements [node] and [edge] added to its body, in the
    order of the calls. *)
Inductive dot_stmt : Type :=
| DotNode (name label shape : string)
| DotEdge (tail head label : string).

Record Digraph : Type := MkDigraph {
  d_comment : string;
  d_graph_attr : list (string * string);
  d_body : list dot_stmt
}.

(** [s.split(sep, 1)[-1]]: what follows the first [sep], all of [s] when
    there is none. *)
Fixpoint find_after (sep s : string) : option string :=
  if String.prefix sep s then Some (str (drop (String.length sep) (chars s)))
  else match s with
       | String _ s' => find_after sep s'
       | EmptyString => None
       end.
Definition after_first (sep s : string) : string := default s (find_after sep s).

(** [data.get(k, dflt)] *)
Definition get_or (data : gmap string string) (k dflt : string) : string :=
  default dflt (data !! k).

(** [g.edges(data=True)]: the out-edges of each node, in the order of the
    nodes. *)
Definition edges_view (g : DiGraph) : list ((string * string) * gmap string string) :=
  flat_map (λ n, filter (λ e, e.1.1 = n) (g_edges g)) (g_nodes g).*1.

Definition node_stmt (nd : string * gmap string string) : dot_stmt :=
  let label := get_or nd.2 "kind" "?" +:+ "\n" +:+ after_first "::" nd.1 in
  let shape := if bool_decide (nd.2 !! "kind" = Some "func") then "ellipse" else "box" in
  DotNode nd.1 label shape.

Definition edge_stmt (e : (string * string) * gmap string string) : dot_stmt :=
  DotEdge e.1.1 e.1.2 (get_or e.2 "type" "").

Definition graph_to_dot (g : DiGraph) : Digraph :=
  MkDigraph "Code Context Graph" [("rankdir", "LR")]
    (map node_stmt (g_nodes g) ++ map edge_stmt (edges_view g)).

(** ** BE/py/simple_fs.py, the other functions *)

(** [list_py_files]: the paths relative to the root as strings, sorted as
    strings. *)
Definition list_py_files (root : fsnode) : list string :=
  merge_sort String.le (map PyPath.as_posix (rglob_py root)).


(** ** BE/py/utils.py *)

Definition IGNORE_DIRS : list string :=
  [".git"; "node_modules"; ".idea"; ".venv"; "__pycache__"; "dist"; "build"].

(** [s.rstrip(c)] for a one-character set, and [s[:-n]]. *)
Definition rstrip_char (c : ascii) (s : string) : string :=
  str (rev (drop_while (Ascii.eqb c) (rev (chars s)))).
Definition drop_end (n : nat) (s : string) : string :=
  str (take (String.length s - n) (chars s)).

Definition safe_name_pattern : string := "[^a-zA-Z0-9_.-]".
Definition safe_name_re : PyRe.re := Eval vm_compute in compiled safe_name_pattern.

Definition safe_repo_name (url : string) : string :=
  let name := List.last (split "/" (rstrip_char "/" url)) "" in
  let name := if endswith ".git" name then drop_end 4 name else name in
  PyRe.sub false safe_name_re "-" name.

(** The dicts of [file_tree]: a directory with its children, a file with
    its path relative to the root. *)
#[local] Unset Elimination Schemes.
Inductive tree_item : Type :=
| ItemDir (name : string) (children : list tree_item)
| ItemFile (name path : string).
#[local] Set Elimination Schemes.

Record tree_dict : Type := TreeDict { td_root : string; td_children : list tree_item }.

(** The sort key [(x.is_file(), x.name)]; tuples compare component-wise,
    [False] before [True]. *)
Definition item_key (it : tree_item) : bool * string :=
  match it with
  | ItemDir nm _ => (false, nm)
  | ItemFile nm _ => (true, nm)
  end.

Definition key_leb (a b : bool * string) : bool :=
  if Bool.eqb a.1 b.1 then String.leb a.2 b.2 else negb a.1.

Definition item_le (a b : tree_item) : Prop := key_leb (item_key a) (item_key b).

Global Instance item_le_dec : RelDecision item_le.
Proof. intros a b. unfold item_le. apply _. Defined.

(** [walk(p)] of [file_tree].  The entries are turned into dicts and these
    are put in the order of the key; the key of a dict is that of its
    entry, and a directory holds no two entries of one name, so this is the
    order in which the source visits the sorted entries. *)
Fixpoint file_tree_walk (d : Path) (t : fsnode) : list tree_item :=
  match t with
  | File _ => []
  | Dir es =>
      merge_sort item_le
        ((fix items (es : list (string * fsnode)) : list tree_item :=
            match es with
            | [] => []
            | (nm, sub) :: es' =>
                if bool_decide (nm ∈ IGNORE_DIRS) then items es'
                else match sub with
                     | Dir _ => ItemDir nm (file_tree_walk (d ++ [nm]) sub)
                     | File _ => ItemFile nm (PyPath.as_posix (d ++ [nm]))
                     end :: items es'
            end) es)
  end.

(** [file_tree(root)], for the tree found at [root]; [iterdir] raises on a
    root that is no directory. *)
Definition file_tree (root : string) (t : fsnode) : result tree_dict :=
  match t with
  | Dir _ => Ok (TreeDict (PyPath.name (PyPath.of_string root)) (file_tree_walk [] t))
  | File _ => Raise OSError
  end.

Definition README_CANDIDATES : list string := ["README.md"; "readme.md"; "Readme.md"].

Fixpoint readme_summary_from (root : fsnode) (cands : list string) : result string :=
  match cands with
  | [] => Ok "(No README found)"
  | cand :: rest =>
      if path_exists root [cand] then
        text ← read_text root [cand];
        let first_lines := join LF (take 40 (splitlines (strip text))) in
        Ok (if String.eqb first_lines "" then "(README present but empty)" else first_lines)
      else readme_summary_from root rest
  end.

Definition readme_summary (root : fsnode) : result string :=
  readme_summary_from root README_CANDIDATES.

(** ** Small inputs the examples run on *)

(** Two Python files, one importing the other, and a script requiring a
    sibling. *)
Definition demo_root : fsnode :=
  Dir [ ("a.py", File (Some ("import os" +:+ LF)));
        ("b.py", File (Some ("import a" +:+ LF +:+ "from pkg.x import y" +:+ LF)));
        ("main.js", File (Some ("const u = require('./util');" +:+ LF)));
        ("util.ts", File (Some "")) ].

(** A tree with a dependency cache, a repository directory and a hidden
    directory, each holding source files, next to two files of its own. *)
Definition demo_ignored : fsnode :=
  Dir [ ("app.js", File (Some "x"));
        ("node_modules", Dir [("z.js", File (Some "x")); ("lib", Dir [("w.PY", File (Some "x"))])]);
        (".git", Dir [("q.py", File (Some "x"))]);
        ("src", Dir [("Main.PY", File (Some "x")); (".hidden", Dir [("h.go", File (Some "x"))]);
                     ("notes.txt", File (Some "x"))]) ].

(** A root whose first README candidate is blank, whose second one has a
    heading after an empty line, and which has another README one level
    down. *)
Definition demo_readme : fsnode :=
  Dir [ ("README.md", File (Some (LF +:+ "   " +:+ LF)));
        ("readme.md", File (Some (LF +:+ "  ## My project  " +:+ LF +:+ "more")));
        ("docs", Dir [("README.md", File (Some "# Nested"))]);
        ("tool.py", File (Some "x = 1")) ].

(** The bucket of the call-graph example: [a.py] declares [f], [b.py]
    declares [g] and calls [f]. *)
Definition demo_calls : list (string * string) :=
  [ ("a.py", "def f(): pass");
    ("b.py", "def g():" +:+ LF +:+ "    f()") ].

(** One file declaring both. *)
Definition demo_calls_one_file : list (string * string) :=
  [ ("c.py", "def f(): pass" +:+ LF +:+ "def g():" +:+ LF +:+ "    f()") ].

(** A root whose only source file imports nothing of the bucket. *)
Definition demo_no_edges : fsnode :=
  Dir [ ("a.py", File (Some ("import os" +:+ LF +:+ "x = 1" +:+ LF))) ].

(** A process in [/srv/demo] with a report of an earlier run in place. *)
Definition demo_out : Path := ["srv"; "demo"; "outputs"; "docs.md"].

Definition demo_world : world :=
  World ["srv"; "demo"]
        {[ []; ["srv"]; ["srv"; "demo"]; ["srv"; "demo"; "outputs"] ]}
        {[ demo_out := "old report" ]}.

(** The write of the report fails before any character reaches the file. *)
Definition write_fails_at_once : faults := Faults false (Some 0) false.

(** A root that names no path: it holds a NUL character. *)
Definition nul_root : string := "repo" +:+ String (ascii_of_N 0) "".

(** [demo_root] as another scan may find it: the root directory lists its
    entries in the opposite order. *)
Definition demo_root_entries : list (string * fsnode) :=
  match demo_root with
  | Dir es => es
  | File _ => []
  end.
Definition demo_root_reordered : fsnode := Dir (reverse demo_root_entries).

(** ** Notions the properties are stated with *)

(** An edge the extractor built: the file and the line it was read from,
    and the file its target names. *)
Definition edge_origin (target : string → option string) (root : fsnode)
    (files : list Path) (e : string * string) : Prop :=
  ∃ p q text line,
    p ∈ files ∧ q ∈ files ∧
    read_text root p = Ok text ∧ line ∈ splitlines text ∧
    target line = Some (PyPath.stem q) ∧
    e = (slug_for_mermaid p, slug_for_mermaid q) ∧
    slug_for_mermaid p ≠ slug_for_mermaid q.

(** Graphs without self-edges, and graphs whose edges join nodes they hold. *)
Definition proper_edges (g : DiGraph) : Prop :=
  ∀ e, e ∈ (g_edges g).*1 → e.1 ≠ e.2.

(** Every edge joins two different function names found in one file. *)
Definition edges_within_files (files : list (string * string)) (g : DiGraph) : Prop :=
  ∀ e, e ∈ (g_edges g).*1 →
    ∃ file text caller callee,
      (file, text) ∈ files ∧ caller ∈ funcs_of text ∧ callee ∈ funcs_of text ∧
      caller ≠ callee ∧ e = ("func::" +:+ caller, "func::" +:+ callee).

Definition closed_graph (g : DiGraph) : Prop :=
  ∀ e, e ∈ (g_edges g).*1 → e.1 ∈ (g_nodes g).*1 ∧ e.2 ∈ (g_nodes g).*1.

(** The files a directory yields itself, and what the descent adds. *)
Definition own_files (d : Path) (es : list (string * fsnode)) : list Path :=
  map (λ e, d ++ [e.1]) (filter (λ e, is_dir e.2 = false) es).

Definition descent (d : Path) (e : string * fsnode) : list Path :=
  if is_dir e.2 && keep_dir e.1 then walk_files_from (d ++ [e.1]) e.2 else [].

Definition classified (lang : string) (p : Path) : bool :=
  bool_decide (lang_of p = Some lang).

Definition blank (line : string) : Prop := strip line = "".





Definition bucket_of (buckets : gmap string (list Path)) (lang : string) : list Path :=
  default [] (buckets !! lang).

Definition count_line (buckets : gmap string (list Path)) (lang : string) : string :=
  "- " +:+ lang +:+ ": " +:+ pretty (length (bucket_of buckets lang)).

Definition file_lines (files : list Path) : list string :=
  match files with
  | [] => ["_None_"]
  | _ => map (λ p, "- `" +:+ PyPath.as_posix p +:+ "`") files
  end.

Definition listing_of (buckets : gmap string (list Path)) (lang : string) : list string :=
  ["## " +:+ lang +:+ " files"] ++ file_lines (bucket_of buckets lang) ++ [""].

Definition preamble (resolved : string) : list string :=
  ["# Codebase Genius — Docs" +:+ LF;
   "Scanned root: `" +:+ resolved +:+ "`" +:+ LF;
   "## Summary" +:+ LF].

(** The edges [main] passes to the renderer for each family. *)
Definition main_py_edges (root : fsnode) : list (string * string) :=
  edges_if_any (py_import_edges root) (bucket_of (find_by_lang root) "Python").
Definition main_js_edges (root : fsnode) : list (string * string) :=
  edges_if_any (js_import_edges root) (bucket_of (find_by_lang root) "JavaScript/TypeScript").

(** Telling the lines apart by how they start. *)
Definition placeholder_head : string :=
  "```mermaid" +:+ LF +:+ "graph LR" +:+ LF +:+ "%".
Definition py_head : string := "## Python import".
Definition js_head : string := "## JS/TS import".

Definition lacks (k line : string) : Prop := String.prefix k line = false.

Definition none_section (lang : string) : list string :=
  ["## " +:+ lang +:+ " files"; "_None_"; ""].

(** The node ids a file declares, functions first. *)
Definition declared_in (text : string) : list string :=
  map (String.app "func::") (funcs_of text) ++ map (String.app "class::") (clss_of text).

Definition declared (files : list (string * string)) : list string :=
  flat_map (λ f, declared_in f.2) files.

(** No file declares two different function names. *)
Definition one_function_each (files : list (string * string)) : Prop :=
  Forall (λ f, ∀ a b, a ∈ funcs_of f.2 → b ∈ funcs_of f.2 → a = b) files.

(** Directories of a real file system list each name once. *)
#[local] Unset Elimination Schemes.
Inductive wf : fsnode → Prop :=
| wf_file c : wf (File c)
| wf_dir es : NoDup es.*1 → Forall (λ e, wf e.2) es → wf (Dir es).
#[local] Set Elimination Schemes.

(** What there is at a path: nothing, a directory, or a file with the text
    reading it gives. *)
Inductive entry_kind : Type :=
| IsDir
| IsFile (content : option string).

Definition kind_at (t : fsnode) (p : Path) : option entry_kind :=
  match tree_lookup t p with
  | Some (Dir _) => Some IsDir
  | Some (File c) => Some (IsFile c)
  | None => None
  end.

(** The same file set with the same contents, whatever the order in which
    the directories list their entries. *)
Definition same_files (t1 t2 : fsnode) : Prop :=
  ∀ p, kind_at t1 p = kind_at t2 p.

(** The text of the artifact up to the path of the scanned root. *)
Definition report_head : string :=
  "# Codebase Genius — Docs" +:+ LF +:+ LF +:+ "Scanned root: `".

(** The character before the position reached after the longest run of
    characters satisfying [p]. *)
Fixpoint prev_after (p : ascii → bool) (prev : option ascii) (l : list ascii)
    : option ascii :=
  match l with
  | c :: l' => if p c then prev_after p (Some c) l' else prev
  | [] => prev
  end.

Definition is_hash (c : ascii) : bool := Ascii.eqb c "#".

(** A line without its leading hashes and the spaces after them. *)
Definition strip_heading (s : string) : string :=
  match chars s with
  | c :: l => if is_hash c then str (drop_while isspace (drop_while is_hash l)) else s
  | [] => s
  end.

(** Patterns that consume word characters only, and patterns whose first
    group is such a pattern. *)
Fixpoint word_only (r : PyRe.re) : Prop :=
  match r with
  | PyRe.Eps => True
  | PyRe.Chr cs | PyRe.Rep _ _ cs => ∀ c, PyRe.cset_mem cs c = true → isword c = true
  | PyRe.Seq a b => word_only a ∧ word_only b
  | _ => False
  end.

Fixpoint captures_words (r : PyRe.re) : Prop :=
  match r with
  | PyRe.Seq a b | PyRe.Alt a b => captures_words a ∧ captures_words b
  | PyRe.Grp i r' => if Nat.eqb i 1 then word_only r' else captures_words r'
  | _ => True
  end.

(** A string of word characters. *)
Definition word (s : string) : Prop := Forall (λ c, isword c = true) (chars s).

(** What group 1 holds, if anything, is a word. *)
Definition caps_ok (caps : list (nat * string)) : Prop :=
  Forall (λ p, p.1 = 1 → word p.2) caps.

(** The pattern of one character that stands for itself. *)
Definition literal (c : ascii) : PyRe.re := PyRe.Chr (PyRe.CSet false [PyRe.CRange c c]).

(** All function names of a file are one name. *)
Definition uniform (funcs : list string) : Prop :=
  Forall (λ a, Forall (λ b, a = b) funcs) funcs.

(** The characters [safe_repo_name] lets through. *)
Definition safe_char (c : ascii) : bool :=
  isalnum c || Ascii.eqb c "_" || Ascii.eqb c "." || Ascii.eqb c "-".

(** [k] slashes. *)
Definition slashes (k : nat) : string := str (replicate k "/"%char).

(** How many line boundaries a text holds. *)
Definition linebreaks (s : string) : nat := length (filter (λ c, is_linebreak c = true) (chars s)).

(** A text without line boundaries. *)
Definition one_line (s : string) : Prop := Forall (λ c, is_linebreak c = false) (chars s).

(** The maximal runs of letters and digits of a text, from left to right:
    [words_aux] gives the run the text starts with and the runs after it. *)
Definition cons_word (w : list ascii) (ws : list string) : list string :=
  match w with
  | [] => ws
  | _ => str w :: ws
  end.

Fixpoint words_aux (l : list ascii) : list ascii * list string :=
  match l with
  | [] => ([], [])
  | c :: l' =>
      let '(w, ws) := words_aux l' in
      if isalnum c then (c :: w, ws) else ([], cons_word w ws)
  end.

Definition alnum_words (s : string) : list string :=
  let '(w, ws) := words_aux (chars s) in cons_word w ws.

(** Every run of other characters replaced by one underscore; [in_run]
    says that the character before was such a one. *)
Fixpoint squash_go (in_run : bool) (l : list ascii) : list ascii :=
  match l with
  | [] => []
  | c :: l' =>
      if isalnum c then c :: squash_go false l'
      else if in_run then squash_go true l'
      else "_"%char :: squash_go true l'
  end.

(** [l] without the characters satisfying [p] at its end. *)
Fixpoint rstrip_rec (p : ascii → bool) (l : list ascii) : list ascii :=
  match l with
  | [] => []
  | c :: l' => if p c && forallb p l' then [] else c :: rstrip_rec p l'
  end.

Definition starts_sep (l : list ascii) : bool :=
  match l with
  | c :: _ => negb (isalnum c)
  | [] => false
  end.

(** The runs of [l] joined by underscores, as characters. *)
Definition wjoin (l : list ascii) : list ascii :=
  chars (join "_" (cons_word (words_aux l).1 (words_aux l).2)).

(** What [rglob] finds in a directory itself, and below one of its entries. *)
Definition own_py (d : Path) (es : list (string * fsnode)) : list Path :=
  map (λ e, d ++ [e.1]) (filter (λ e, endswith ".py" e.1 = true) es).

Definition below_py (d : Path) (e : string * fsnode) : list Path :=
  if is_dir e.2 then rglob_py_from (d ++ [e.1]) e.2 else [].

(** The files of a bucket as [build_ccg] takes them. *)
Definition read_source (str_of : Path → string) (t : fsnode) (p : Path)
    : result (string * string) :=
  text ← read_text t p; Ok (str_of p, text).

(** What the declarations of one file do to the graph, and the graph and
    the counters the declarations of a bucket give. *)
Definition declare_all (g : DiGraph) (f : string * string) : DiGraph :=
  foldl (λ g c, add_node ("class::" +:+ c) {[ "kind" := "class"; "file" := f.1 ]} g)
    (foldl (λ g x, add_node ("func::" +:+ x) {[ "kind" := "func"; "file" := f.1 ]} g)
       g (funcs_of f.2))
    (clss_of f.2).

Definition declared_graph (files : list (string * string)) : DiGraph :=
  foldl declare_all (Graph [] []) files.

Definition all_funcs (files : list (string * string)) : list string :=
  flat_map (λ f, funcs_of f.2) files.
Definition all_clss (files : list (string * string)) : list string :=
  flat_map (λ f, clss_of f.2) files.

(** The kind a node id spells, and the last file of the bucket declaring
    the node. *)
Definition kind_of (n : string) : string :=
  if String.prefix "func::" n then "func" else "class".

Definition last_declaring (files : list (string * string)) (n : string)
    : option (string * string) :=
  last (filter (λ f, n ∈ declared_in f.2) files).

(** Attribute dicts holding a kind and a file. *)
Definition two_keys (a : gmap string string) : Prop :=
  ∃ k f, a = {[ "kind" := k; "file" := f ]}.

(** The dicts one entry of a directory gives, the lists of children found
    in a dict at any depth, and the paths of the files it holds. *)
Definition walk_item (d : Path) (e : string * fsnode) : list tree_item :=
  if bool_decide (e.1 ∈ IGNORE_DIRS) then []
  else [match e.2 with
        | Dir _ => ItemDir e.1 (file_tree_walk (d ++ [e.1]) e.2)
        | File _ => ItemFile e.1 (PyPath.as_posix (d ++ [e.1]))
        end].

Fixpoint item_lists (it : tree_item) : list (list tree_item) :=
  match it with
  | ItemDir _ cs =>
      cs :: (fix go (l : list tree_item) : list (list tree_item) :=
               match l with
               | [] => []
               | c :: l' => item_lists c ++ go l'
               end) cs
  | ItemFile _ _ => []
  end.

Fixpoint item_paths (it : tree_item) : list string :=
  match it with
  | ItemDir _ cs =>
      (fix go (l : list tree_item) : list string :=
         match l with
         | [] => []
         | c :: l' => item_paths c ++ go l'
         end) cs
  | ItemFile _ path => [path]
  end.

(** The last file of a bucket with a given stem. *)
Definition last_with_stem (files : list Path) (nm : string) : option Path :=
  last (filter (λ f, PyPath.stem f = nm) files).

(** The characters of a dotted module name, as the import patterns take
    them. *)
Definition modchar (c : ascii) : bool :=
  isalnum c || Ascii.eqb c "_" || Ascii.eqb c ".".

(** How many characters satisfying [p] a list starts with. *)
Definition run_len (p : ascii → bool) (l : list ascii) : nat :=
  length l - length (drop_while p l).

(** Texts of white space, and texts that do not go on with a character of
    a module name. *)
Definition spaces (s : string) : Prop := Forall (λ c, isspace c = true) (chars s).
Definition ends_name (rest : string) : Prop :=
  match rest with
  | String c _ => modchar c = false
  | EmptyString => True
  end.

(** * Properties *)

(** ** The patterns *)

(** Every fixed pattern of the program compiles, to the expression used
    for it here. *)
Lemma patterns_compile :
  PyRe.compile heading_pattern = Ok heading_re ∧
  PyRe.compile slug_pattern = Ok slug_re ∧
  PyRe.compile imp_re1_pattern = Ok imp_re1 ∧
  PyRe.compile imp_re2_pattern = Ok imp_re2 ∧
  PyRe.compile require_pattern = Ok require_re ∧
  PyRe.compile import_pattern = Ok import_re ∧
  PyRe.compile funcs_pattern = Ok funcs_re ∧
  PyRe.compile clss_pattern = Ok clss_re.
Proof. split_and!; by vm_compute. Qed.

(** ** Import edges: where an edge comes from *)

Lemma stem_index_from (files : list Path) (m0 : gmap string Path) nm q :
  foldl (λ m p, <[PyPath.stem p := p]> m) m0 files !! nm = Some q →
  (q ∈ files ∧ PyPath.stem q = nm) ∨ m0 !! nm = Some q.
Proof.
  revert m0. induction files as [|p files IH]; intros m0 Hq; simpl in *.
  - by right.
  - destruct (IH _ Hq) as [[Hin Hst]|Hm].
    + left. split; [by right|done].
    + destruct (decide (PyPath.stem p = nm)) as [<-|Hne].
      * rewrite lookup_insert_eq in Hm. injection Hm as <-. left. split; [by left|done].
      * rewrite lookup_insert_ne in Hm by done. by right.
Qed.

Lemma stem_index_lookup (files : list Path) nm q :
  stem_index files !! nm = Some q → q ∈ files ∧ PyPath.stem q = nm.
Proof.
  intros H. destruct (stem_index_from files ∅ nm q H) as [?|Hm]; [done|].
  by rewrite lookup_empty in Hm.
Qed.

Section ImportEdgesFacts.
Context (target : string → option string) (root : fsnode).

Lemma line_edge_elem index src edges line e :
  e ∈ line_edge target index src edges line →
  e ∈ edges ∨
  ∃ nm q, target line = Some nm ∧ index !! nm = Some q ∧
          e = (src, slug_for_mermaid q) ∧ src ≠ slug_for_mermaid q.
Proof.
  unfold line_edge. destruct (target line) as [nm|]; [|by left].
  destruct (index !! nm) as [q|] eqn:Hq; [|by left].
  case_decide as Hne; [|by left].
  rewrite elem_of_union, elem_of_singleton. intros [?| ->]; [by left|].
  right. by exists nm, q.
Qed.

Lemma lines_edges_elem index src lines edges e :
  e ∈ foldl (line_edge target index src) edges lines →
  e ∈ edges ∨
  ∃ line nm q, line ∈ lines ∧ target line = Some nm ∧ index !! nm = Some q ∧
               e = (src, slug_for_mermaid q) ∧ src ≠ slug_for_mermaid q.
Proof.
  revert edges. induction lines as [|l lines IH]; intros edges He; simpl in *.
  - by left.
  - destruct (IH _ He) as [Hin|(line & nm & q & ? & ?)].
    + destruct (line_edge_elem _ _ _ _ _ Hin) as [?|(nm & q & ?)]; [by left|].
      right. exists l, nm, q. split; [by left|done].
    + right. exists line, nm, q. split; [by right|done].
Qed.

Lemma files_edges_elem index ps edges e :
  e ∈ foldl (file_edges target root index) edges ps →
  e ∈ edges ∨
  ∃ p text line nm q,
    p ∈ ps ∧ read_text root p = Ok text ∧ line ∈ splitlines text ∧
    target line = Some nm ∧ index !! nm = Some q ∧
    e = (slug_for_mermaid p, slug_for_mermaid q) ∧
    slug_for_mermaid p ≠ slug_for_mermaid q.
Proof.
  revert edges. induction ps as [|p ps IH]; intros edges He; simpl in *.
  - by left.
  - destruct (IH _ He) as [Hin|(p' & text & line & nm & q & ? & ?)].
    + unfold file_edges in Hin. destruct (read_text root p) as [text|] eqn:Hrd; [|by left].
      destruct (lines_edges_elem _ _ _ _ _ Hin) as [?|(line & nm & q & ? & ?)]; [by left|].
      right. exists p, text, line, nm, q. split; [by left|done].
    + right. exists p', text, line, nm, q. split; [by right|done].
Qed.

Lemma import_edges_elem files e :
  e ∈ import_edges target root files ↔ e ∈ edge_set target root files.
Proof.
  unfold import_edges. rewrite merge_sort_Permutation. apply elem_of_elements.
Qed.

Lemma import_edges_origin files e :
  e ∈ import_edges target root files → edge_origin target root files e.
Proof.
  rewrite import_edges_elem. unfold edge_set. intros He.
  destruct (files_edges_elem _ _ _ _ He)
    as [Hin|(p & text & line & nm & q & Hp & Hrd & Hl & Ht & Hq & -> & Hne)].
  - by apply not_elem_of_empty in Hin.
  - apply stem_index_lookup in Hq as [Hq <-].
    by exists p, q, text, line.
Qed.
End ImportEdgesFacts.

(** ** The code-context graph: what its edges join *)

Lemma foldM_inv {A S} (I : S → Prop) (f : S → A → result S) :
  (∀ s x s', I s → f s x = Ok s' → I s') →
  ∀ l s s', I s → foldM f s l = Ok s' → I s'.
Proof.
  intros Hstep l. induction l as [|x l IH]; intros s s' Hs Hrun; simpl in Hrun.
  - by injection Hrun as <-.
  - destruct (f s x) as [s1|e] eqn:Hf; simpl in Hrun; [|done].
    eapply IH; [|done]. by eapply Hstep.
Qed.

Lemma foldl_inv {A S} (I : S → Prop) (f : S → A → S) :
  (∀ s x, I s → I (f s x)) → ∀ l s, I s → I (foldl f s l).
Proof. intros Hstep l. induction l; simpl; auto. Qed.

Lemma upsert_keys {K} `{EqDecision K} (k k' : K) attrs l :
  k' ∈ (upsert k attrs l).*1 → k' = k ∨ k' ∈ l.*1.
Proof.
  induction l as [|[k0 a] l IH]; simpl.
  - rewrite list_elem_of_singleton. by left.
  - case_decide as Hk; simpl.
    + intros Hin. by right.
    + rewrite !elem_of_cons. intros [->|Hin]; [right; by left|].
      destruct (IH Hin); [by left|right; by right].
Qed.

Section BuildCcgFacts.
Context (calls : string → string → result bool).

Lemma call_edge_proper file text caller g callee g' :
  proper_edges g → call_edge calls file text caller g callee = Ok g' → proper_edges g'.
Proof.
  unfold call_edge. intros Hg. case_decide as Hne.
  - destruct (calls callee text) as [[|]|] eqn:Hc; simpl; intros [= <-]; [|done].
    intros e [->|He]%upsert_keys; [|by apply Hg]. simpl.
    intros Heq. apply Hne. by eapply (inj (String.app "func::")).
  - by intros [= <-].
Qed.

Lemma add_node_edges n a g : g_edges (add_node n a g) = g_edges g.
Proof. done. Qed.

Lemma scan_file_proper st f st' :
  proper_edges st.1 → scan_file calls st f = Ok st' → proper_edges st'.1.
Proof.
  destruct st as [g meta], f as [file text]. unfold scan_file. cbn [fst]. intros Hg.
  set (funcs := funcs_of text). set (clss := clss_of text).
  set (g1 := foldl _ g funcs). set (g2 := foldl _ g1 clss).
  assert (proper_edges g2) as Hg2.
  { subst g2. apply (foldl_inv (λ g, proper_edges g)); [done|].
    subst g1. by apply (foldl_inv (λ g, proper_edges g)). }
  destruct (foldM _ g2 funcs) as [g3|] eqn:Hrun; simpl; [|done].
  intros [= <-]. simpl.
  eapply (foldM_inv proper_edges); [|exact Hg2|exact Hrun].
  intros s caller s' Hs. unfold caller_edges.
  apply (foldM_inv proper_edges); [|done].
  intros ????. by apply call_edge_proper.
Qed.

Lemma build_ccg_with_proper files g meta :
  build_ccg_with calls files = Ok (g, meta) → proper_edges g.
Proof.
  unfold build_ccg_with. intros Hrun.
  apply (foldM_inv (λ st, proper_edges st.1) _ scan_file_proper _ _ _) in Hrun; [done|].
  by intros e ?%elem_of_nil.
Qed.
End BuildCcgFacts.

(** C9. No extractor emits a self-edge: in the sorted edge lists of
    [py_import_edges] and [js_import_edges], and in the edges of a graph
    [build_ccg] returns, the source of an edge is never its destination. *)
Theorem no_self_edges (root : fsnode) (files : list Path) (sources : list (string * string)) :
  Forall (λ e, e.1 ≠ e.2) (py_import_edges root files) ∧
  Forall (λ e, e.1 ≠ e.2) (js_import_edges root files) ∧
  match build_ccg sources with
  | Ok (g, _) => Forall (λ e, e.1.1 ≠ e.1.2) (g_edges g)
  | Raise _ => True
  end.
Proof.
  split_and!.
  - apply Forall_forall. intros e He.
    apply import_edges_origin in He as (p & q & text & line & _ & _ & _ & _ & _ & -> & Hne).
    done.
  - apply Forall_forall. intros e He.
    apply import_edges_origin in He as (p & q & text & line & _ & _ & _ & _ & _ & -> & Hne).
    done.
  - destruct (build_ccg sources) as [[g meta]|] eqn:Hrun; [|done].
    apply build_ccg_with_proper in Hrun. apply Forall_forall. intros e He.
    apply Hrun. by apply list_elem_of_fmap_2.
Qed.



(** ** The tree walk *)

Lemma fsnode_ind (P : fsnode → Prop) :
  (∀ c, P (File c)) →
  (∀ es, Forall (λ e, P e.2) es → P (Dir es)) →
  ∀ t, P t.
Proof.
  intros Hf Hd. fix IH 1. intros [c|es].
  - apply Hf.
  - apply Hd. induction es as [|[nm sub] es IHes].
    + constructor.
    + constructor; [apply IH|apply IHes].
Qed.

Lemma walk_files_from_dir d es :
  walk_files_from d (Dir es) = own_files d es ++ flat_map (descent d) es.
Proof.
  simpl. f_equal. induction es as [|[nm sub] es IH]; [done|].
  simpl. by rewrite IH.
Qed.

(** A path the walk yields below [d] passed only through directories the
    filter kept. *)
Lemma walk_files_from_kept d t p :
  p ∈ walk_files_from d t →
  ∃ dirs nm, p = d ++ dirs ++ [nm] ∧ Forall (λ x, keep_dir x = true) dirs.
Proof.
  revert d. induction t as [c|es IH] using fsnode_ind; intros d Hp.
  - by apply elem_of_nil in Hp.
  - rewrite walk_files_from_dir in Hp. apply elem_of_app in Hp as [Hp|Hp].
    + unfold own_files in Hp. apply list_elem_of_fmap in Hp as ([nm sub] & -> & He).
      exists [], nm. split; [done|constructor].
    + apply list_elem_of_In, in_flat_map in Hp as ([nm sub] & He & Hp).
      apply list_elem_of_In in He, Hp. unfold descent in Hp. simpl in Hp.
      destruct (is_dir sub && keep_dir nm) eqn:Hk; [|by apply elem_of_nil in Hp].
      apply andb_true_iff in Hk as [_ Hk].
      rewrite Forall_forall in IH. destruct (IH _ He _ Hp) as (dirs & nm' & -> & Hdirs).
      exists (nm :: dirs), nm'. split; [by rewrite <- app_assoc|by constructor].
Qed.

Lemma walk_files_kept root p :
  p ∈ walk_files root →
  ∃ dirs nm, p = dirs ++ [nm] ∧ Forall (λ x, keep_dir x = true) dirs.
Proof. apply walk_files_from_kept. Qed.

(** ** The buckets *)

Lemma bucket_add_lookup b p lang :
  bucket_add b p !! lang =
  (λ l, l ++ filter (λ q, classified lang q = true) [p]) <$> b !! lang.
Proof.
  unfold bucket_add, classified. rewrite filter_cons, filter_nil.
  destruct (lang_of p) as [lang'|] eqn:Hl.
  - destruct (decide (lang' = lang)) as [->|Hne].
    + rewrite lookup_alter_eq. rewrite decide_True by (by apply bool_decide_eq_true).
      done.
    + rewrite lookup_alter_ne by done.
      rewrite decide_False by (rewrite bool_decide_eq_true; congruence).
      destruct (b !! lang); simpl; [by rewrite app_nil_r|done].
  - rewrite decide_False by (by rewrite bool_decide_eq_true).
    destruct (b !! lang); simpl; [by rewrite app_nil_r|done].
Qed.

Lemma foldl_bucket_add_lookup ps b lang :
  foldl bucket_add b ps !! lang =
  (λ l, l ++ filter (λ q, classified lang q = true) ps) <$> b !! lang.
Proof.
  revert b. induction ps as [|p ps IH]; intros b; simpl.
  - destruct (b !! lang); simpl; [by rewrite app_nil_r|done].
  - rewrite IH, bucket_add_lookup. destruct (b !! lang) as [l|]; simpl; [|done].
    f_equal. rewrite <- app_assoc. f_equal.
    by rewrite (filter_app _ [p] ps).
Qed.

Lemma empty_buckets_lookup lang l :
  empty_buckets !! lang = Some l → l = [] ∧ lang ∈ LANG_EXTS.*1.
Proof.
  intros H. apply elem_of_list_to_map_2 in H.
  apply list_elem_of_fmap in H as ([lang' exts] & [= -> ->] & Hin). simpl.
  split; [done|]. by apply (list_elem_of_fmap_2 fst) in Hin.
Qed.

Lemma empty_buckets_keys lang :
  lang ∈ LANG_EXTS.*1 → empty_buckets !! lang = Some [].
Proof.
  intros Hin. destruct (empty_buckets !! lang) as [l|] eqn:Hl.
  - by apply empty_buckets_lookup in Hl as [-> _].
  - apply not_elem_of_list_to_map in Hl. exfalso. apply Hl.
    rewrite <- list_fmap_compose. exact Hin.
Qed.

(** A bucket holds, sorted, the walked files its language classifies. *)
Lemma find_by_lang_lookup root lang files :
  find_by_lang root !! lang = Some files →
  lang ∈ LANG_EXTS.*1 ∧
  files = merge_sort PyPath.le (filter (λ q, classified lang q = true) (walk_files root)).
Proof.
  unfold find_by_lang. rewrite lookup_fmap, foldl_bucket_add_lookup.
  destruct (empty_buckets !! lang) as [l|] eqn:Hl; simpl; [|done].
  apply empty_buckets_lookup in Hl as [-> Hin]. by intros [= <-].
Qed.

Lemma find_by_lang_keys root lang :
  lang ∈ LANG_EXTS.*1 →
  find_by_lang root !! lang =
  Some (merge_sort PyPath.le (filter (λ q, classified lang q = true) (walk_files root))).
Proof.
  intros Hin. unfold find_by_lang.
  by rewrite lookup_fmap, foldl_bucket_add_lookup, empty_buckets_keys.
Qed.

Lemma find_by_lang_elem root lang files p :
  find_by_lang root !! lang = Some files →
  p ∈ files ↔ p ∈ walk_files root ∧ lang_of p = Some lang.
Proof.
  intros [_ ->]%find_by_lang_lookup.
  rewrite merge_sort_Permutation, list_elem_of_filter. unfold classified.
  rewrite bool_decide_eq_true. tauto.
Qed.

(** C6. A file lying under a directory whose name is in [IGNORES] or starts
    with a dot, at any depth below the scanned root, is in no language
    bucket. *)
Theorem ignored_dirs_contribute_nothing (root : fsnode) (lang : string)
    (files : list Path) (p : Path) (d : string) :
  find_by_lang root !! lang = Some files →
  d ∈ removelast p →
  d ∈ IGNORES ∨ startswith_char "." d = true →
  p ∉ files.
Proof.
  intros Hb Hd Hign Hp.
  apply (find_by_lang_elem _ _ _ _ Hb) in Hp as [Hp _].
  apply walk_files_kept in Hp as (dirs & nm & -> & Hdirs).
  rewrite removelast_last in Hd.
  rewrite Forall_forall in Hdirs. specialize (Hdirs _ Hd).
  unfold keep_dir in Hdirs. apply andb_true_iff in Hdirs as [Hi Hs].
  apply negb_true_iff in Hi, Hs. apply bool_decide_eq_false in Hi.
  destruct Hign as [?|Hdot]; [done|congruence].
Qed.

Lemma ignored_dirs_contribute_nothing_witness :
  find_by_lang demo_ignored !! "Python" = Some [["src"; "Main.PY"]] ∧
  "node_modules" ∈ removelast ["node_modules"; "lib"; "w.PY"] ∧
  ("node_modules" ∈ IGNORES ∨ startswith_char "." "node_modules" = true) ∧
  ["node_modules"; "lib"; "w.PY"] ∉ [["src"; "Main.PY"]].
Proof.
  assert (find_by_lang demo_ignored !! "Python" = Some [["src"; "Main.PY"]]) as Hb
    by (vm_compute; reflexivity).
  assert ("node_modules" ∈ removelast ["node_modules"; "lib"; "w.PY"]) as Hd
    by (simpl; constructor).
  assert ("node_modules" ∈ IGNORES ∨ startswith_char "." "node_modules" = true) as Hi
    by (left; apply (bool_decide_unpack _); vm_compute; exact I).
  split_and!; [exact Hb|exact Hd|exact Hi|].
  exact (ignored_dirs_contribute_nothing demo_ignored "Python" [["src"; "Main.PY"]]
           ["node_modules"; "lib"; "w.PY"] "node_modules" Hb Hd Hi).
Defined.

(** The extension sets of the table do not overlap, so the first entry
    holding a suffix is the only one. *)
Lemma lang_of_table p lang :
  lang_of p = Some lang ↔
  ∃ exts, (lang, exts) ∈ LANG_EXTS ∧ lower (PyPath.suffix p) ∈ exts.
Proof.
  unfold lang_of. generalize (lower (PyPath.suffix p)). intros s. split.
  - destruct (List.find _ LANG_EXTS) as [[l exts]|] eqn:Hf; simpl; [|done].
    intros [= ->]. apply find_some in Hf as [Hin Hs]. simpl in Hs.
    apply bool_decide_eq_true in Hs. apply list_elem_of_In in Hin. by exists exts.
  - intros (exts & Hin & Hs). unfold LANG_EXTS in Hin.
    repeat (apply elem_of_cons in Hin as [[= -> ->]|Hin];
            [repeat (apply elem_of_cons in Hs as [->|Hs]; [by vm_compute|]);
             by apply elem_of_nil in Hs|]).
    by apply elem_of_nil in Hin.
Qed.

(** C7. Classification partitions the discovered files.  Language [lang]
    classifies [p] exactly when the table gives [lang] an extension equal
    to the lower-cased suffix of [p]; the bucket of [lang] holds, in sorted
    order, exactly the discovered files [lang] classifies, each as often as
    the walk yielded it; so a file of one bucket is in no other bucket, and
    a file no entry matches is in none. *)
Theorem buckets_partition (root : fsnode) (lang : string) (files : list Path) (p : Path) :
  find_by_lang root !! lang = Some files →
  (lang_of p = Some lang ↔
     ∃ exts, (lang, exts) ∈ LANG_EXTS ∧ lower (PyPath.suffix p) ∈ exts) ∧
  files ≡ₚ filter (λ q, classified lang q = true) (walk_files root) ∧
  (p ∈ files ↔ p ∈ walk_files root ∧ lang_of p = Some lang) ∧
  (∀ lang' files', find_by_lang root !! lang' = Some files' →
     p ∈ files → p ∈ files' → lang' = lang) ∧
  (lang_of p = None → p ∉ files).
Proof.
  intros Hb. split_and!.
  - apply lang_of_table.
  - apply find_by_lang_lookup in Hb as [_ ->]. apply merge_sort_Permutation.
  - by apply find_by_lang_elem.
  - intros lang' files' Hb' Hp Hp'.
    apply (find_by_lang_elem _ _ _ _ Hb) in Hp as [_ Hp].
    apply (find_by_lang_elem _ _ _ _ Hb') in Hp' as [_ Hp']. congruence.
  - intros Hnone Hp. apply (find_by_lang_elem _ _ _ _ Hb) in Hp as [_ Hp]. congruence.
Qed.

Lemma buckets_partition_witness :
  find_by_lang demo_ignored !! "Python" = Some [["src"; "Main.PY"]] ∧
  (lang_of ["src"; "Main.PY"] = Some "Python" ↔
     ∃ exts, ("Python", exts) ∈ LANG_EXTS ∧ lower (PyPath.suffix ["src"; "Main.PY"]) ∈ exts) ∧
  [["src"; "Main.PY"]] ≡ₚ
    filter (λ q, classified "Python" q = true) (walk_files demo_ignored) ∧
  (["src"; "Main.PY"] ∈ [["src"; "Main.PY"]] ↔
     ["src"; "Main.PY"] ∈ walk_files demo_ignored ∧
     lang_of ["src"; "Main.PY"] = Some "Python") ∧
  (∀ lang' files', find_by_lang demo_ignored !! lang' = Some files' →
     ["src"; "Main.PY"] ∈ [["src"; "Main.PY"]] → ["src"; "Main.PY"] ∈ files' →
     lang' = "Python") ∧
  (lang_of ["src"; "Main.PY"] = None → ["src"; "Main.PY"] ∉ [["src"; "Main.PY"]]).
Proof.
  assert (find_by_lang demo_ignored !! "Python" = Some [["src"; "Main.PY"]]) as Hb
    by (vm_compute; reflexivity).
  split; [exact Hb|].
  exact (buckets_partition demo_ignored "Python" [["src"; "Main.PY"]] ["src"; "Main.PY"] Hb).
Defined.

(** ** What the heading pattern removes *)

(** A greedy repetition followed by something that cannot fail takes the
    longest run. *)
Lemma rep_greedy_longest {R} cs (k : PyRe.mstate → option R) caps :
  (∀ st, is_Some (k st)) →
  ∀ rest prev,
    PyRe.rep true 0 cs prev rest caps k =
    k (PyRe.MState (prev_after (PyRe.cset_mem cs) prev rest)
         (drop_while (PyRe.cset_mem cs) rest) caps).
Proof.
  intros Hk rest. induction rest as [|c rest IH]; intros prev; [reflexivity|].
  cbn [PyRe.rep prev_after drop_while].
  destruct (PyRe.cset_mem cs c); [|done].
  cbn [pred]. rewrite IH.
  by destruct (Hk (PyRe.MState (prev_after (PyRe.cset_mem cs) (Some c) rest)
                     (drop_while (PyRe.cset_mem cs) rest) caps)) as [? ->].
Qed.

Lemma drop_while_suffix p (l : list ascii) :
  ∃ n, (n ≤ length l)%nat ∧ drop_while p l = drop n l.
Proof.
  induction l as [|c l (n & Hn & IH)]; [by exists 0|]. simpl.
  destruct (p c); [|by exists 0; split; [lia|]].
  exists (S n). split; [lia|done].
Qed.

Lemma chars_str l : chars (str l) = l.
Proof. apply list_ascii_of_string_of_list_ascii. Qed.
Lemma str_chars s : str (chars s) = s.
Proof. apply string_of_list_ascii_of_string. Qed.



Lemma space_mem c : PyRe.cset_mem (PyRe.CSet false [PyRe.CSpace]) c = isspace c.
Proof.
  unfold PyRe.cset_mem. cbn [PyRe.cs_neg PyRe.cs_items existsb PyRe.citem_mem xorb].
  by rewrite orb_false_r.
Qed.

Lemma drop_back_to_suffix (l r : list ascii) :
  (∃ n, (n ≤ length l)%nat ∧ r = drop n l) → drop (length l - length r) l = r.
Proof.
  intros (n & Hn & ->). rewrite length_drop. f_equal. lia.
Qed.

Lemma drop_while_ext p q (l : list ascii) :
  (∀ c, p c = q c) → drop_while p l = drop_while q l.
Proof. intros H. induction l as [|c l IH]; simpl; [done|]. by rewrite H, IH. Qed.



Example strip_heading_demo :
  strip_heading "##  Title # x" = "Title # x" ∧ strip_heading "no # heading" = "no # heading".
Proof. split; reflexivity. Qed.

(** ** The README line *)



Example read_readme_demo : read_readme demo_readme = Ok (Some "My project").
Proof. vm_compute. reflexivity. Qed.

(** The search stops at the first candidate with a line: what comes after
    it, readable or not, plays no part.  A first line of hashes only gives
    the empty string. *)
Example read_readme_stops_early :
  read_readme (Dir [("README.md", File (Some "# T")); ("README.rst", File None)])
    = Ok (Some "T") ∧
  read_readme (Dir [("README.md", File (Some "###")); ("README", File (Some "text"))])
    = Ok (Some "").
Proof. split; vm_compute; reflexivity. Qed.


(** ** The rendered lines *)

Lemma mapM_summary_line buckets langs :
  Forall (λ lang, is_Some (buckets !! lang)) langs →
  mapM (summary_line buckets) langs = Ok (map (count_line buckets) langs).
Proof.
  induction 1 as [|lang langs [files Hl] _ IH]; [done|].
  cbn [mapM]. rewrite IH. unfold summary_line, getitem. rewrite Hl.
  cbn [mbind mret result_bind result_ret map]. unfold count_line at 2, bucket_of.
  by rewrite Hl.
Qed.

Lemma mapM_listing_section buckets langs :
  Forall (λ lang, is_Some (buckets !! lang)) langs →
  mapM (listing_section buckets) langs = Ok (map (listing_of buckets) langs).
Proof.
  induction 1 as [|lang langs [files Hl] _ IH]; [done|].
  cbn [mapM]. rewrite IH. unfold listing_section, getitem. rewrite Hl.
  cbn [mbind mret result_bind result_ret map]. unfold listing_of at 2, bucket_of.
  by rewrite Hl.
Qed.

Lemma markdown_lines_total resolved buckets readme_line py_edges js_edges :
  Forall (λ lang, is_Some (buckets !! lang)) (LANG_EXTS.*1) →
  markdown_lines resolved buckets readme_line py_edges js_edges =
  Ok (preamble resolved ++ map (count_line buckets) (LANG_EXTS.*1) ++ [""] ++
      readme_section readme_line ++
      graph_section py_heading "Python" py_edges ++
      graph_section js_heading "JS/TS" js_edges ++
      concat (map (listing_of buckets) (LANG_EXTS.*1))).
Proof.
  intros Hk. unfold markdown_lines.
  by rewrite mapM_summary_line, mapM_listing_section.
Qed.

Lemma find_by_lang_total root :
  Forall (λ lang, is_Some (find_by_lang root !! lang)) (LANG_EXTS.*1).
Proof. apply Forall_forall. intros lang Hin. rewrite find_by_lang_keys; eauto. Qed.

Lemma main_lines_total root resolved readme_line :
  read_readme root = Ok readme_line →
  main_lines root resolved =
  Ok (preamble resolved ++ map (count_line (find_by_lang root)) (LANG_EXTS.*1) ++ [""] ++
      readme_section readme_line ++
      graph_section py_heading "Python" (main_py_edges root) ++
      graph_section js_heading "JS/TS" (main_js_edges root) ++
      concat (map (listing_of (find_by_lang root)) (LANG_EXTS.*1))).
Proof.
  intros Hr. unfold main_lines, main_scan. rewrite Hr. cbn [mbind result_bind].
  unfold getitem, main_py_edges, main_js_edges, bucket_of.
  rewrite !find_by_lang_keys by (apply (bool_decide_unpack _); by vm_compute).
  cbn [default]. apply markdown_lines_total, find_by_lang_total.
Qed.

Lemma lacks_not_elem k x (l : list string) :
  String.prefix k x = true → Forall (lacks k) l → x ∉ l.
Proof.
  intros Hx Hl Hin. rewrite Forall_forall in Hl. specialize (Hl _ Hin).
  unfold lacks in Hl. congruence.
Qed.

Ltac starts_otherwise := unfold lacks; vm_compute; reflexivity.

Lemma file_lines_lack k files :
  k ∈ [placeholder_head; py_head; js_head] → Forall (lacks k) (file_lines files).
Proof.
  intros Hk. destruct files as [|p ps].
  - repeat constructor.
    repeat (apply elem_of_cons in Hk as [->|Hk]; [starts_otherwise|]).
    by apply elem_of_nil in Hk.
  - unfold file_lines. apply Forall_fmap, Forall_forall. intros q _.
    repeat (apply elem_of_cons in Hk as [->|Hk]; [starts_otherwise|]).
    by apply elem_of_nil in Hk.
Qed.

Lemma listing_lacks k buckets :
  k ∈ [placeholder_head; py_head; js_head] →
  Forall (lacks k) (concat (map (listing_of buckets) (LANG_EXTS.*1))).
Proof.
  intros Hk. apply Forall_concat, Forall_fmap, Forall_forall. intros lang Hl.
  unfold listing_of. apply Forall_app. split; [|apply Forall_app; split].
  - constructor; [|constructor]. cbn in Hl.
    repeat (apply elem_of_cons in Hl as [->|Hl];
            [repeat (apply elem_of_cons in Hk as [->|Hk]; [starts_otherwise|]);
             by apply elem_of_nil in Hk|]).
    by apply elem_of_nil in Hl.
  - by apply file_lines_lack.
  - repeat constructor.
    repeat (apply elem_of_cons in Hk as [->|Hk]; [starts_otherwise|]).
    by apply elem_of_nil in Hk.
Qed.

Lemma fixed_lines_lack k resolved buckets readme_line :
  k ∈ [placeholder_head; py_head; js_head] →
  Forall (lacks k)
    (preamble resolved ++ map (count_line buckets) (LANG_EXTS.*1) ++ [""] ++
     readme_section readme_line).
Proof.
  intros Hk. repeat (apply Forall_app; split).
  - repeat constructor;
      repeat (apply elem_of_cons in Hk as [->|Hk]; [starts_otherwise|]);
      by apply elem_of_nil in Hk.
  - apply Forall_fmap, Forall_forall. intros lang _.
    repeat (apply elem_of_cons in Hk as [->|Hk]; [starts_otherwise|]).
    by apply elem_of_nil in Hk.
  - repeat constructor.
    repeat (apply elem_of_cons in Hk as [->|Hk]; [starts_otherwise|]).
    by apply elem_of_nil in Hk.
  - unfold readme_section. destruct readme_line as [line|]; [|constructor].
    destruct (String.eqb line ""); [constructor|].
    repeat constructor;
      repeat (apply elem_of_cons in Hk as [->|Hk]; [starts_otherwise|]);
      by apply elem_of_nil in Hk.
Qed.

(** A rendered graph with at least one edge starts its first edge line
    where the placeholder has its comment. *)
Lemma mermaid_graph_lacks k e edges title :
  k ∈ [placeholder_head; py_head; js_head] →
  lacks k (mermaid_graph (e :: edges) title).
Proof.
  intros Hk. unfold mermaid_graph. cbn [map app join].
  destruct (map edge_line edges ++ ["```"; ""]);
    repeat (apply elem_of_cons in Hk as [->|Hk]; [starts_otherwise|]);
  by apply elem_of_nil in Hk.
Qed.

Lemma graph_section_lacks k heading title edges :
  k ∈ [placeholder_head; py_head; js_head] →
  String.prefix k (heading +:+ LF) = false →
  Forall (lacks k) (graph_section heading title edges).
Proof.
  intros Hk Hh. destruct edges as [|e edges]; [constructor|].
  unfold graph_section. constructor; [done|]. constructor; [|constructor].
  by apply mermaid_graph_lacks.
Qed.

Lemma edges_if_any_id target root files :
  edges_if_any (import_edges target root) files = import_edges target root files.
Proof. by destruct files. Qed.

Lemma main_py_edges_eq root :
  main_py_edges root = py_import_edges root (bucket_of (find_by_lang root) "Python").
Proof. apply edges_if_any_id. Qed.

Lemma main_js_edges_eq root :
  main_js_edges root =
  js_import_edges root (bucket_of (find_by_lang root) "JavaScript/TypeScript").
Proof. apply edges_if_any_id. Qed.

Lemma graph_section_heading heading title edges :
  heading +:+ LF ∈ graph_section heading title edges ↔ edges ≠ [].
Proof.
  destruct edges as [|e edges]; simpl.
  - split; [by intros ?%elem_of_nil|done].
  - split; [done|]. intros _. by left.
Qed.

(** ** The README section of the report *)














(** ** The diagram sections of the report *)

(** Without classified files every bucket is empty. *)
Lemma no_sources_buckets root lang :
  Forall (λ p, lang_of p = None) (walk_files root) →
  lang ∈ LANG_EXTS.*1 →
  bucket_of (find_by_lang root) lang = [].
Proof.
  intros Hnone Hin. unfold bucket_of. rewrite find_by_lang_keys by done. simpl.
  replace (filter _ (walk_files root)) with (@nil Path); [done|].
  symmetry. induction Hnone as [|p ps Hp _ IH]; [done|].
  rewrite filter_cons, decide_False; [done|].
  unfold classified. rewrite bool_decide_eq_true. congruence.
Qed.

(** C3, as amended.  When reading the README does not raise, [main] renders
    the artifact, and in its lines: the diagram section of the Python
    family, and that of the JS/TS family, is present exactly when the
    family produced at least one edge, and is then followed by the diagram
    of its edges; the placeholder block of [mermaid_graph] for an empty edge
    list is not a line of the artifact, whatever its title; and for a root
    without source files the artifact consists of the title, the scanned
    root, a summary of zero counts, the README line if any, and the file
    section of every language marked [_None_], with no diagram section. *)
Theorem diagram_sections (root : fsnode) (resolved : string) (readme_line : option string) :
  read_readme root = Ok readme_line →
  ∃ lines,
    main_lines root resolved = Ok lines ∧
    (py_heading +:+ LF ∈ lines ↔
       py_import_edges root (bucket_of (find_by_lang root) "Python") ≠ []) ∧
    (js_heading +:+ LF ∈ lines ↔
       js_import_edges root (bucket_of (find_by_lang root) "JavaScript/TypeScript") ≠ []) ∧
    (py_heading +:+ LF ∈ lines →
       mermaid_graph (py_import_edges root (bucket_of (find_by_lang root) "Python"))
         "Python" ∈ lines) ∧
    (js_heading +:+ LF ∈ lines →
       mermaid_graph
         (js_import_edges root (bucket_of (find_by_lang root) "JavaScript/TypeScript"))
         "JS/TS" ∈ lines) ∧
    (∀ title, mermaid_graph [] title ∉ lines) ∧
    (Forall (λ p, lang_of p = None) (walk_files root) →
       lines = preamble resolved ++
               map (λ lang, "- " +:+ lang +:+ ": 0") (LANG_EXTS.*1) ++ [""] ++
               readme_section readme_line ++
               concat (map none_section (LANG_EXTS.*1))).
Proof.
  intros Hr. eexists. split; [by apply main_lines_total|].
  rewrite <- main_py_edges_eq, <- main_js_edges_eq.
  set (fixed := preamble resolved ++ map (count_line (find_by_lang root)) (LANG_EXTS.*1)
                ++ [""] ++ readme_section readme_line).
  set (listing := concat (map (listing_of (find_by_lang root)) (LANG_EXTS.*1))).
  assert (∀ k, k ∈ [placeholder_head; py_head; js_head] → Forall (lacks k) fixed)
    as Hfixed by (intros; by apply fixed_lines_lack).
  assert (∀ k, k ∈ [placeholder_head; py_head; js_head] → Forall (lacks k) listing)
    as Hlisting by (intros; by apply listing_lacks).
  assert (∀ py js : list string,
            preamble resolved ++ map (count_line (find_by_lang root)) (LANG_EXTS.*1) ++
            [""] ++ readme_section readme_line ++ py ++ js ++ listing
            = fixed ++ py ++ js ++ listing) as Hshape.
  { intros. subst fixed. by rewrite <- !app_assoc. }
  rewrite Hshape. clear Hshape.
  assert (py_head ∈ [placeholder_head; py_head; js_head]) as Kpy by (right; left).
  assert (js_head ∈ [placeholder_head; py_head; js_head]) as Kjs by (right; right; left).
  assert (placeholder_head ∈ [placeholder_head; py_head; js_head]) as Kph by left.
  assert (py_heading +:+ LF ∈ fixed ++ graph_section py_heading "Python" (main_py_edges root)
            ++ graph_section js_heading "JS/TS" (main_js_edges root) ++ listing
          ↔ main_py_edges root ≠ []) as Hpy.
  { rewrite <- (graph_section_heading py_heading "Python"). rewrite !elem_of_app.
    split; [|tauto]. intros [H|[H|[H|H]]]; [|done| |]; exfalso; revert H.
    - apply (lacks_not_elem py_head); [by vm_compute|by apply Hfixed].
    - apply (lacks_not_elem py_head); [by vm_compute|].
      apply graph_section_lacks; [done|by vm_compute].
    - apply (lacks_not_elem py_head); [by vm_compute|by apply Hlisting]. }
  assert (js_heading +:+ LF ∈ fixed ++ graph_section py_heading "Python" (main_py_edges root)
            ++ graph_section js_heading "JS/TS" (main_js_edges root) ++ listing
          ↔ main_js_edges root ≠ []) as Hjs.
  { rewrite <- (graph_section_heading js_heading "JS/TS"). rewrite !elem_of_app.
    split; [|tauto]. intros [H|[H|[H|H]]]; [| |done|]; exfalso; revert H.
    - apply (lacks_not_elem js_head); [by vm_compute|by apply Hfixed].
    - apply (lacks_not_elem js_head); [by vm_compute|].
      apply graph_section_lacks; [done|by vm_compute].
    - apply (lacks_not_elem js_head); [by vm_compute|by apply Hlisting]. }
  split_and!.
  - exact Hpy.
  - exact Hjs.
  - intros H%Hpy. rewrite !elem_of_app. right; left.
    destruct (main_py_edges root); [done|]. right; left.
  - intros H%Hjs. rewrite !elem_of_app. right; right; left.
    destruct (main_js_edges root); [done|]. right; left.
  - intros title. apply (lacks_not_elem placeholder_head); [by vm_compute|].
    apply Forall_app; split; [by apply Hfixed|].
    apply Forall_app; split; [apply graph_section_lacks; [done|by vm_compute]|].
    apply Forall_app; split; [apply graph_section_lacks; [done|by vm_compute]|].
    by apply Hlisting.
  - intros Hnone.
    assert (main_py_edges root = []) as ->.
    { unfold main_py_edges.
      rewrite no_sources_buckets; [done|done|]. apply (bool_decide_unpack _). by vm_compute. }
    assert (main_js_edges root = []) as ->.
    { unfold main_js_edges.
      rewrite no_sources_buckets; [done|done|]. apply (bool_decide_unpack _). by vm_compute. }
    assert (map (count_line (find_by_lang root)) (LANG_EXTS.*1)
            = map (λ lang, "- " +:+ lang +:+ ": 0") (LANG_EXTS.*1)) as Hcount.
    { apply list_fmap_ext. intros _ lang Hl%list_elem_of_lookup_2.
      unfold count_line. by rewrite no_sources_buckets. }
    assert (map (listing_of (find_by_lang root)) (LANG_EXTS.*1)
            = map none_section (LANG_EXTS.*1)) as Hlist.
    { apply list_fmap_ext. intros _ lang Hl%list_elem_of_lookup_2.
      unfold listing_of, none_section. by rewrite no_sources_buckets. }
    subst fixed listing. rewrite Hcount, Hlist. cbn [graph_section].
    by rewrite <- !app_assoc.
Qed.

Lemma diagram_sections_witness :
  read_readme demo_root = Ok None ∧
  ∃ lines,
    main_lines demo_root "/srv/demo" = Ok lines ∧
    (py_heading +:+ LF ∈ lines ↔
       py_import_edges demo_root (bucket_of (find_by_lang demo_root) "Python") ≠ []) ∧
    (js_heading +:+ LF ∈ lines ↔
       js_import_edges demo_root
         (bucket_of (find_by_lang demo_root) "JavaScript/TypeScript") ≠ []) ∧
    (py_heading +:+ LF ∈ lines →
       mermaid_graph (py_import_edges demo_root (bucket_of (find_by_lang demo_root) "Python"))
         "Python" ∈ lines) ∧
    (js_heading +:+ LF ∈ lines →
       mermaid_graph
         (js_import_edges demo_root
            (bucket_of (find_by_lang demo_root) "JavaScript/TypeScript"))
         "JS/TS" ∈ lines) ∧
    (∀ title, mermaid_graph [] title ∉ lines) ∧
    (Forall (λ p, lang_of p = None) (walk_files demo_root) →
       lines = preamble "/srv/demo" ++
               map (λ lang, "- " +:+ lang +:+ ": 0") (LANG_EXTS.*1) ++ [""] ++
               readme_section None ++
               concat (map none_section (LANG_EXTS.*1))).
Proof.
  assert (read_readme demo_root = Ok None) as Hr by (vm_compute; reflexivity).
  split; [exact Hr|]. exact (diagram_sections demo_root "/srv/demo" None Hr).
Defined.

(** Against C3 as stated: the Python family of this root produced no edge,
    and no line of the artifact holds a placeholder or a diagram heading. *)
Lemma no_placeholder_rendered :
  py_import_edges demo_no_edges (bucket_of (find_by_lang demo_no_edges) "Python") = [] ∧
  ∃ lines,
    main_lines demo_no_edges "/srv/demo" = Ok lines ∧
    Forall (λ l, contains "No edges detected" l = false) lines ∧
    Forall (λ l, contains "import graph" l = false) lines ∧
    Forall (λ l, contains "mermaid" l = false) lines.
Proof.
  split; [by vm_compute|].
  eexists. split; [vm_compute; reflexivity|].
  split_and!; vm_compute; repeat constructor.
Qed.

(** ** The code-context graph: nodes, and the pairs the call pass tests *)

Lemma upsert_keys_eq {K} `{EqDecision K} (k : K) attrs l :
  (upsert k attrs l).*1 = if decide (k ∈ l.*1) then l.*1 else l.*1 ++ [k].
Proof.
  induction l as [|[k0 a] l IH].
  - cbn [upsert fmap list_fmap fst]. case_decide as Hk; [by apply elem_of_nil in Hk|done].
  - cbn [upsert]. destruct (decide (k = k0)) as [->|Hne]; cbn [fmap list_fmap fst].
    + clear IH. case_decide as Hk; [done|]. exfalso. apply Hk. by left.
    + fold (fmap (M:=list) (@fst K (gmap string string))). rewrite IH.
      change (fst <$> l) with (l.*1).
      destruct (decide (k ∈ l.*1)) as [Hin|Hout]; case_decide as Hk; try done.
      * exfalso. apply Hk. by right.
      * by apply elem_of_cons in Hk as [?|?].
Qed.

Lemma upsert_keys_NoDup {K} `{EqDecision K} (k : K) attrs l :
  NoDup l.*1 → NoDup (upsert k attrs l).*1.
Proof.
  intros Hl. rewrite upsert_keys_eq. case_decide as Hk; [done|].
  apply NoDup_app. split_and!; [done| |apply NoDup_singleton].
  intros x Hx ->%list_elem_of_singleton. done.
Qed.

Lemma upsert_keys_elem {K} `{EqDecision K} (k k' : K) attrs l :
  k' ∈ (upsert k attrs l).*1 ↔ k' = k ∨ k' ∈ l.*1.
Proof.
  rewrite upsert_keys_eq. case_decide as Hk.
  - split; [by right|]. by intros [->|?].
  - rewrite elem_of_app, list_elem_of_singleton. tauto.
Qed.

Lemma add_nodes_spec (mk : string → string) attrs names g :
  let g' := foldl (λ g x, add_node (mk x) attrs g) g names in
  g_edges g' = g_edges g ∧
  (NoDup (g_nodes g).*1 → NoDup (g_nodes g').*1) ∧
  (∀ n, n ∈ (g_nodes g').*1 ↔ n ∈ (g_nodes g).*1 ∨ n ∈ map mk names).
Proof.
  revert g. induction names as [|x names IH]; intros g; simpl.
  - split_and!; [done|done|]. intros n. rewrite elem_of_nil. tauto.
  - destruct (IH (add_node (mk x) attrs g)) as (He & Hnd & Hn). simpl in *.
    split_and!.
    + by rewrite He.
    + intros Hg. by apply Hnd, upsert_keys_NoDup.
    + intros n. rewrite Hn, upsert_keys_elem, elem_of_cons. tauto.
Qed.

Section CallPass.
Context (calls : string → string → result bool).

(** Whatever the test of a call answers, the edges of the graph join
    nodes of the graph. *)
Lemma add_node_closed n attrs g : closed_graph g → closed_graph (add_node n attrs g).
Proof.
  intros Hg e He. destruct (Hg e He) as [H1 H2]. simpl.
  rewrite !upsert_keys_elem. tauto.
Qed.

Lemma add_edge_closed u v attrs g : closed_graph g → closed_graph (add_edge u v attrs g).
Proof.
  intros Hg e He. simpl in *. rewrite !upsert_keys_elem.
  apply upsert_keys_elem in He as [->|He]; [simpl; tauto|].
  destruct (Hg e He). tauto.
Qed.

Lemma build_ccg_with_closed files g meta :
  build_ccg_with calls files = Ok (g, meta) → closed_graph g.
Proof.
  unfold build_ccg_with. intros Hrun.
  apply (foldM_inv (λ st, closed_graph st.1)) in Hrun; [done| |by intros e ?%elem_of_nil].
  intros [g0 meta0] [file text] st' Hg0. unfold scan_file. cbn [fst] in *.
  set (g1 := foldl _ g0 (funcs_of text)). set (g2 := foldl _ g1 (clss_of text)).
  assert (closed_graph g2) as Hg2.
  { subst g2. apply (foldl_inv closed_graph); [intros; by apply add_node_closed|].
    subst g1. apply (foldl_inv closed_graph); [intros; by apply add_node_closed|done]. }
  destruct (foldM _ g2 (funcs_of text)) as [g3|] eqn:Hedges; [|done].
  intros [= <-]. cbn [fst].
  eapply (foldM_inv closed_graph); [|exact Hg2|exact Hedges].
  intros s caller s' Hs. apply (foldM_inv closed_graph); [|done].
  intros s0 callee s1 Hs0. unfold call_edge. case_decide; [|by intros [= <-]].
  destruct (calls callee text) as [[|]|]; intros [= <-]; [by apply add_edge_closed|done].
Qed.

Lemma foldM_inv_elem {A S} (I : S → Prop) (f : S → A → result S) l :
  (∀ s x s', x ∈ l → I s → f s x = Ok s' → I s') →
  ∀ s s', I s → foldM f s l = Ok s' → I s'.
Proof.
  induction l as [|x l IH]; intros Hstep s s' Hs Hrun; simpl in Hrun.
  - by injection Hrun as <-.
  - destruct (f s x) as [s1|e] eqn:Hf; simpl in Hrun; [|done].
    eapply IH; [|eapply Hstep; [by left|done|done]|done].
    intros s0 y s2 Hy. apply Hstep. by right.
Qed.

(** Whatever the test of a call answers, the pairs it is asked about are
    pairs of different function names of the file being scanned. *)
Lemma call_edges_within_file files g meta :
  build_ccg_with calls files = Ok (g, meta) → edges_within_files files g.
Proof.
  unfold build_ccg_with. intros Hrun.
  apply (foldM_inv_elem (λ st, edges_within_files files st.1)) in Hrun;
    [done| |by intros e ?%elem_of_nil].
  intros [g0 meta0] [file text] st' Hfile Hg0. unfold scan_file. cbn [fst] in *.
  set (g1 := foldl _ g0 (funcs_of text)). set (g2 := foldl _ g1 (clss_of text)).
  assert (edges_within_files files g2) as Hg2.
  { subst g2. apply (foldl_inv (edges_within_files files)); [done|].
    subst g1. by apply (foldl_inv (edges_within_files files)). }
  destruct (foldM _ g2 (funcs_of text)) as [g3|] eqn:Hedges; [|done].
  intros [= <-]. cbn [fst].
  eapply (foldM_inv_elem (edges_within_files files)); [|exact Hg2|exact Hedges].
  intros s caller s' Hcaller Hs.
  apply (foldM_inv_elem (edges_within_files files)); [|done].
  intros s0 callee s1 Hcallee Hs0. unfold call_edge. case_decide as Hne; [|by intros [= <-]].
  destruct (calls callee text) as [[|]|]; intros [= <-]; [|done].
  intros e [->|He]%upsert_keys_elem; [|by apply Hs0].
  by exists file, text, caller, callee.
Qed.

Lemma call_edges_same file text caller g callees :
  (∀ callee, callee ∈ callees → caller = callee) →
  foldM (call_edge calls file text caller) g callees = Ok g.
Proof.
  induction callees as [|callee callees IH]; intros Hsame; [done|].
  cbn [foldM].
  assert (call_edge calls file text caller g callee = Ok g) as ->.
  { unfold call_edge. case_decide as Hne; [|done]. exfalso. apply Hne, Hsame. by left. }
  cbn [mbind result_bind]. apply IH. intros c Hc. apply Hsame. by right.
Qed.

Lemma caller_edges_same file text funcs g callers :
  (∀ a b, a ∈ callers → b ∈ funcs → a = b) →
  foldM (caller_edges calls file text funcs) g callers = Ok g.
Proof.
  induction callers as [|caller callers IH]; intros Hsame; [done|].
  cbn [foldM].
  assert (caller_edges calls file text funcs g caller = Ok g) as ->.
  { unfold caller_edges. apply call_edges_same. intros callee Hc.
    apply Hsame; [by left|done]. }
  cbn [mbind result_bind]. apply IH. intros a b Ha. apply Hsame. by right.
Qed.

(** On a file declaring one function name, the scan never reaches the test
    of a call: it adds the declared nodes and no edge. *)
Lemma scan_file_one_function file text g meta :
  (∀ a b, a ∈ funcs_of text → b ∈ funcs_of text → a = b) →
  ∃ g' meta',
    scan_file calls (g, meta) (file, text) = Ok (g', meta') ∧
    g_edges g' = g_edges g ∧
    (NoDup (g_nodes g).*1 → NoDup (g_nodes g').*1) ∧
    (∀ n, n ∈ (g_nodes g').*1 ↔ n ∈ (g_nodes g).*1 ∨ n ∈ declared_in text).
Proof.
  intros Hf. unfold scan_file.
  destruct (add_nodes_spec (String.app "func::") {[ "kind" := "func"; "file" := file ]}
              (funcs_of text) g) as (He1 & Hnd1 & Hn1).
  set (g1 := foldl _ g (funcs_of text)) in *.
  destruct (add_nodes_spec (String.app "class::") {[ "kind" := "class"; "file" := file ]}
              (clss_of text) g1) as (He2 & Hnd2 & Hn2).
  set (g2 := foldl _ g1 (clss_of text)) in *.
  rewrite caller_edges_same by done. cbn [mbind result_bind].
  eexists _, _. split_and!; [done| | |].
  - by rewrite He2, He1.
  - intros Hg. by apply Hnd2, Hnd1.
  - intros n. rewrite Hn2, Hn1. unfold declared_in. rewrite !elem_of_app. tauto.
Qed.

Lemma build_from_one_function_each files g meta :
  one_function_each files →
  ∃ g' meta',
    foldM (scan_file calls) (g, meta) files = Ok (g', meta') ∧
    g_edges g' = g_edges g ∧
    (NoDup (g_nodes g).*1 → NoDup (g_nodes g').*1) ∧
    (∀ n, n ∈ (g_nodes g').*1 ↔ n ∈ (g_nodes g).*1 ∨ n ∈ declared files).
Proof.
  revert g meta. induction files as [|[file text] files IH]; intros g meta Hone.
  - exists g, meta. split_and!; [done|done|done|]. intros n. simpl. rewrite elem_of_nil. tauto.
  - apply Forall_cons in Hone as [Hf Hone]. simpl in Hf.
    destruct (scan_file_one_function file text g meta Hf)
      as (g2 & meta2 & Hstep & He2 & Hnd2 & Hn2).
    destruct (IH g2 meta2 Hone) as (g' & meta' & Hrun & He & Hnd & Hn).
    exists g', meta'. split_and!.
    + cbn [foldM]. rewrite Hstep. exact Hrun.
    + by rewrite He, He2.
    + intros Hg. by apply Hnd, Hnd2.
    + intros n. rewrite Hn, Hn2. unfold declared. cbn [flat_map snd].
      rewrite elem_of_app. tauto.
Qed.
End CallPass.

(** C1, as amended.  The call pass only tests pairs of different function
    names found in the same file.  So for every bucket in which no file
    declares two different function names, such as the one of [a.py] with
    [def f(): pass] and [b.py] with [g] calling [f], [build_ccg] returns a
    graph whose nodes are exactly the declared functions and classes, each
    once, and which has no edge. *)
Theorem build_ccg_one_function_each (files : list (string * string)) :
  one_function_each files →
  ∃ g meta,
    build_ccg files = Ok (g, meta) ∧
    NoDup (g_nodes g).*1 ∧
    (∀ n, n ∈ (g_nodes g).*1 ↔ n ∈ declared files) ∧
    g_edges g = [].
Proof.
  intros Hone.
  destruct (build_from_one_function_each
              (λ callee text, re_search (call_pattern callee) text)
              files (Graph [] []) (MkMeta 0 0 0) Hone)
    as (g & meta & Hrun & He & Hnd & Hn).
  exists g, meta. split_and!; [exact Hrun|apply Hnd; constructor| |exact He].
  intros n. rewrite Hn. simpl. rewrite elem_of_nil. tauto.
Qed.

Lemma build_ccg_one_function_each_witness :
  one_function_each demo_calls ∧
  ∃ g meta,
    build_ccg demo_calls = Ok (g, meta) ∧
    NoDup (g_nodes g).*1 ∧
    (∀ n, n ∈ (g_nodes g).*1 ↔ n ∈ declared demo_calls) ∧
    g_edges g = [].
Proof.
  assert (one_function_each demo_calls) as Hone.
  { assert (funcs_of "def f(): pass" = ["f"]) as Hf by (vm_compute; reflexivity).
    assert (funcs_of ("def g():" +:+ LF +:+ "    f()") = ["g"]) as Hg
      by (vm_compute; reflexivity).
    repeat constructor; cbn [snd]; intros a b Ha Hb.
    - rewrite Hf in Ha, Hb. apply list_elem_of_singleton in Ha, Hb. congruence.
    - rewrite Hg in Ha, Hb. apply list_elem_of_singleton in Ha, Hb. congruence. }
  split; [exact Hone|]. exact (build_ccg_one_function_each demo_calls Hone).
Defined.

(** Against C1 as stated: on the bucket of the claim, in either order of
    the two files, the graph has the nodes [f] and [g] and no edge at all,
    so none from [g] to [f], although [b.py] calls [f]. *)
Lemma build_ccg_demo_no_edge :
  (∃ g meta,
     build_ccg demo_calls = Ok (g, meta) ∧
     (g_nodes g).*1 = ["func::f"; "func::g"] ∧
     g_edges g = [] ∧ ("func::g", "func::f") ∉ (g_edges g).*1) ∧
  (∃ g meta,
     build_ccg (reverse demo_calls) = Ok (g, meta) ∧
     (g_nodes g).*1 = ["func::g"; "func::f"] ∧
     g_edges g = [] ∧ ("func::g", "func::f") ∉ (g_edges g).*1).
Proof.
  split; eexists _, _; (split; [vm_compute; reflexivity|]);
    (split_and!; [done|done|by intros ?%elem_of_nil]).
Qed.

(** With a test that works (the pattern with single backslashes), pairs are
    found inside one file and still not across two. *)
Example pairs_are_per_file :
  let calls := λ callee text, re_search ("\b" +:+ callee +:+ "\s*\(") text in
  (∃ g meta, build_ccg_with calls demo_calls_one_file = Ok (g, meta) ∧
             (g_edges g).*1 = [("func::f", "func::g"); ("func::g", "func::f")]) ∧
  (∃ g meta, build_ccg_with calls demo_calls = Ok (g, meta) ∧ g_edges g = []).
Proof. split; eexists _, _; (split; [vm_compute; reflexivity|done]). Qed.

(** Where a file declares two functions the pair is tested, and the test
    raises: the pattern of [call_pattern] does not compile. *)
Example call_pattern_does_not_compile :
  PyRe.compile (call_pattern "f") = Raise ReError ∧
  build_ccg demo_calls_one_file = Raise ReError.
Proof. split; by vm_compute. Qed.

(** ** The names the declaration pattern captures, and the call pattern *)

Section Soundness.
Context {R : Type} (multiline : bool).

Lemma rep_word greedy cs (k : PyRe.mstate → option R) caps x :
  (∀ c, PyRe.cset_mem cs c = true → isword c = true) →
  ∀ rest min prev,
    PyRe.rep greedy min cs prev rest caps k = Some x →
    ∃ w prev' rest',
      k (PyRe.MState prev' rest' caps) = Some x ∧ rest = w ++ rest' ∧
      Forall (λ c, isword c = true) w.
Proof.
  intros Hcs rest. induction rest as [|c rest IH]; intros min prev Hrun.
  - cbn [PyRe.rep] in Hrun. destruct min as [|min]; [|done].
    exists [], prev, []. split; [|done].
    destruct greedy; [done|]. by destruct (k _).
  - cbn [PyRe.rep] in Hrun.
    assert (∀ m, (if PyRe.cset_mem cs c
                  then PyRe.rep greedy m cs (Some c) rest caps k else None) = Some x →
                 ∃ w prev' rest',
                   k (PyRe.MState prev' rest' caps) = Some x ∧ c :: rest = w ++ rest' ∧
                   Forall (λ c, isword c = true) w) as Hmore.
    { intros m Hm. destruct (PyRe.cset_mem cs c) eqn:Hc; [|done].
      destruct (IH _ _ Hm) as (w & prev' & rest' & Hk & -> & Hw).
      exists (c :: w), prev', rest'. split_and!; [done|done|]. constructor; auto. }
    destruct min as [|min]; [|by apply Hmore in Hrun].
    destruct greedy.
    + destruct (if PyRe.cset_mem cs c then _ else None) as [y|] eqn:Hm.
      * injection Hrun as ->. by apply Hmore in Hm.
      * exists [], prev, (c :: rest). done.
    + destruct (k _) as [y|] eqn:Hk.
      * injection Hrun as ->. exists [], prev, (c :: rest). done.
      * by apply Hmore in Hrun.
Qed.

Lemma run_word r : ∀ st (k : PyRe.mstate → option R) x,
  word_only r → PyRe.run multiline r st k = Some x →
  ∃ w st',
    k st' = Some x ∧ PyRe.ms_rest st = w ++ PyRe.ms_rest st' ∧
    Forall (λ c, isword c = true) w ∧ PyRe.ms_caps st' = PyRe.ms_caps st.
Proof.
  induction r as [|cs| | |a IHa b IHb|a IHa b IHb|greedy min cs|i r IH];
    intros st k x Hr Hrun; cbn [word_only] in Hr; try done.
  - exists [], st. done.
  - cbn [PyRe.run] in Hrun. destruct (PyRe.ms_rest st) as [|c rest] eqn:Hrest; [done|].
    destruct (PyRe.cset_mem cs c) eqn:Hc; [|done].
    exists [c], (PyRe.MState (Some c) rest (PyRe.ms_caps st)).
    split_and!; [done|done|repeat constructor; auto|done].
  - destruct Hr as [Ha Hb]. cbn [PyRe.run] in Hrun.
    apply IHa in Hrun as (w1 & st1 & Hrun & E1 & W1 & C1); [|done].
    apply IHb in Hrun as (w2 & st2 & Hrun & E2 & W2 & C2); [|done].
    exists (w1 ++ w2), st2. split_and!; [done| |by apply Forall_app|congruence].
    by rewrite E1, E2, app_assoc.
  - cbn [PyRe.run] in Hrun.
    apply rep_word in Hrun as (w & prev' & rest' & Hk & E & W); [|done].
    by exists w, (PyRe.MState prev' rest' (PyRe.ms_caps st)).
Qed.
End Soundness.

Section Captures.
Context {R : Type} (multiline : bool).

Lemma rep_any greedy cs (k : PyRe.mstate → option R) caps x :
  ∀ rest min prev,
    PyRe.rep greedy min cs prev rest caps k = Some x →
    ∃ prev' rest', k (PyRe.MState prev' rest' caps) = Some x.
Proof.
  intros rest. induction rest as [|c rest IH]; intros min prev Hrun.
  - cbn [PyRe.rep] in Hrun. destruct min as [|min]; [|done].
    exists prev, []. destruct greedy; [done|]. by destruct (k _).
  - cbn [PyRe.rep] in Hrun.
    assert (∀ m, (if PyRe.cset_mem cs c
                  then PyRe.rep greedy m cs (Some c) rest caps k else None) = Some x →
                 ∃ prev' rest', k (PyRe.MState prev' rest' caps) = Some x) as Hmore.
    { intros m Hm. destruct (PyRe.cset_mem cs c); [|done]. by eapply IH. }
    destruct min as [|min]; [|by apply Hmore in Hrun].
    destruct greedy.
    + destruct (if PyRe.cset_mem cs c then _ else None) as [y|] eqn:Hm.
      * injection Hrun as ->. by apply Hmore in Hm.
      * by exists prev, (c :: rest).
    + destruct (k _) as [y|] eqn:Hk.
      * injection Hrun as ->. by exists prev, (c :: rest).
      * by apply Hmore in Hrun.
Qed.

Lemma run_caps r : ∀ st (k : PyRe.mstate → option R) x,
  captures_words r → caps_ok (PyRe.ms_caps st) →
  PyRe.run multiline r st k = Some x →
  ∃ st', k st' = Some x ∧ caps_ok (PyRe.ms_caps st').
Proof.
  induction r as [|cs| | |a IHa b IHb|a IHa b IHb|greedy min cs|i r IH];
    intros st k x Hr Hst Hrun; cbn [captures_words PyRe.run] in Hr, Hrun.
  - by exists st.
  - destruct (PyRe.ms_rest st) as [|c rest]; [done|].
    destruct (PyRe.cset_mem cs c); [|done]. by eexists.
  - destruct (PyRe.at_bol _ _); [|done]. by exists st.
  - destruct (PyRe.at_wordb _ _); [|done]. by exists st.
  - destruct Hr as [Ha Hb].
    apply IHa in Hrun as (st1 & Hrun & Hst1); [|done..]. by apply IHb in Hrun.
  - destruct Hr as [Ha Hb]. destruct (PyRe.run multiline a st k) as [y|] eqn:Hfirst.
    + injection Hrun as ->. by apply IHa in Hfirst.
    + by apply IHb in Hrun.
  - apply rep_any in Hrun as (prev' & rest' & Hk). by eexists.
  - destruct (Nat.eqb_spec i 1) as [->|Hi].
    + apply run_word in Hrun as (w & st' & Hk & E & W & C); [|done].
      eexists. split; [exact Hk|]. cbn [PyRe.ms_caps]. constructor; [|by rewrite C].
      intros _. cbn [snd]. unfold word. rewrite E, length_app, Nat.add_sub, take_app_length.
      by rewrite chars_str.
    + apply IH in Hrun as (st' & Hk & Hst'); [|done..].
      eexists. split; [exact Hk|]. cbn [PyRe.ms_caps]. by constructor.
Qed.

End Captures.

Lemma match_at_caps multiline r prev rest m :
  captures_words r → PyRe.match_at multiline r prev rest = Some m →
  caps_ok (PyRe.m_caps m).
Proof.
  unfold PyRe.match_at. intros Hr Hrun.
  apply run_caps in Hrun as (st' & [= <-] & Hst'); [done|done|constructor].
Qed.

Lemma findall_go_caps multiline r :
  captures_words r →
  ∀ rest prev skip m,
    m ∈ PyRe.findall_go multiline r prev rest skip → caps_ok (PyRe.m_caps m).
Proof.
  intros Hr rest. induction rest as [|c rest IH]; intros prev skip m Hm.
  - destruct skip; cbn [PyRe.findall_go] in Hm; [|by apply elem_of_nil in Hm].
    destruct (PyRe.match_at _ _ _ _) as [m'|] eqn:Hat; [|by apply elem_of_nil in Hm].
    apply list_elem_of_singleton in Hm as ->. by eapply match_at_caps.
  - destruct skip; cbn [PyRe.findall_go] in Hm; [|by eapply IH].
    destruct (PyRe.match_at _ _ _ _) as [m'|] eqn:Hat; [|by eapply IH].
    apply elem_of_cons in Hm as [->|Hm]; [by eapply match_at_caps|by eapply IH].
Qed.

Lemma lookup_cap_word caps : caps_ok caps → word (PyRe.lookup_cap 1 caps).
Proof.
  induction 1 as [|[j s] caps Hj _ IH]; cbn [PyRe.lookup_cap]; [constructor|].
  destruct (Nat.eqb_spec 1 j) as [<-|Hne]; [by apply Hj|done].
Qed.

Lemma funcs_re_captures_words : captures_words funcs_re.
Proof.
  cbn. split_and!; try done;
    intros [[] [] [] [] [] [] [] []]; vm_compute; congruence.
Qed.

(** The names [funcs_of] finds are made of word characters. *)
Lemma funcs_of_words text name : name ∈ funcs_of text → word name.
Proof.
  unfold funcs_of. intros (m & -> & Hm)%list_elem_of_fmap.
  apply lookup_cap_word. eapply findall_go_caps; [|exact Hm].
  apply funcs_re_captures_words.
Qed.

(** A word character has no special meaning in a pattern. *)
Lemma parse_word_char c rest stk cur ng :
  isword c = true →
  PyRe.parse (c :: rest) None stk cur ng = PyRe.parse rest None stk (PyRe.push (literal c) cur) ng.
Proof.
  destruct c as [[] [] [] [] [] [] [] []]; intros Hc; vm_compute in Hc;
    first [discriminate Hc | reflexivity].
Qed.

Lemma parse_word w : ∀ rest stk cur ng,
  Forall (λ c, isword c = true) w →
  PyRe.parse (w ++ rest) None stk cur ng =
  PyRe.parse rest None stk (foldl (λ f c, PyRe.push (literal c) f) cur w) ng.
Proof.
  induction w as [|c w IH]; intros rest stk cur ng Hw; [done|].
  apply Forall_cons in Hw as [Hc Hw]. cbn [app foldl].
  rewrite parse_word_char by done. by apply IH.
Qed.

Lemma chars_app a b : chars (a +:+ b) = chars a ++ chars b.
Proof.
  induction a as [|c a IH]; [done|].
  change (c :: chars (a +:+ b) = c :: (chars a ++ chars b)). by rewrite IH.
Qed.

Lemma parse_escaped_backslash rest stk cur ng :
  PyRe.parse (PyRe.backslash :: PyRe.backslash :: rest) None stk cur ng =
  PyRe.parse rest None stk (PyRe.push (literal PyRe.backslash) cur) ng.
Proof. reflexivity. Qed.

Lemma parse_open_end stk cur ng :
  PyRe.parse (chars "\\s*\\(") None stk cur ng = Raise ReError.
Proof. reflexivity. Qed.

(** The pattern built for a call never compiles: it ends in a group that
    is opened and not closed. *)
Lemma call_pattern_never_compiles name :
  word name → PyRe.compile (call_pattern name) = Raise ReError.
Proof.
  intros Hw. unfold PyRe.compile, call_pattern. rewrite !chars_app.
  change (chars "\\b") with ([PyRe.backslash; PyRe.backslash] ++ ["b"%char]).
  rewrite <- !app_assoc. cbn [app]. rewrite parse_escaped_backslash.
  rewrite parse_word_char by done. rewrite parse_word by done.
  apply parse_open_end.
Qed.

(** ** What [build_ccg] returns *)

Lemma real_calls_raise callee text : word callee → real_calls callee text = Raise ReError.
Proof. intros Hw. unfold real_calls, re_search. by rewrite call_pattern_never_compiles. Qed.

Lemma call_edges_outcome file text caller g callees :
  Forall word callees →
  foldM (call_edge real_calls file text caller) g callees =
  if decide (Forall (λ c, caller = c) callees) then Ok g else Raise ReError.
Proof.
  induction 1 as [|callee callees Hw _ IH]; cbn [foldM].
  - by rewrite decide_True by constructor.
  - destruct (decide (caller = callee)) as [->|Hne].
    + assert (call_edge real_calls file text callee g callee = Ok g) as ->.
      { unfold call_edge. destruct (decide (callee ≠ callee)) as [Hd|_]; [by destruct Hd|done]. }
      cbn [mbind result_bind]. rewrite IH. clear IH.
      destruct (decide (Forall _ callees)) as [Hall|Hnot].
      * by rewrite decide_True by (by constructor).
      * rewrite decide_False; [done|]. by intros [_ ?]%Forall_cons.
    + assert (call_edge real_calls file text caller g callee = Raise ReError) as ->.
      { unfold call_edge. rewrite decide_True by done. by rewrite real_calls_raise. }
      cbn [mbind result_bind]. rewrite decide_False; [done|]. by intros [? _]%Forall_cons.
Qed.

Lemma caller_edges_outcome file text funcs g callers :
  Forall word funcs →
  foldM (caller_edges real_calls file text funcs) g callers =
  if decide (Forall (λ a, Forall (λ b, a = b) funcs) callers) then Ok g else Raise ReError.
Proof.
  intros Hw. induction callers as [|caller callers IH]; cbn [foldM].
  - by rewrite decide_True by constructor.
  - assert (caller_edges real_calls file text funcs g caller =
            if decide (Forall (λ b, caller = b) funcs) then Ok g else Raise ReError) as ->.
    { unfold caller_edges. by apply call_edges_outcome. }
    destruct (decide (Forall (λ b, caller = b) funcs)) as [Hc|Hc]; cbn [mbind result_bind].
    + rewrite IH. clear IH.
      destruct (decide (Forall _ callers)) as [Hall|Hnot].
      * by rewrite decide_True by (by constructor).
      * rewrite decide_False; [done|]. by intros [_ ?]%Forall_cons.
    + rewrite decide_False; [done|]. by intros [? _]%Forall_cons.
Qed.

Lemma uniform_iff funcs :
  uniform funcs ↔ ∀ a b, a ∈ funcs → b ∈ funcs → a = b.
Proof.
  unfold uniform. rewrite Forall_forall. split.
  - intros H a b Ha Hb. specialize (H a Ha). rewrite Forall_forall in H. by apply H.
  - intros H a Ha. apply Forall_forall. intros b Hb. by apply H.
Qed.

Lemma one_function_each_cons file text files :
  one_function_each ((file, text) :: files) ↔
  uniform (funcs_of text) ∧ one_function_each files.
Proof. unfold one_function_each. by rewrite Forall_cons, uniform_iff. Qed.

Lemma scan_file_raises file text g meta :
  ¬ uniform (funcs_of text) →
  scan_file real_calls (g, meta) (file, text) = Raise ReError.
Proof.
  intros Hnot. unfold scan_file.
  rewrite caller_edges_outcome
    by (apply Forall_forall; intros ??; by eapply funcs_of_words).
  by rewrite decide_False.
Qed.

(** [build_ccg] returns exactly when no file declares two different
    function names, and then without an edge; otherwise it raises
    [re.error]. *)
Lemma build_ccg_outcome files :
  match build_ccg files with
  | Ok (g, _) => one_function_each files ∧ g_edges g = []
  | Raise e => e = ReError ∧ ¬ one_function_each files
  end.
Proof.
  unfold build_ccg, build_ccg_with.
  assert (∀ st,
            match foldM (scan_file real_calls) st files with
            | Ok (g, _) => one_function_each files ∧ g_edges g = g_edges st.1
            | Raise e => e = ReError ∧ ¬ one_function_each files
            end) as Hgen; [|apply (Hgen (Graph [] [], MkMeta 0 0 0))].
  induction files as [|[file text] files IH]; intros [g meta].
  - cbn [foldM fst]. split; [constructor|done].
  - cbn [foldM]. destruct (decide (uniform (funcs_of text))) as [Hu|Hu].
    + destruct (scan_file_one_function real_calls file text g meta)
        as (g1 & meta1 & -> & He & _); [by apply uniform_iff|].
      cbn [mbind result_bind]. specialize (IH (g1, meta1)).
      destruct (foldM _ (g1, meta1) files) as [[g' meta']|e].
      * destruct IH as [Hone Hedges]. split; [by apply one_function_each_cons|].
        cbn [fst] in *. congruence.
      * destruct IH as [-> Hnot]. split; [done|]. by intros [_ ?]%one_function_each_cons.
    + rewrite scan_file_raises by done. cbn [mbind result_bind].
      split; [done|]. by intros [? _]%one_function_each_cons.
Qed.

(** ** Writing the report *)

Lemma string_app_length (s t : string) :
  String.length (s +:+ t) = String.length s + String.length t.
Proof. induction s as [|c s IH]; simpl; [done|by rewrite IH]. Qed.

Lemma tmp_name_differs (nm : string) : nm +:+ ".tmp" ≠ nm.
Proof.
  intros H. apply (f_equal String.length) in H.
  rewrite string_app_length in H. simpl in H. lia.
Qed.

Lemma tmp_path_differs (path : Path) :
  path ≠ [] → parent path ++ [PyPath.name path +:+ ".tmp"] ≠ path.
Proof.
  intros Hne. destruct (exists_last Hne) as (d & nm & ->).
  unfold parent, PyPath.name. rewrite removelast_last, last_snoc. simpl.
  intros H. apply app_inv_head in H. injection H as H. by apply tmp_name_differs in H.
Qed.

(** The sibling path: [simple_fs.write_text] never leaves anything but the
    previous content or the whole new content at [path], whatever fails. *)
Lemma write_text_all_or_nothing flt path content w r w' :
  write_text flt path content w = (r, w') →
  w_files w' !! path = w_files w !! path ∨
  (r = Ok () ∧ w_files w' !! path = Some content).
Proof.
  unfold write_text, io_bind, mkdir_p.
  destruct (mkdir_fails flt || existsb _ _); [intros [= <- <-]; by left|].
  destruct path as [|x path']; [intros [= <- <-]; by left|].
  set (path := x :: path'). set (tmp := parent path ++ [PyPath.name path +:+ ".tmp"]).
  assert (tmp ≠ path) as Htmp by (by apply tmp_path_differs).
  unfold path_write_text. cbn [w_dirs w_files w_cwd].
  destruct (bool_decide _ || negb _); [intros [= <- <-]; by left|].
  destruct (write_stops flt) as [n|].
  - intros [= <- <-]. left. cbn [w_files]. by rewrite lookup_insert_ne.
  - unfold path_replace. cbn [w_dirs w_files w_cwd]. rewrite lookup_insert_eq.
    destruct (replace_fails flt || bool_decide _).
    + intros [= <- <-]. left. cbn [w_files]. by rewrite lookup_insert_ne.
    + intros [= <- <-]. right. split; [done|]. cbn [w_files]. by rewrite lookup_insert_eq.
Qed.

(** C2, at the failing input.  With the report of an earlier run at
    [outputs/docs.md], a run of [main] whose write fails leaves the file
    emptied: [write_markdown] opens the report itself for writing, so the
    previous artifact is gone before the new one is there, while
    [simple_fs.write_text] under the same failure keeps it. *)
Theorem report_write_is_not_atomic :
  w_files demo_world !! demo_out = Some "old report" ∧
  (∃ w', main None demo_no_edges write_fails_at_once demo_world = (Raise OSError, w') ∧
         w_files w' !! demo_out = Some "") ∧
  (∃ w', write_text write_fails_at_once demo_out "new report" demo_world
           = (Raise OSError, w') ∧
         w_files w' !! demo_out = Some "old report").
Proof.
  split_and!; [by vm_compute| |]; eexists; (split; [vm_compute; reflexivity|by vm_compute]).
Qed.

(** ** The bridge *)

Lemma mkdir_p_dirs flt d w r w' :
  mkdir_p flt d w = (r, w') → w_dirs w ⊆ w_dirs w'.
Proof.
  unfold mkdir_p. destruct (_ || _); intros [= <- <-]; simpl; set_solver.
Qed.

Lemma path_write_text_dirs flt p data w r w' :
  path_write_text flt p data w = (r, w') → w_dirs w' = w_dirs w.
Proof.
  unfold path_write_text. destruct (_ || _); [by intros [= <- <-]|].
  destruct (write_stops flt); by intros [= <- <-].
Qed.

(** What [main] writes is the text of [main_text], at [outputs/docs.md]
    under the working directory. *)
Lemma resolve_outcome cwd s :
  resolve cwd s = if has_nul s then Raise embedded_null else Ok (normal_path cwd s).
Proof. reflexivity. Qed.


(** [gen_docs.main] removes no directory. *)
Lemma main_keeps_dirs argv1 tree flt w :
  w_dirs w ⊆ w_dirs (main argv1 tree flt w).2.
Proof.
  unfold main, resolve. destruct (has_nul _); [done|].
  destruct (main_scan tree) as [[[readme_line py_edges] js_edges]|e]; [|done].
  unfold write_markdown. destruct (markdown_text _ _ _ _ _) as [text|e]; [|done].
  unfold write_markdown_out, io_bind.
  destruct (mkdir_p flt _ w) as [[[]|e] w1] eqn:Hmk; apply mkdir_p_dirs in Hmk.
  - destruct (path_write_text flt _ text w1) as [r w2] eqn:Hwr.
    apply path_write_text_dirs in Hwr. simpl. by rewrite Hwr.
  - done.
Qed.

(** C10. [run_gen] returns with the working directory it was entered with,
    after a run that succeeded and after one that raised inside the [try]:
    it then returns the report with [ok = False] and the message of the
    exception instead of raising.  This is so for every root that names a
    path, and needs the directory of entry to still be there at the end,
    which holds when the generator removes no directory.  A root holding a
    NUL character makes [Path(root).resolve()] raise before the [try]:
    [run_gen] raises, and the working directory, like everything else, is
    as it was. *)
Theorem run_gen_restores_cwd (gen_docs_main : io unit) (root : string) (w : world) :
  w_cwd w ∈ w_dirs w →
  (∀ w1, w_dirs w1 ⊆ w_dirs (gen_docs_main w1).2) →
  let root' := if String.eqb root "" then "." else root in
  (has_nul root' = false →
   ∃ root_path report w',
     resolve (w_cwd w) root' = Ok root_path ∧
     run_gen gen_docs_main root w = (Ok report, w') ∧
     w_cwd w' = w_cwd w ∧
     match (chdir root_path >>> gen_docs_main) w with
     | (Ok _, _) => report_ok report = true
     | (Raise e, _) => report = GenFailed (exn_message e) (abs_string root_path)
     end) ∧
  (has_nul root' = true →
   resolve (w_cwd w) root' = Raise embedded_null ∧
   run_gen gen_docs_main root w = (Raise embedded_null, w)).
Proof.
  intros Hcwd Hkeep root'. unfold run_gen. fold root'. rewrite resolve_outcome.
  split; intros Hnul; rewrite Hnul; [|done].
  exists (normal_path (w_cwd w) root'). unfold run_gen_try.
  set (root_path := normal_path _ _).
  assert (w_cwd w ∈ w_dirs ((chdir root_path >>> gen_docs_main) w).2) as Hstill.
  { unfold io_bind, chdir. case_bool_decide as Hroot; [|done].
    specialize (Hkeep (World root_path (w_dirs w) (w_files w))).
    destruct (gen_docs_main _) as [[[]|e] w1]; simpl in *; set_solver. }
  destruct ((chdir root_path >>> gen_docs_main) w) as [[[]|e] w1]; simpl in Hstill.
  - unfold chdir at 1. cbn [w_dirs]. rewrite bool_decide_eq_true_2 by done.
    eexists _, _. split_and!; done.
  - unfold chdir at 1. rewrite bool_decide_eq_true_2 by done.
    eexists _, _. split_and!; done.
Qed.

Lemma run_gen_restores_cwd_witness :
  w_cwd demo_world ∈ w_dirs demo_world ∧
  (∀ w1, w_dirs w1 ⊆ w_dirs (main None demo_no_edges write_fails_at_once w1).2) ∧
  (∃ report w',
     run_gen (main None demo_no_edges write_fails_at_once) "" demo_world = (Ok report, w') ∧
     w_cwd w' = w_cwd demo_world ∧
     report = GenFailed "OSError" "/srv/demo") ∧
  run_gen (main None demo_no_edges write_fails_at_once) nul_root demo_world
    = (Raise embedded_null, demo_world).
Proof.
  assert (w_cwd demo_world ∈ w_dirs demo_world) as Hcwd
    by (apply (bool_decide_unpack _); vm_compute; exact I).
  split; [exact Hcwd|].
  split; [exact (main_keeps_dirs None demo_no_edges write_fails_at_once)|].
  split.
  - destruct (run_gen_restores_cwd (main None demo_no_edges write_fails_at_once) "" demo_world
                Hcwd (main_keeps_dirs None demo_no_edges write_fails_at_once))
      as [Hok _].
    destruct (Hok eq_refl) as (root_path & report & w' & Hres & Hrun & Hw & Hrep).
    exists report, w'. split; [exact Hrun|]. split; [exact Hw|].
    vm_compute in Hres. injection Hres as <-. vm_compute in Hrep. exact Hrep.
  - destruct (run_gen_restores_cwd (main None demo_no_edges write_fails_at_once) nul_root
                demo_world Hcwd (main_keeps_dirs None demo_no_edges write_fails_at_once))
      as [_ Hnul].
    exact (proj2 (Hnul eq_refl)).
Defined.

(** Both paths on the demo process: a run that writes the report, and one
    whose write fails. *)
Example run_gen_both_paths :
  (∃ w', run_gen (main None demo_no_edges no_faults) "" demo_world
           = (Ok (GenOk "/srv/demo" "/srv/demo/outputs/docs.md" true 297), w') ∧
         w_cwd w' = ["srv"; "demo"]) ∧
  (∃ w', run_gen (main None demo_no_edges write_fails_at_once) "outputs" demo_world
           = (Ok (GenFailed "OSError" "/srv/demo/outputs"), w') ∧
         w_cwd w' = ["srv"; "demo"]).
Proof. split; eexists; (split; [vm_compute; reflexivity|by vm_compute]). Qed.

(** ** Two scans of the same files *)

Lemma entry_elem nm es sub : entry nm es = Some sub → (nm, sub) ∈ es.
Proof.
  unfold entry. destruct (List.find _ es) as [[nm' sub']|] eqn:Hf; simpl; [|done].
  intros [= ->]. apply find_some in Hf as [Hin Heq]. simpl in Heq.
  apply String.eqb_eq in Heq as ->. by apply list_elem_of_In.
Qed.

Lemma NoDup_fst_unique {A B} (l : list (A * B)) x y1 y2 :
  NoDup l.*1 → (x, y1) ∈ l → (x, y2) ∈ l → y1 = y2.
Proof.
  induction l as [|[x' y'] l IH]; intros Hnd H1 H2; [by apply elem_of_nil in H1|].
  apply NoDup_cons in Hnd as [Hx Hnd].
  apply elem_of_cons in H1 as [[= -> ->]|H1], H2 as [[= <-]|H2]; try done.
  - exfalso. apply Hx. by apply (list_elem_of_fmap_2 fst) in H2.
  - exfalso. subst. apply Hx. by apply (list_elem_of_fmap_2 fst) in H1.
  - by apply IH.
Qed.

Lemma entry_of_elem nm es sub :
  NoDup es.*1 → (nm, sub) ∈ es → entry nm es = Some sub.
Proof.
  intros Hnd Hin. destruct (entry nm es) as [sub'|] eqn:He.
  - apply entry_elem in He. f_equal. by eapply NoDup_fst_unique.
  - exfalso. unfold entry in He.
    destruct (List.find _ es) as [e|] eqn:Hf; [done|].
    apply list_elem_of_In in Hin. apply (find_none _ _ Hf) in Hin. simpl in Hin.
    by rewrite String.eqb_refl in Hin.
Qed.

Lemma tree_lookup_file_nil c p t : tree_lookup (File c) p = Some t → p = [].
Proof. by destruct p. Qed.

Lemma removelast_cons_ne {A} (x : A) l : l ≠ [] → removelast (x :: l) = x :: removelast l.
Proof. by destruct l. Qed.

(** Every file behind kept directories is walked. *)
Lemma walk_files_from_complete q : ∀ d t c,
  q ≠ [] → tree_lookup t q = Some (File c) →
  Forall (λ x, keep_dir x = true) (removelast q) →
  d ++ q ∈ walk_files_from d t.
Proof.
  induction q as [|nm q IH]; intros d t c Hne Hl Hk; [done|].
  destruct t as [c'|es]; [done|]. simpl in Hl.
  destruct (entry nm es) as [sub|] eqn:He; simpl in Hl; [|done].
  apply entry_elem in He. rewrite walk_files_from_dir. apply elem_of_app.
  destruct q as [|nm' q'].
  - left. simpl in Hl. injection Hl as ->. unfold own_files.
    apply (list_elem_of_fmap_2' _ _ (nm, File c)); [|done].
    by apply list_elem_of_filter.
  - right. rewrite removelast_cons_ne in Hk by done.
    apply Forall_cons in Hk as [Hnm Hk].
    destruct sub as [c'|es']; [done|].
    apply list_elem_of_In, in_flat_map. exists (nm, Dir es').
    split; [by apply list_elem_of_In|]. apply list_elem_of_In.
    unfold descent. cbn [fst snd is_dir]. rewrite Hnm. cbn [andb].
    replace (d ++ nm :: nm' :: q') with ((d ++ [nm]) ++ nm' :: q')
      by (by rewrite <- app_assoc).
    by eapply IH.
Qed.

(** In a well-formed tree, every walked path leads to a file behind kept
    directories. *)
Lemma walk_files_from_sound t : ∀ d p,
  wf t → p ∈ walk_files_from d t →
  ∃ q c, p = d ++ q ∧ q ≠ [] ∧ tree_lookup t q = Some (File c) ∧
         Forall (λ x, keep_dir x = true) (removelast q).
Proof.
  induction t as [c|es IH] using fsnode_ind; intros d p Hwf Hp.
  - by apply elem_of_nil in Hp.
  - inversion Hwf as [|es' Hnd Hsub]; subst.
    rewrite walk_files_from_dir in Hp. apply elem_of_app in Hp as [Hp|Hp].
    + unfold own_files in Hp. apply list_elem_of_fmap in Hp as ([nm sub] & -> & He).
      apply list_elem_of_filter in He as [Hfile He]. simpl in *.
      destruct sub as [c|]; [|done].
      exists [nm], c. split_and!; [done|done| |constructor].
      simpl. by rewrite (entry_of_elem _ _ _ Hnd He).
    + apply list_elem_of_In, in_flat_map in Hp as ([nm sub] & He & Hp).
      apply list_elem_of_In in He, Hp. unfold descent in Hp. simpl in Hp.
      destruct (is_dir sub && keep_dir nm) eqn:Hk; [|by apply elem_of_nil in Hp].
      apply andb_true_iff in Hk as [_ Hk].
      rewrite Forall_forall in IH, Hsub.
      destruct (IH _ He _ _ (Hsub _ He) Hp) as (q & c & -> & Hq & Hl & Hkq).
      exists (nm :: q), c. split_and!.
      * by rewrite <- app_assoc.
      * done.
      * simpl. by rewrite (entry_of_elem _ _ _ Hnd He).
      * rewrite removelast_cons_ne by done. by constructor.
Qed.

Lemma own_files_NoDup d es : NoDup es.*1 → NoDup (own_files d es).
Proof.
  intros Hnd. unfold own_files. apply NoDup_fmap_2_strong.
  - intros [n1 s1] [n2 s2] [_ H1]%list_elem_of_filter [_ H2]%list_elem_of_filter Heq.
    simpl in Heq. apply app_inv_head in Heq. injection Heq as ->.
    f_equal. by eapply NoDup_fst_unique.
  - apply NoDup_filter. by eapply NoDup_fmap_1.
Qed.

Lemma descent_elem d e p :
  p ∈ descent d e → ∃ q, p = d ++ e.1 :: q ∧ q ≠ [].
Proof.
  unfold descent. destruct (is_dir e.2 && keep_dir e.1); [|by intros ?%elem_of_nil].
  intros (dirs & nm & -> & _)%walk_files_from_kept.
  exists (dirs ++ [nm]). split; [by rewrite <- app_assoc|]. by destruct dirs.
Qed.

Lemma walk_files_from_NoDup t : ∀ d, wf t → NoDup (walk_files_from d t).
Proof.
  induction t as [c|es IH] using fsnode_ind; intros d Hwf; [constructor|].
  inversion Hwf as [|es' Hnd Hsub]; subst.
  rewrite walk_files_from_dir. apply NoDup_app. split_and!.
  - by apply own_files_NoDup.
  - intros p Hown Hdesc. unfold own_files in Hown.
    apply list_elem_of_fmap in Hown as (e & -> & _).
    apply list_elem_of_In, in_flat_map in Hdesc as (e' & _ & Hdesc).
    apply list_elem_of_In, descent_elem in Hdesc as (q & Heq & Hq).
    apply app_inv_head in Heq. injection Heq as _ Heq. by subst.
  - clear Hwf. induction es as [|[nm sub] es IHes]; [constructor|].
    apply Forall_cons in IH as [IHsub IH], Hsub as [Hwsub Hsub].
    rewrite fmap_cons in Hnd. apply NoDup_cons in Hnd as [Hnm Hnd]. cbn [flat_map fst] in *.
    apply NoDup_app. split_and!.
    + unfold descent. cbn [fst snd]. destruct (is_dir sub && keep_dir nm); [|constructor].
      by apply IHsub.
    + intros p (q & -> & _)%descent_elem Hrest.
      apply list_elem_of_In, in_flat_map in Hrest as (e' & He' & Hrest).
      apply list_elem_of_In, descent_elem in Hrest as (q' & Heq & _).
      apply app_inv_head in Heq. injection Heq as Heq _. simpl in Heq.
      apply Hnm. rewrite Heq. by apply (list_elem_of_fmap_2 fst), list_elem_of_In.
    + by apply IHes.
Qed.

(** Two scans of the same files walk the same paths, in some order. *)
Lemma walk_files_same t1 t2 :
  wf t1 → wf t2 → same_files t1 t2 → walk_files t1 ≡ₚ walk_files t2.
Proof.
  intros Hwf1 Hwf2 Hsame. apply NoDup_Permutation.
  - by apply walk_files_from_NoDup.
  - by apply walk_files_from_NoDup.
  - assert (∀ ta tb, wf ta → (∀ p, kind_at ta p = kind_at tb p) →
              ∀ p, p ∈ walk_files ta → p ∈ walk_files tb) as Hdir.
    { intros ta tb Hwf Hk p Hp.
      apply walk_files_from_sound in Hp as (q & c & -> & Hq & Hl & Hkq); [|done].
      apply (walk_files_from_complete q [] tb c); [done| |done].
      specialize (Hk q). unfold kind_at in Hk. rewrite Hl in Hk.
      destruct (tree_lookup tb q) as [[c'|]|]; congruence. }
    intros p. split; apply Hdir; [done|done|done|]. intros q. symmetry. apply Hsame.
Qed.

(** The order of paths is a total order. *)
Global Instance path_le_total : Total PyPath.le.
Proof.
  unfold PyPath.le. intros p. induction p as [|a p IH]; intros [|b q]; simpl;
    try (by left); try (by right).
  destruct (String.eqb a b) eqn:Hab.
  - apply String.eqb_eq in Hab as ->. rewrite String.eqb_refl. apply IH.
  - rewrite String.eqb_sym, Hab. apply (total String.le).
Qed.

Global Instance path_le_antisym : AntiSymm (=) PyPath.le.
Proof.
  unfold PyPath.le. intros p. induction p as [|a p IH]; intros [|b q]; simpl; try done.
  destruct (String.eqb a b) eqn:Hab.
  - apply String.eqb_eq in Hab as ->. rewrite String.eqb_refl.
    intros H1 H2. f_equal. by apply IH.
  - rewrite String.eqb_sym, Hab. intros H1 H2.
    apply String.eqb_neq in Hab. exfalso. apply Hab.
    by apply (anti_symm String.le).
Qed.

Global Instance path_le_trans : Transitive PyPath.le.
Proof.
  unfold PyPath.le. intros p. induction p as [|a p IH]; intros [|b q] [|c r]; simpl;
    try done.
  destruct (String.eqb a b) eqn:Hab.
  - apply String.eqb_eq in Hab as ->. destruct (String.eqb b c); [apply IH|done].
  - destruct (String.eqb b c) eqn:Hbc.
    + apply String.eqb_eq in Hbc as <-. by rewrite Hab.
    + intros H1 H2. assert (String.le a c) as Hac by (by etrans).
      destruct (String.eqb a c) eqn:Heq; [|done].
      apply String.eqb_eq in Heq as <-. apply String.eqb_neq in Hab.
      exfalso. apply Hab. by apply (anti_symm String.le).
Qed.

Lemma find_by_lang_none root lang :
  lang ∉ LANG_EXTS.*1 → find_by_lang root !! lang = None.
Proof.
  intros Hout. destruct (find_by_lang root !! lang) as [files|] eqn:Hl; [|done].
  by apply find_by_lang_lookup in Hl as [? _].
Qed.

Lemma find_by_lang_same t1 t2 :
  wf t1 → wf t2 → same_files t1 t2 → find_by_lang t1 = find_by_lang t2.
Proof.
  intros Hwf1 Hwf2 Hsame. apply map_eq. intros lang.
  destruct (decide (lang ∈ LANG_EXTS.*1)) as [Hin|Hout].
  - rewrite !find_by_lang_keys by done. f_equal.
    apply (Sorted_unique PyPath.le); [apply Sorted_merge_sort; apply _..|].
    rewrite !merge_sort_Permutation. by rewrite (walk_files_same t1 t2).
  - by rewrite !find_by_lang_none.
Qed.

Lemma read_text_same t1 t2 p : same_files t1 t2 → read_text t1 p = read_text t2 p.
Proof.
  intros Hsame. specialize (Hsame p). unfold kind_at in Hsame. unfold read_text.
  destruct (tree_lookup t1 p) as [[c1|]|], (tree_lookup t2 p) as [[c2|]|];
    simplify_eq; done.
Qed.

Lemma path_exists_same t1 t2 p : same_files t1 t2 → path_exists t1 p = path_exists t2 p.
Proof.
  intros Hsame. specialize (Hsame p). unfold kind_at in Hsame. unfold path_exists.
  destruct (tree_lookup t1 p) as [[c1|]|], (tree_lookup t2 p) as [[c2|]|]; try done.
Qed.

Lemma read_readme_same t1 t2 : same_files t1 t2 → read_readme t1 = read_readme t2.
Proof.
  intros Hsame. unfold read_readme. induction README_FILES as [|nm names IH]; [done|].
  simpl. rewrite (path_exists_same t1 t2), (read_text_same t1 t2) by done.
  destruct (path_exists t2 [nm]); [|done].
  destruct (read_text t2 [nm]) as [txt|]; simpl; [|done].
  by destruct (first_summary txt).
Qed.

Lemma foldl_ext_all {A B} (f g : A → B → A) a l :
  (∀ a x, f a x = g a x) → foldl f a l = foldl g a l.
Proof. intros Hfg. revert a. induction l as [|x l IH]; intros a; simpl; [done|]. by rewrite Hfg. Qed.

Lemma import_edges_same target t1 t2 files :
  same_files t1 t2 → import_edges target t1 files = import_edges target t2 files.
Proof.
  intros Hsame. unfold import_edges, edge_set. do 2 f_equal.
  apply foldl_ext_all. intros edges p. unfold file_edges.
  by rewrite (read_text_same t1 t2).
Qed.

(** Apart from the scanned-root line, the lines of the artifact depend on
    the file set and the contents only. *)
Lemma main_lines_same t1 t2 resolved :
  wf t1 → wf t2 → same_files t1 t2 → main_lines t1 resolved = main_lines t2 resolved.
Proof.
  intros Hwf1 Hwf2 Hsame. unfold main_lines, main_scan.
  rewrite (find_by_lang_same t1 t2), (read_readme_same t1 t2) by done.
  destruct (read_readme t2) as [readme_line|]; [|done]. cbn [mbind result_bind].
  destruct (getitem (find_by_lang t2) "Python") as [py|]; [|done]. cbn [mbind result_bind].
  destruct (getitem (find_by_lang t2) _) as [js|]; [|done]. cbn [mbind result_bind].
  unfold py_import_edges, js_import_edges.
  f_equal; [destruct py|destruct js]; try done; simpl; by apply import_edges_same.
Qed.

Lemma string_app_assoc (a b c : string) : (a +:+ b) +:+ c = a +:+ (b +:+ c).
Proof.
  induction a as [|x a IH]; [done|].
  change (String x ((a +:+ b) +:+ c) = String x (a +:+ (b +:+ c))). by rewrite IH.
Qed.

Lemma join_cons sep x l : l ≠ [] → join sep (x :: l) = x +:+ sep +:+ join sep l.
Proof. by destruct l. Qed.

Lemma report_head_assoc res body :
  ("# Codebase Genius — Docs" +:+ LF) +:+ LF +:+
    ("Scanned root: `" +:+ res +:+ "`" +:+ LF) +:+ LF +:+ body
  = report_head +:+ res +:+ "`" +:+ LF +:+ LF +:+ body.
Proof. unfold report_head. by rewrite !string_app_assoc. Qed.

Lemma main_text_shape root resolved :
  match read_readme root with
  | Ok _ =>
      ∃ rest, ∀ res,
        main_text root res = Ok (report_head +:+ res +:+ "`" +:+ LF +:+ LF +:+ join LF rest)
  | Raise e => main_text root resolved = Raise e
  end.
Proof.
  unfold main_text. destruct (read_readme root) as [readme_line|e] eqn:Hr.
  - exists (("## Summary" +:+ LF) ::
            map (count_line (find_by_lang root)) (LANG_EXTS.*1) ++ [""] ++
            readme_section readme_line ++
            graph_section py_heading "Python" (main_py_edges root) ++
            graph_section js_heading "JS/TS" (main_js_edges root) ++
            concat (map (listing_of (find_by_lang root)) (LANG_EXTS.*1))).
    intros res. rewrite (main_lines_total root res readme_line Hr).
    cbn [fmap result_fmap]. f_equal. unfold preamble.
    set (rest := _ :: _ ++ _). change ([?a; ?b; ?c] ++ ?l) with (a :: b :: c :: l).
    fold rest. rewrite (join_cons LF _ (_ :: rest)) by discriminate.
    rewrite (join_cons LF _ rest) by discriminate.
    apply report_head_assoc.
  - unfold main_lines, main_scan. by rewrite Hr.
Qed.

(** C5. Two runs on the same file set with the same contents, whatever the
    order in which the directories enumerate their entries and wherever the
    root lies, give the same artifact byte for byte except for the path in
    the scanned-root line; and if one run raises, so does the other, with
    the same exception. *)
Theorem scans_agree_up_to_root (t1 t2 : fsnode) (res1 res2 : string) :
  wf t1 → wf t2 → same_files t1 t2 →
  match main_text t1 res1, main_text t2 res2 with
  | Ok text1, Ok text2 =>
      ∃ body, text1 = report_head +:+ res1 +:+ body ∧
              text2 = report_head +:+ res2 +:+ body
  | Raise e1, Raise e2 => e1 = e2
  | _, _ => False
  end.
Proof.
  intros Hwf1 Hwf2 Hsame.
  assert (main_text t1 res1 = main_text t2 res1) as ->.
  { unfold main_text. by rewrite (main_lines_same t1 t2). }
  pose proof (main_text_shape t2 res1) as H1.
  pose proof (main_text_shape t2 res2) as H2.
  destruct (read_readme t2) as [readme_line|e].
  - destruct H1 as [rest H1]. rewrite (H1 res1), (H1 res2). by eexists.
  - by rewrite H1, H2.
Qed.

(** Listing the entries of a directory in another order changes nothing
    in what there is at each path. *)
Lemma entry_Permutation nm es1 es2 :
  NoDup es1.*1 → es1 ≡ₚ es2 → entry nm es1 = entry nm es2.
Proof.
  intros Hnd Hperm.
  assert (NoDup es2.*1) as Hnd2 by (by rewrite <- Hperm).
  destruct (entry nm es1) as [sub|] eqn:H1.
  - apply entry_elem in H1. rewrite Hperm in H1. symmetry. by apply entry_of_elem.
  - destruct (entry nm es2) as [sub|] eqn:H2; [|done].
    apply entry_elem in H2. rewrite <- Hperm in H2.
    apply (entry_of_elem _ _ _ Hnd) in H2. congruence.
Qed.

Lemma reordered_root_same es1 es2 :
  NoDup es1.*1 → es1 ≡ₚ es2 → same_files (Dir es1) (Dir es2).
Proof.
  intros Hnd Hperm [|nm p]; [done|].
  unfold kind_at. simpl. by rewrite (entry_Permutation nm es1 es2).
Qed.

Lemma reordered_root_wf es1 es2 : es1 ≡ₚ es2 → wf (Dir es1) → wf (Dir es2).
Proof.
  intros Hperm Hwf. inversion Hwf as [|es Hnd Hsub]; subst.
  constructor; by rewrite <- Hperm.
Qed.

Lemma demo_root_wf : wf demo_root.
Proof.
  constructor.
  - apply (bool_decide_unpack _). vm_compute. exact I.
  - repeat constructor.
Qed.

Lemma scans_agree_up_to_root_witness :
  wf demo_root ∧ wf demo_root_reordered ∧ same_files demo_root demo_root_reordered ∧
  match main_text demo_root "/srv/demo", main_text demo_root_reordered "/tmp/copy" with
  | Ok text1, Ok text2 =>
      ∃ body, text1 = report_head +:+ "/srv/demo" +:+ body ∧
              text2 = report_head +:+ "/tmp/copy" +:+ body
  | Raise e1, Raise e2 => e1 = e2
  | _, _ => False
  end.
Proof.
  assert (demo_root_entries ≡ₚ reverse demo_root_entries) as Hperm
    by (symmetry; apply reverse_Permutation).
  assert (wf demo_root_reordered) as Hwf2
    by exact (reordered_root_wf _ _ Hperm demo_root_wf).
  assert (same_files demo_root demo_root_reordered) as Hsame.
  { apply (reordered_root_same demo_root_entries); [|exact Hperm].
    apply (bool_decide_unpack _). vm_compute. exact I. }
  split_and!; [exact demo_root_wf|exact Hwf2|exact Hsame|].
  exact (scans_agree_up_to_root demo_root demo_root_reordered "/srv/demo" "/tmp/copy"
           demo_root_wf Hwf2 Hsame).
Defined.

Example scans_agree_demo :
  walk_files demo_root ≠ walk_files demo_root_reordered ∧
  find_by_lang demo_root = find_by_lang demo_root_reordered ∧
  main_text demo_root "/srv/demo" = main_text demo_root_reordered "/srv/demo".
Proof. split_and!; by vm_compute. Qed.

(** * More of the code *)

(** ** [utils.safe_repo_name] *)

(** Substituting for a pattern of one character replaces the characters of
    its set, one by one. *)
Lemma sub_go_one_char cs repl : ∀ rest prev,
  PyRe.sub_go false (PyRe.Seq (PyRe.Chr cs) PyRe.Eps) repl prev rest 0 =
  flat_map (λ c, if PyRe.cset_mem cs c then repl else [c]) rest.
Proof.
  induction rest as [|c rest IH]; intros prev; [done|].
  cbn [PyRe.sub_go flat_map]. unfold PyRe.match_at. cbn [PyRe.run PyRe.ms_rest PyRe.ms_caps].
  destruct (PyRe.cset_mem cs c).
  - cbn [PyRe.m_len length]. replace (S (length rest) - length rest) with 1 by lia.
    by rewrite IH.
  - by rewrite IH.
Qed.

Lemma safe_name_mem c :
  PyRe.cset_mem
    (PyRe.CSet true [PyRe.CRange "a" "z"; PyRe.CRange "A" "Z"; PyRe.CRange "0" "9";
                     PyRe.CRange "_" "_"; PyRe.CRange "." "."; PyRe.CRange "-" "-"]) c
  = negb (safe_char c).
Proof. destruct c as [[] [] [] [] [] [] [] []]; reflexivity. Qed.

Lemma sub_safe_name s :
  PyRe.sub false safe_name_re "-" s =
  str (map (λ c, if safe_char c then c else "-"%char) (chars s)).
Proof.
  unfold PyRe.sub, safe_name_re. rewrite sub_go_one_char. f_equal.
  induction (chars s) as [|c l IH]; [done|].
  cbn [flat_map map]. rewrite safe_name_mem, IH. by destruct (safe_char c).
Qed.

Lemma sub_safe_name_id s :
  Forall (λ c, safe_char c = true) (chars s) → PyRe.sub false safe_name_re "-" s = s.
Proof.
  intros Hs. rewrite sub_safe_name. rewrite <- (str_chars s) at 2. f_equal.
  induction Hs as [|c l Hc _ IH]; [done|]. cbn [map]. by rewrite Hc, IH.
Qed.

(** X16.  The name [safe_repo_name] returns is made of letters, digits, [_], [.]
    and [-] only, whatever the URL: it holds no slash and no space. *)
Theorem safe_repo_name_chars (url : string) :
  Forall (λ c, safe_char c = true) (chars (safe_repo_name url)).
Proof.
  unfold safe_repo_name. rewrite sub_safe_name, chars_str.
  apply Forall_forall. intros c (d & -> & _)%list_elem_of_fmap.
  by destruct (safe_char d) eqn:Hd.
Qed.

Lemma split_go_no_sep sep l : ∀ cur,
  Forall (λ c, Ascii.eqb c sep = false) l →
  split_go sep cur l = [str (rev cur ++ l)].
Proof.
  induction l as [|c l IH]; intros cur Hl; cbn [split_go].
  - by rewrite app_nil_r.
  - apply Forall_cons in Hl as [Hc Hl]. rewrite Hc, IH by done.
    cbn [rev]. by rewrite <- app_assoc.
Qed.

Lemma split_go_nonempty sep l : ∀ cur, split_go sep cur l ≠ [].
Proof. induction l as [|c l IH]; intros cur; cbn [split_go]; [done|]. by destruct (Ascii.eqb c sep). Qed.

Lemma last_split_go sep l1 l2 d : ∀ cur,
  List.last (split_go sep cur (l1 ++ sep :: l2)) d = List.last (split_go sep [] l2) d.
Proof.
  induction l1 as [|c l1 IH]; intros cur; cbn [app split_go].
  - rewrite Ascii.eqb_refl. cbn [List.last].
    destruct (split_go sep [] l2) eqn:Hs; [by apply split_go_nonempty in Hs|done].
  - destruct (Ascii.eqb c sep); [|apply IH]. cbn [List.last].
    destruct (split_go sep [] (l1 ++ sep :: l2)) eqn:Hs; [by apply split_go_nonempty in Hs|].
    rewrite <- Hs. apply IH.
Qed.

Lemma drop_while_rev_replicate p (c : ascii) k : ∀ l,
  p c = true → drop_while p (rev (l ++ replicate k c)) = drop_while p (rev l).
Proof.
  induction k as [|k IH]; intros l Hc; cbn [replicate].
  - by rewrite app_nil_r.
  - change (l ++ c :: replicate k c) with (l ++ [c] ++ replicate k c).
    rewrite app_assoc, IH by done. rewrite rev_unit. cbn [drop_while]. by rewrite Hc.
Qed.

Lemma rstrip_slashes (s : string) k x :
  x ≠ "/"%char →
  rstrip_char "/" (s +:+ String x "" +:+ slashes k) = s +:+ String x "".
Proof.
  intros Hx. unfold rstrip_char, slashes. rewrite !chars_app, chars_str, app_assoc.
  rewrite drop_while_rev_replicate by done.
  cbn [chars list_ascii_of_string]. rewrite rev_unit. cbn [drop_while].
  destruct (Ascii.eqb_spec "/" x) as [<-|_]; [done|].
  change (x :: rev (chars s)) with ([x] ++ rev (chars s)).
  rewrite rev_app_distr, rev_involutive. cbn [rev app].
  change [x] with (chars (String x "")). rewrite <- chars_app. apply str_chars.
Qed.

Lemma safe_char_no_slash l :
  Forall (λ c, safe_char c = true) l → Forall (λ c, Ascii.eqb c "/" = false) l.
Proof.
  intros H. eapply Forall_impl; [exact H|]. intros c Hc.
  by destruct (Ascii.eqb_spec c "/") as [->|].
Qed.

Lemma chars_length (s : string) : length (chars s) = String.length s.
Proof. induction s as [|c s IH]; [done|]. cbn. by rewrite <- IH. Qed.

Lemma string_snoc (s : string) : s ≠ "" → ∃ s' x, s = s' +:+ String x "".
Proof.
  induction s as [|c s IH]; [done|]. intros _. destruct s as [|d s].
  - by exists "", c.
  - destruct IH as (s' & x & Hs); [done|]. exists (String c s'), x. by rewrite Hs.
Qed.

Lemma last_segment base name :
  Forall (λ c, safe_char c = true) (chars name) →
  List.last (split "/" (base +:+ "/" +:+ name)) "" = name.
Proof.
  intros Hn. unfold split. rewrite chars_app. change (chars ("/" +:+ name)) with ("/"%char :: chars name).
  rewrite last_split_go, split_go_no_sep by (by apply safe_char_no_slash).
  cbn [List.last rev app]. apply str_chars.
Qed.

(** X17.  A clean repository name comes back as it is: from a URL that ends in
    [/name.git] or, when [name] is not empty and has no [.git] ending of its
    own, in [/name], with any number of trailing slashes. *)
Theorem safe_repo_name_round_trip (base name : string) (k : nat) :
  Forall (λ c, safe_char c = true) (chars name) →
  safe_repo_name (base +:+ "/" +:+ name +:+ ".git" +:+ slashes k) = name ∧
  (name ≠ "" → endswith ".git" name = false →
   safe_repo_name (base +:+ "/" +:+ name +:+ slashes k) = name).
Proof.
  intros Hn. split.
  - unfold safe_repo_name.
    replace (base +:+ "/" +:+ name +:+ ".git" +:+ slashes k)
      with ((base +:+ "/" +:+ name +:+ ".gi") +:+ String "t" "" +:+ slashes k)
      by (by rewrite !string_app_assoc).
    rewrite rstrip_slashes by done.
    replace ((base +:+ "/" +:+ name +:+ ".gi") +:+ String "t" "")
      with (base +:+ "/" +:+ (name +:+ ".git")) by (by rewrite !string_app_assoc).
    rewrite last_segment.
    2:{ rewrite chars_app. apply Forall_app. split; [done|]. by repeat constructor. }
    assert (endswith ".git" (name +:+ ".git") = true) as ->.
    { apply bool_decide_eq_true_2. rewrite chars_app. by apply suffix_app_r. }
    assert (drop_end 4 (name +:+ ".git") = name) as ->.
    { unfold drop_end. rewrite string_app_length, chars_app. cbn [String.length].
      rewrite Nat.add_sub. rewrite <- (str_chars name) at 3. f_equal.
      rewrite <- (chars_length name). apply take_app_length. }
    by apply sub_safe_name_id.
  - intros Hne Hgit. unfold safe_repo_name.
    destruct (string_snoc name Hne) as (name' & x & Hname).
    assert (x ≠ "/"%char) as Hx.
    { intros ->. rewrite Hname, chars_app in Hn. apply Forall_app in Hn as [_ Hn].
      by apply Forall_cons in Hn as [? _]. }
    replace (base +:+ "/" +:+ name +:+ slashes k)
      with ((base +:+ "/" +:+ name') +:+ String x "" +:+ slashes k)
      by (by rewrite Hname, !string_app_assoc).
    rewrite rstrip_slashes by done.
    replace ((base +:+ "/" +:+ name') +:+ String x "") with (base +:+ "/" +:+ name)
      by (by rewrite Hname, !string_app_assoc).
    rewrite last_segment by done. rewrite Hgit. by apply sub_safe_name_id.
Qed.

Lemma safe_repo_name_round_trip_witness :
  Forall (λ c, safe_char c = true) (chars "my-repo_2.0") ∧
  safe_repo_name ("https://github.com/user" +:+ "/" +:+ "my-repo_2.0" +:+ ".git" +:+ slashes 2)
    = "my-repo_2.0" ∧
  ("my-repo_2.0" ≠ "" → endswith ".git" "my-repo_2.0" = false →
   safe_repo_name ("https://github.com/user" +:+ "/" +:+ "my-repo_2.0" +:+ slashes 2)
     = "my-repo_2.0").
Proof.
  assert (Forall (λ c, safe_char c = true) (chars "my-repo_2.0")) as H
    by (by repeat constructor).
  split; [exact H|].
  exact (safe_repo_name_round_trip "https://github.com/user" "my-repo_2.0" 2 H).
Defined.

(** ** [utils.readme_summary] *)

(** The lines of [splitlines] hold the characters of the text that are no
    line boundaries. *)
Lemma splitlines_go_chars (P : ascii → Prop) s : ∀ cur,
  Forall P cur → Forall P (filter (λ c, is_linebreak c = false) s) →
  Forall (λ line, Forall P (chars line)) (splitlines_go cur s).
Proof.
  assert (∀ cur, Forall P cur → Forall P (chars (str (rev cur)))) as Hcur.
  { intros cur Hc. rewrite chars_str. by apply Forall_rev. }
  assert (∀ c, (code c =? 13)%N = true → is_linebreak c = true) as Hcr.
  { intros c Hc%N.eqb_eq. unfold is_linebreak, between. rewrite Hc. done. }
  induction s as [s IH] using (induction_ltof1 _ (@length ascii)). unfold ltof in IH.
  intros cur Hc Hs. destruct s as [|c s]; cbn [splitlines_go].
  - destruct cur; [constructor|]. constructor; [by apply Hcur|constructor].
  - destruct (code c =? 13)%N eqn:Hc13.
    + rewrite filter_cons_False in Hs by (by rewrite (Hcr c Hc13)).
      destruct s as [|d s'].
      * constructor; [by apply Hcur|]. apply IH; [simpl; lia|constructor|done].
      * destruct (code d =? 10)%N eqn:Hd.
        -- constructor; [by apply Hcur|]. apply IH; [simpl; lia|constructor|].
           rewrite filter_cons_False in Hs; [done|].
           apply N.eqb_eq in Hd. unfold is_linebreak, between. by rewrite Hd.
        -- constructor; [by apply Hcur|]. apply IH; [simpl; lia|constructor|done].
    + destruct (is_linebreak c) eqn:Hlb.
      * rewrite filter_cons_False in Hs by (by rewrite Hlb).
        constructor; [by apply Hcur|]. apply IH; [simpl; lia|constructor|done].
      * rewrite filter_cons_True in Hs by done. apply Forall_cons in Hs as [? ?].
        apply IH; [simpl; lia|by constructor|done].
Qed.

Lemma splitlines_one_line s : Forall one_line (splitlines s).
Proof.
  apply splitlines_go_chars; [constructor|].
  apply Forall_forall. by intros c [? _]%list_elem_of_filter.
Qed.

Lemma linebreaks_app a b : linebreaks (a +:+ b) = linebreaks a + linebreaks b.
Proof. unfold linebreaks. by rewrite chars_app, filter_app, length_app. Qed.

Lemma linebreaks_one_line s : one_line s → linebreaks s = 0.
Proof.
  unfold one_line, linebreaks. induction 1 as [|c l Hc _ IH]; [done|].
  rewrite filter_cons_False by (by rewrite Hc). done.
Qed.

Lemma linebreaks_join ls :
  Forall one_line ls → linebreaks (join LF ls) = pred (length ls).
Proof.
  induction 1 as [|l ls Hl Hls IH]; [done|].
  destruct ls as [|l' ls]; [by apply linebreaks_one_line|].
  change (join LF (l :: l' :: ls)) with (l +:+ LF +:+ join LF (l' :: ls)).
  rewrite !linebreaks_app, IH, linebreaks_one_line by done. done.
Qed.

(** X21.  [readme_summary] never returns the empty string, and what it returns
    has at most forty lines; it raises only when a candidate that exists
    cannot be read. *)
Theorem readme_summary_outcome (root : fsnode) :
  match readme_summary root with
  | Ok s => s ≠ "" ∧ linebreaks s < 40
  | Raise e =>
      ∃ cand, cand ∈ README_CANDIDATES ∧ path_exists root [cand] = true ∧
              read_text root [cand] = Raise e
  end.
Proof.
  unfold readme_summary. induction README_CANDIDATES as [|cand cands IH];
    cbn [readme_summary_from].
  - split; [done|]. vm_compute. lia.
  - destruct (path_exists root [cand]) eqn:Hex.
    + destruct (read_text root [cand]) as [text|e] eqn:Hrd; cbn [mbind result_bind].
      * destruct (String.eqb_spec (join LF (take 40 (splitlines (strip text)))) "") as [_|Hne].
        -- split; [done|]. vm_compute. lia.
        -- split; [done|]. rewrite linebreaks_join
             by (apply Forall_take, splitlines_one_line).
           rewrite length_take. lia.
      * exists cand. split_and!; [by left|done|done].
    + destruct (readme_summary_from root cands) as [s|e]; [done|].
      destruct IH as (c & Hc & ? & ?). exists c. split_and!; [by right|done|done].
Qed.

Lemma drop_while_all p (l : list ascii) :
  Forall (λ c, p c = true) l → drop_while p l = [].
Proof. induction 1 as [|c l Hc _ IH]; [done|]. cbn. by rewrite Hc. Qed.

Lemma drop_while_nil p (l : list ascii) :
  drop_while p l = [] → Forall (λ c, p c = true) l.
Proof.
  induction l as [|c l IH]; [constructor|]. cbn. destruct (p c) eqn:Hc; [|done].
  intros H. constructor; auto.
Qed.

Lemma strip_by_nil p (l : list ascii) :
  strip_by p l = [] ↔ Forall (λ c, p c = true) l.
Proof.
  unfold strip_by. split.
  - intros H. apply (f_equal (@rev ascii)) in H. rewrite rev_involutive in H. cbn in H.
    apply drop_while_nil, Forall_rev in H. rewrite rev_involutive in H.
    apply drop_while_nil. destruct (drop_while p l) as [|c l'] eqn:Hl; [done|].
    apply Forall_cons in H as [Hc _].
    assert (p c = false) as Hc'; [|congruence].
    clear -Hl. induction l as [|d l IH]; [done|]. cbn in Hl.
    destruct (p d) eqn:Hd; [by apply IH|]. by injection Hl as -> _.
  - intros H. by rewrite (drop_while_all p l H).
Qed.

Lemma blank_spaces s : blank s ↔ Forall (λ c, isspace c = true) (chars s).
Proof.
  unfold blank, strip. rewrite <- strip_by_nil. split.
  - intros H. apply (f_equal chars) in H. by rewrite chars_str in H.
  - by intros ->.
Qed.

Lemma blank_lines txt : blank txt → Forall blank (splitlines txt).
Proof.
  intros H%blank_spaces.
  eapply Forall_impl; [|intros line; apply blank_spaces].
  apply splitlines_go_chars; [constructor|].
  apply Forall_forall. intros c [_ Hc]%list_elem_of_filter.
  by eapply Forall_forall in H.
Qed.

Lemma first_summary_blank txt : blank txt → first_summary txt = None.
Proof.
  intros H%blank_lines. unfold first_summary.
  induction H as [|l ls Hl _ IH]; [done|]. cbn [map List.find].
  rewrite Hl. cbn. apply IH.
Qed.

Lemma read_readme_from_blank root nm rest txt :
  tree_lookup root [nm] = Some (File (Some txt)) → blank txt →
  read_readme_from root (nm :: rest) = read_readme_from root rest.
Proof.
  intros Hl Hb. change (read_readme_from root (nm :: rest)) with
    (if path_exists root [nm] then
       txt ← read_text root [nm];
       match first_summary txt with
       | Some line => Ok (Some line)
       | None => read_readme_from root rest
       end
     else read_readme_from root rest).
  assert (path_exists root [nm] = true) as ->
    by (unfold path_exists; rewrite Hl; by apply bool_decide_eq_true_2).
  assert (read_text root [nm] = Ok txt) as -> by (unfold read_text; by rewrite Hl).
  cbn [mbind result_bind]. by rewrite first_summary_blank.
Qed.

(** X22.  The two README readers part on a blank [README.md]: [readme_summary]
    stops at it and says the README is empty, whatever the other candidates
    hold, while [gen_docs.read_readme] goes on to the next candidate. *)
Theorem blank_readme_ends_the_search (root : fsnode) (txt : string) :
  tree_lookup root ["README.md"] = Some (File (Some txt)) →
  blank txt →
  readme_summary root = Ok "(README present but empty)" ∧
  read_readme root = read_readme_from root ["Readme.md"; "readme.md"; "README"; "README.rst"].
Proof.
  intros Hl Hb. split.
  - unfold readme_summary. cbn [README_CANDIDATES readme_summary_from].
    unfold path_exists, read_text. rewrite Hl, bool_decide_eq_true_2 by eauto.
    cbn [mbind result_bind]. unfold blank in Hb. by rewrite Hb.
  - unfold read_readme, README_FILES. by apply read_readme_from_blank with txt.
Qed.

Lemma blank_readme_ends_the_search_witness :
  tree_lookup demo_readme ["README.md"] = Some (File (Some (LF +:+ "   " +:+ LF))) ∧
  blank (LF +:+ "   " +:+ LF) ∧
  readme_summary demo_readme = Ok "(README present but empty)" ∧
  read_readme demo_readme =
    read_readme_from demo_readme ["Readme.md"; "readme.md"; "README"; "README.rst"].
Proof.
  split; [reflexivity|]. split; [reflexivity|].
  exact (blank_readme_ends_the_search demo_readme (LF +:+ "   " +:+ LF) eq_refl eq_refl).
Defined.

(** ** The order of the import edges *)

Global Instance edge_le_total : Total edge_le.
Proof.
  unfold edge_le, edge_leb. intros [a1 a2] [b1 b2]. cbn [fst snd].
  destruct (String.eqb a1 b1) eqn:Hab.
  - apply String.eqb_eq in Hab as ->. rewrite String.eqb_refl. apply (total String.le).
  - rewrite String.eqb_sym, Hab. apply (total String.le).
Qed.

Global Instance edge_le_trans : Transitive edge_le.
Proof.
  unfold edge_le, edge_leb. intros [a1 a2] [b1 b2] [c1 c2]. cbn [fst snd].
  destruct (String.eqb a1 b1) eqn:Hab.
  - apply String.eqb_eq in Hab as ->. destruct (String.eqb b1 c1); [|done].
    intros; by etrans.
  - destruct (String.eqb b1 c1) eqn:Hbc.
    + apply String.eqb_eq in Hbc as <-. by rewrite Hab.
    + intros H1 H2. assert (String.le a1 c1) as Hac by (by etrans).
      destruct (String.eqb a1 c1) eqn:Heq; [|done].
      apply String.eqb_eq in Heq as <-. apply String.eqb_neq in Hab.
      exfalso. apply Hab. by apply (anti_symm String.le).
Qed.

(** X5.  The edge lists of [py_import_edges] and [js_import_edges] are in
    ascending order of [(src, dst)] and hold no edge twice, however often
    and in whatever order the files import one another. *)
Theorem import_edges_sorted (root : fsnode) (files : list Path) :
  StronglySorted edge_le (py_import_edges root files) ∧
  NoDup (py_import_edges root files) ∧
  StronglySorted edge_le (js_import_edges root files) ∧
  NoDup (js_import_edges root files).
Proof.
  assert (∀ target,
            StronglySorted edge_le (import_edges target root files) ∧
            NoDup (import_edges target root files)) as H.
  { intros target. unfold import_edges. split.
    - apply StronglySorted_merge_sort; apply _.
    - rewrite merge_sort_Permutation. apply NoDup_elements. }
  split_and!; apply H.
Qed.

(** ** [slug_for_mermaid] *)

Lemma slug_mem c :
  PyRe.cset_mem
    (PyRe.CSet true [PyRe.CRange "A" "Z"; PyRe.CRange "a" "z"; PyRe.CRange "0" "9"]) c
  = negb (isalnum c).
Proof. destruct c as [[] [] [] [] [] [] [] []]; reflexivity. Qed.

Lemma slug_match_at prev c l :
  PyRe.match_at false slug_re prev (c :: l) =
  if isalnum c then None
  else Some (PyRe.RMatch
               (length (c :: l) - length (drop_while (λ c, negb (isalnum c)) l)) []).
Proof.
  unfold PyRe.match_at, slug_re.
  cbn [PyRe.run PyRe.ms_prev PyRe.ms_rest PyRe.ms_caps PyRe.rep].
  rewrite slug_mem. destruct (isalnum c); [done|]. cbn [negb pred].
  rewrite rep_greedy_longest by (intros; by eexists).
  cbn [PyRe.run PyRe.ms_rest PyRe.ms_caps].
  by rewrite (drop_while_ext _ _ l slug_mem).
Qed.

Lemma squash_go_run l :
  squash_go true l = squash_go false (drop_while (λ c, negb (isalnum c)) l).
Proof.
  induction l as [|c l IH]; [done|]. cbn [squash_go drop_while].
  destruct (isalnum c) eqn:Hc; cbn [negb]; [|done]. cbn [squash_go]. by rewrite Hc.
Qed.

(** The substitution of [slug_for_mermaid] squashes the runs. *)
Lemma sub_go_slug rest : ∀ prev n,
  PyRe.sub_go false slug_re ["_"%char] prev rest n = squash_go false (drop n rest).
Proof.
  induction rest as [|c l IH]; intros prev [|n]; try reflexivity.
  - cbn [PyRe.sub_go drop]. rewrite slug_match_at. cbn [squash_go].
    destruct (isalnum c) eqn:Hc.
    + by rewrite IH.
    + cbn [PyRe.m_len]. destruct (drop_while_suffix (λ c, negb (isalnum c)) l) as (k & Hk & Hd).
      replace (length (c :: l) - length (drop_while (λ c, negb (isalnum c)) l))
        with (S (length l - length (drop_while (λ c, negb (isalnum c)) l)))
        by (rewrite Hd, length_drop; simpl; lia).
      cbn [app]. rewrite IH, squash_go_run. do 2 f_equal.
      apply drop_back_to_suffix. by exists k.
  - cbn [PyRe.sub_go drop]. apply IH.
Qed.

Lemma slug_squash p :
  slug_for_mermaid p = str (strip_by (Ascii.eqb "_") (squash_go false (chars (PyPath.as_posix p)))).
Proof.
  unfold slug_for_mermaid, strip_char, PyRe.sub.
  change (chars "_") with ["_"%char]. by rewrite sub_go_slug, chars_str.
Qed.

Lemma drop_while_app p (a b : list ascii) :
  drop_while p (a ++ b) = if forallb p a then drop_while p b else drop_while p a ++ b.
Proof.
  induction a as [|c a IH]; [done|]. cbn [app drop_while forallb].
  destruct (p c); [apply IH|done].
Qed.

Lemma forallb_rev p (l : list ascii) : forallb p (rev l) = forallb p l.
Proof.
  induction l as [|c l IH]; [done|]. cbn [rev forallb].
  rewrite forallb_app, IH. cbn. rewrite andb_true_r. apply andb_comm.
Qed.

Lemma rstrip_rec_eq p (l : list ascii) : rev (drop_while p (rev l)) = rstrip_rec p l.
Proof.
  induction l as [|c l IH]; [done|]. cbn [rev rstrip_rec].
  rewrite drop_while_app, forallb_rev. destruct (forallb p l) eqn:Hl.
  - cbn [drop_while]. rewrite andb_true_r. destruct (p c); [done|].
    cbn [rev app]. f_equal. rewrite <- IH.
    rewrite (drop_while_all p (rev l)); [done|].
    apply Forall_rev, Forall_forall. intros x Hx%list_elem_of_In.
    by eapply forallb_forall in Hl.
  - rewrite andb_false_r, rev_unit. by rewrite IH.
Qed.

Lemma rstrip_rec_nil p (l : list ascii) : rstrip_rec p l = [] ↔ forallb p l = true.
Proof.
  induction l as [|c l IH]; [done|]. cbn [rstrip_rec forallb].
  destruct (p c && forallb p l); done.
Qed.

Lemma alnum_not_underscore c : isalnum c = true → Ascii.eqb "_" c = false.
Proof. destruct c as [[] [] [] [] [] [] [] []]; cbv; congruence. Qed.

Lemma squash_go_true_head l :
  drop_while (Ascii.eqb "_") (squash_go true l) = squash_go true l.
Proof.
  induction l as [|c l IH]; [done|]. cbn [squash_go].
  destruct (isalnum c) eqn:Hc; [|done]. cbn [drop_while]. by rewrite alnum_not_underscore.
Qed.

Lemma lstrip_squash l :
  drop_while (Ascii.eqb "_") (squash_go false l) = squash_go true l.
Proof.
  destruct l as [|c l]; [done|]. cbn [squash_go].
  destruct (isalnum c) eqn:Hc; cbn [drop_while].
  - by rewrite alnum_not_underscore.
  - apply squash_go_true_head.
Qed.

Lemma words_aux_nonempty l : Forall (λ w, w ≠ "") (words_aux l).2.
Proof.
  induction l as [|c l IH]; [constructor|]. cbn [words_aux].
  destruct (words_aux l) as [w ws]. cbn [snd] in *.
  destruct (isalnum c); [done|]. cbn [snd]. destruct w; [done|]. by constructor.
Qed.

Lemma words_aux_head l :
  (words_aux l).1 = [] ↔ l = [] ∨ starts_sep l = true.
Proof.
  destruct l as [|c l]; [by split; [left|]|]. cbn [words_aux starts_sep].
  destruct (words_aux l) as [w ws]. destruct (isalnum c); cbn; split; try done; auto.
  by intros [|].
Qed.

Lemma join_nonempty ws :
  ws ≠ [] → Forall (λ w, w ≠ "") ws → chars (join "_" ws) ≠ [].
Proof.
  intros Hne Hws. destruct Hws as [|w ws Hw _]; [done|].
  destruct ws; cbn [join]; [by destruct w|]. rewrite chars_app. by destruct w.
Qed.

(** Right-stripping the squashed text gives the runs joined by underscores;
    a run of other characters at the start leaves one underscore before
    them. *)
Lemma rstrip_squash l :
  rstrip_rec (Ascii.eqb "_") (squash_go true l) = wjoin l ∧
  rstrip_rec (Ascii.eqb "_") (squash_go false l) =
    if starts_sep l && negb (bool_decide (wjoin l = [])) then "_"%char :: wjoin l
    else wjoin l.
Proof.
  induction l as [|c l [IH1 IH2]]; [done|].
  pose proof (words_aux_nonempty l) as Hne. pose proof (words_aux_head l) as Hhd.
  unfold wjoin in *. cbn [squash_go words_aux starts_sep].
  destruct (words_aux l) as [w ws] eqn:Hwl. cbn [fst snd] in *.
  destruct (isalnum c) eqn:Hc; cbn [fst snd negb andb].
  - assert (rstrip_rec (Ascii.eqb "_") (c :: squash_go false l)
            = c :: rstrip_rec (Ascii.eqb "_") (squash_go false l)) as ->.
    { cbn [rstrip_rec]. by rewrite alnum_not_underscore. }
    rewrite IH2. clear IH1 IH2.
    assert (chars (join "_" (cons_word (c :: w) ws)) =
            c :: w ++ match ws with [] => [] | _ => "_"%char :: chars (join "_" ws) end) as ->.
    { cbn [cons_word]. destruct ws as [|w' ws]; cbn [join].
      - by rewrite chars_str, app_nil_r.
      - by rewrite chars_app, chars_str. }
    assert ((if starts_sep l && negb (bool_decide (chars (join "_" (cons_word w ws)) = []))
             then "_"%char :: chars (join "_" (cons_word w ws))
             else chars (join "_" (cons_word w ws))) =
            w ++ match ws with [] => [] | _ => "_"%char :: chars (join "_" ws) end) as ->; [|done].
    destruct (starts_sep l) eqn:Hs.
    + assert (w = []) as -> by (apply Hhd; by right). cbn [cons_word app andb].
      destruct ws as [|w' ws]; [done|].
      rewrite bool_decide_eq_false_2 by (by apply join_nonempty). done.
    + cbn [andb]. destruct w as [|d w].
      * destruct Hhd as [Hhd _]. destruct (Hhd eq_refl) as [->|?]; [|congruence].
        by injection Hwl as <-.
      * cbn [cons_word]. destruct ws as [|w' ws]; cbn [join].
        -- by rewrite chars_str, app_nil_r.
        -- by rewrite chars_app, chars_str.
  - change (cons_word [] (cons_word w ws)) with (cons_word w ws).
    split; [done|]. cbn [rstrip_rec]. rewrite Ascii.eqb_refl. cbn [andb].
    destruct (forallb (Ascii.eqb "_") (squash_go true l)) eqn:Hall.
    + apply rstrip_rec_nil in Hall. rewrite IH1 in Hall. rewrite Hall.
      by rewrite bool_decide_eq_true_2.
    + rewrite IH1. rewrite bool_decide_eq_false_2; [done|].
      intros Hnil. rewrite <- IH1 in Hnil. apply rstrip_rec_nil in Hnil. congruence.
Qed.

Lemma strip_squash l : strip_by (Ascii.eqb "_") (squash_go false l) = wjoin l.
Proof.
  unfold strip_by. rewrite lstrip_squash, rstrip_rec_eq. apply rstrip_squash.
Qed.

(** X2.  The slug of a path is made of the maximal runs of letters and digits of
    its POSIX form, in their order, joined by single underscores: all other
    characters, the slashes and the dot of the suffix among them, only
    separate the runs. *)
Theorem slug_is_joined_words (p : Path) :
  slug_for_mermaid p = join "_" (alnum_words (PyPath.as_posix p)).
Proof.
  rewrite slug_squash, strip_squash.
  unfold wjoin, alnum_words. destruct (words_aux _) as [w ws]. apply str_chars.
Qed.

(** X3.  Paths with the same runs of letters and digits get the same slug, so
    an import of one by the other is not an edge: the extractors compare
    slugs, not paths, before they add one. *)
Theorem same_runs_no_edge (js : bool) (root : fsnode) (files : list Path) (p q : Path) :
  alnum_words (PyPath.as_posix p) = alnum_words (PyPath.as_posix q) →
  slug_for_mermaid p = slug_for_mermaid q ∧
  (slug_for_mermaid p, slug_for_mermaid q) ∉
    (if js then js_import_edges root files else py_import_edges root files).
Proof.
  intros Hw.
  assert (slug_for_mermaid p = slug_for_mermaid q) as Hs.
  { rewrite !slug_squash, !strip_squash. unfold wjoin, alnum_words in *.
    destruct (words_aux (chars (PyPath.as_posix p))) as [w ws].
    destruct (words_aux (chars (PyPath.as_posix q))) as [w' ws']. cbn [fst snd].
    by rewrite Hw. }
  split; [done|]. intros Hin.
  assert (∃ target, (slug_for_mermaid p, slug_for_mermaid q) ∈ import_edges target root files)
    as [target Ht] by (destruct js; eauto).
  apply import_edges_origin in Ht as (p' & q' & text & line & _ & _ & _ & _ & _ & He & Hne).
  injection He as Hp Hq. congruence.
Qed.

Lemma same_runs_no_edge_witness :
  alnum_words (PyPath.as_posix ["a"; "b.py"]) = alnum_words (PyPath.as_posix ["a_b.py"]) ∧
  slug_for_mermaid ["a"; "b.py"] = slug_for_mermaid ["a_b.py"] ∧
  (slug_for_mermaid ["a"; "b.py"], slug_for_mermaid ["a_b.py"]) ∉
    py_import_edges (Dir [("a", Dir [("b.py", File (Some "import a_b"))]);
                          ("a_b.py", File (Some "x = 1"))])
      [["a"; "b.py"]; ["a_b.py"]].
Proof.
  split; [reflexivity|].
  exact (same_runs_no_edge false
           (Dir [("a", Dir [("b.py", File (Some "import a_b"))]);
                 ("a_b.py", File (Some "x = 1"))])
           [["a"; "b.py"]; ["a_b.py"]] ["a"; "b.py"] ["a_b.py"] eq_refl).
Defined.

(** ** The lines of a Mermaid block *)

Lemma splitlines_go_line l rest : ∀ cur,
  Forall (λ c, is_linebreak c = false) l →
  splitlines_go cur (l ++ chars LF ++ rest) = str (rev cur ++ l) :: splitlines_go [] rest.
Proof.
  induction l as [|c l IH]; intros cur Hl.
  - by rewrite app_nil_r.
  - apply Forall_cons in Hl as [Hc Hl]. cbn [app splitlines_go].
    assert ((code c =? 13)%N = false) as ->.
    { apply N.eqb_neq. intros H13. unfold is_linebreak, between in Hc. by rewrite H13 in Hc. }
    rewrite Hc, IH by done. cbn [rev]. by rewrite <- app_assoc.
Qed.

(** Lines without line boundaries, each ended by a line feed, are what
    [splitlines] finds in their concatenation. *)
Lemma splitlines_join ls :
  Forall one_line ls → splitlines (join LF (ls ++ [""])) = ls.
Proof.
  unfold splitlines. induction 1 as [|l ls Hl _ IH]; [done|].
  cbn [app]. rewrite join_cons by (by destruct ls).
  rewrite !chars_app, splitlines_go_line, IH by done. cbn [rev app]. by rewrite str_chars.
Qed.

Lemma one_line_app a b : one_line a → one_line b → one_line (a +:+ b).
Proof. unfold one_line. rewrite chars_app. intros. by apply Forall_app. Qed.

Lemma edge_line_one_line e : one_line e.1 → one_line e.2 → one_line (edge_line e).
Proof.
  intros H1 H2. unfold edge_line.
  repeat apply one_line_app; try done; by repeat constructor.
Qed.

(** X6.  A Mermaid block reads back line by line: the opening fence, the graph
    header, one line per edge in the order of the list, or the comment
    naming the title when there is none, and the closing fence. *)
Theorem mermaid_graph_lines (edges : list (string * string)) (title : string) :
  Forall (λ e, one_line e.1 ∧ one_line e.2) edges → one_line title →
  splitlines (mermaid_graph edges title) =
    ["```mermaid"; "graph LR"] ++
    match edges with
    | [] => ["%% No edges detected for " +:+ title]
    | _ => map edge_line edges
    end ++ ["```"].
Proof.
  intros He Ht.
  assert (one_line "```mermaid" ∧ one_line "graph LR" ∧ one_line "```" ∧
          one_line "%% No edges detected for ") as (H1 & H2 & H3 & H4)
    by (split_and!; by repeat constructor).
  destruct edges as [|e edges].
  - change (mermaid_graph [] title) with
      (join LF (["```mermaid"; "graph LR"; "%% No edges detected for " +:+ title; "```"] ++ [""])).
    rewrite splitlines_join; [done|]. repeat constructor; done.
  - unfold mermaid_graph.
    replace (["```mermaid"; "graph LR"] ++ map edge_line (e :: edges) ++ ["```"; ""])
      with ((["```mermaid"; "graph LR"] ++ map edge_line (e :: edges) ++ ["```"]) ++ [""])
      by (by rewrite <- !app_assoc).
    rewrite splitlines_join; [done|].
    apply Forall_app. split; [by repeat constructor|]. apply Forall_app. split; [|by repeat constructor].
    apply Forall_fmap. eapply Forall_impl; [exact He|]. intros e' [? ?]. by apply edge_line_one_line.
Qed.

Lemma mermaid_graph_lines_witness :
  Forall (λ e, one_line e.1 ∧ one_line e.2) [("b_py", "a_py"); ("c_py", "a_py")] ∧
  one_line "Python" ∧
  splitlines (mermaid_graph [("b_py", "a_py"); ("c_py", "a_py")] "Python") =
    ["```mermaid"; "graph LR"] ++ map edge_line [("b_py", "a_py"); ("c_py", "a_py")] ++ ["```"].
Proof.
  assert (Forall (λ e, one_line e.1 ∧ one_line e.2) [("b_py", "a_py"); ("c_py", "a_py")]) as He
    by (repeat constructor).
  assert (one_line "Python") as Ht by (repeat constructor).
  split; [exact He|]. split; [exact Ht|].
  exact (mermaid_graph_lines [("b_py", "a_py"); ("c_py", "a_py")] "Python" He Ht).
Defined.

(** ** What the walks yield *)

(** X1.  [walk_files] yields every file once: exactly the files all of whose
    enclosing directories pass the filter.  The name of the file itself is
    not tested, so a hidden file or a file called [build] is yielded. *)
Theorem walk_files_exactly (root : fsnode) (p : Path) :
  wf root →
  NoDup (walk_files root) ∧
  (p ∈ walk_files root ↔
     p ≠ [] ∧ (∃ c, tree_lookup root p = Some (File c)) ∧
     Forall (λ x, keep_dir x = true) (removelast p)).
Proof.
  intros Hwf. split; [by apply walk_files_from_NoDup|]. split.
  - intros (q & c & -> & Hq & Hl & Hk)%walk_files_from_sound; [|done]. eauto.
  - intros (Hne & [c Hl] & Hk). by apply (walk_files_from_complete p [] root c).
Qed.

Ltac prove_wf :=
  repeat match goal with
         | |- wf (File _) => apply wf_file
         | |- wf (Dir _) => apply wf_dir; [apply (bool_decide_unpack _); vm_compute; exact I|]
         | |- Forall _ _ => constructor; cbn [snd]
         end.

Lemma demo_ignored_wf : wf demo_ignored.
Proof. unfold demo_ignored. prove_wf. Qed.

Lemma walk_files_exactly_witness :
  wf demo_ignored ∧
  NoDup (walk_files demo_ignored) ∧
  (["src"; "Main.PY"] ∈ walk_files demo_ignored ↔
     ["src"; "Main.PY"] ≠ [] ∧
     (∃ c, tree_lookup demo_ignored ["src"; "Main.PY"] = Some (File c)) ∧
     Forall (λ x, keep_dir x = true) (removelast ["src"; "Main.PY"])).
Proof.
  split; [exact demo_ignored_wf|].
  exact (walk_files_exactly demo_ignored ["src"; "Main.PY"] demo_ignored_wf).
Defined.

Lemma rglob_py_from_dir d es :
  rglob_py_from d (Dir es) = own_py d es ++ flat_map (below_py d) es.
Proof.
  cbn [rglob_py_from]. f_equal. induction es as [|[nm sub] es IH]; [done|].
  cbn [flat_map]. by rewrite IH.
Qed.

Lemma last_cons_ne {A} (x : A) l : l ≠ [] → last (x :: l) = last l.
Proof. by destruct l. Qed.

(** Every entry below the root whose name ends in [.py] is found. *)
Lemma rglob_py_from_complete q : ∀ d t,
  q ≠ [] → is_Some (tree_lookup t q) → endswith ".py" (PyPath.name q) = true →
  d ++ q ∈ rglob_py_from d t.
Proof.
  induction q as [|nm q IH]; intros d t Hne [x Hl] Hpy; [done|].
  destruct t as [c'|es]; [done|]. cbn [tree_lookup] in Hl.
  destruct (entry nm es) as [sub|] eqn:He; cbn in Hl; [|done].
  apply entry_elem in He. rewrite rglob_py_from_dir. apply elem_of_app.
  destruct q as [|nm' q'].
  - left. unfold own_py. apply (list_elem_of_fmap_2' _ _ (nm, sub)); [|done].
    by apply list_elem_of_filter.
  - right. destruct sub as [c'|es']; [done|].
    apply list_elem_of_In, in_flat_map. exists (nm, Dir es').
    split; [by apply list_elem_of_In|]. apply list_elem_of_In.
    unfold below_py. cbn [fst snd is_dir].
    replace (d ++ nm :: nm' :: q') with ((d ++ [nm]) ++ nm' :: q')
      by (by rewrite <- app_assoc).
    apply IH; [done|by eexists|].
    unfold PyPath.name in *. by rewrite last_cons_ne in Hpy.
Qed.

(** In a well-formed tree, what is found is an entry below the root whose
    name ends in [.py]. *)
Lemma rglob_py_from_sound t : ∀ d p,
  wf t → p ∈ rglob_py_from d t →
  ∃ q, p = d ++ q ∧ q ≠ [] ∧ is_Some (tree_lookup t q) ∧
       endswith ".py" (PyPath.name q) = true.
Proof.
  induction t as [c|es IH] using fsnode_ind; intros d p Hwf Hp.
  - by apply elem_of_nil in Hp.
  - inversion Hwf as [|es' Hnd Hsub]; subst.
    rewrite rglob_py_from_dir in Hp. apply elem_of_app in Hp as [Hp|Hp].
    + unfold own_py in Hp. apply list_elem_of_fmap in Hp as ([nm sub] & -> & He).
      apply list_elem_of_filter in He as [Hpy He]. cbn [fst] in *.
      exists [nm]. split_and!; [done|done| |done].
      cbn [tree_lookup]. rewrite (entry_of_elem _ _ _ Hnd He). by eexists.
    + apply list_elem_of_In, in_flat_map in Hp as ([nm sub] & He & Hp).
      apply list_elem_of_In in He, Hp. unfold below_py in Hp. cbn [fst snd] in Hp.
      destruct (is_dir sub); [|by apply elem_of_nil in Hp].
      rewrite Forall_forall in IH, Hsub.
      destruct (IH _ He _ _ (Hsub _ He) Hp) as (q & -> & Hq & Hl & Hpy).
      exists (nm :: q). split_and!.
      * by rewrite <- app_assoc.
      * done.
      * cbn [tree_lookup]. by rewrite (entry_of_elem _ _ _ Hnd He).
      * unfold PyPath.name in *. by rewrite last_cons_ne.
Qed.

(** ** [simple_fs.list_py_files] *)

(** X13.  [list_py_files] returns, in ascending order of the strings, the
    relative paths of exactly the entries below the root whose name ends
    in [.py]: files and directories, those inside hidden or ignored
    directories included, names ending in [.PY] excluded. *)
Theorem list_py_files_exactly (root : fsnode) (s : string) :
  wf root →
  StronglySorted String.le (list_py_files root) ∧
  (s ∈ list_py_files root ↔
     ∃ p, s = PyPath.as_posix p ∧ p ≠ [] ∧ is_Some (tree_lookup root p) ∧
          endswith ".py" (PyPath.name p) = true).
Proof.
  intros Hwf. unfold list_py_files. split.
  - apply StronglySorted_merge_sort; apply _.
  - rewrite merge_sort_Permutation, list_elem_of_fmap. split.
    + intros (p & -> & Hp). apply rglob_py_from_sound in Hp as (q & -> & ? & ? & ?); [|done].
      by exists q.
    + intros (p & -> & Hne & Hl & Hpy). exists p. split; [done|].
      by apply (rglob_py_from_complete p []).
Qed.

Lemma list_py_files_exactly_witness :
  wf demo_ignored ∧
  StronglySorted String.le (list_py_files demo_ignored) ∧
  (".git/q.py" ∈ list_py_files demo_ignored ↔
     ∃ p, ".git/q.py" = PyPath.as_posix p ∧ p ≠ [] ∧
          is_Some (tree_lookup demo_ignored p) ∧ endswith ".py" (PyPath.name p) = true).
Proof.
  split; [exact demo_ignored_wf|].
  exact (list_py_files_exactly demo_ignored ".git/q.py" demo_ignored_wf).
Defined.

(** ** [build_ccg] and the files it reads *)

Lemma scan_paths_read str_of t ps : ∀ st,
  match mapM (read_source str_of t) ps with
  | Ok files => foldM (scan_path str_of t) st ps = foldM (scan_file real_calls) st files
  | Raise _ => ∃ e, foldM (scan_path str_of t) st ps = Raise e
  end.
Proof.
  induction ps as [|p ps IH]; intros st; [done|].
  change (mapM (read_source str_of t) (p :: ps)) with
    (y ← read_source str_of t p; k ← mapM (read_source str_of t) ps; mret (y :: k)).
  change (foldM (scan_path str_of t) st (p :: ps)) with
    (s' ← scan_path str_of t st p; foldM (scan_path str_of t) s' ps).
  destruct (read_text t p) as [text|e] eqn:Hrd.
  - assert (read_source str_of t p = Ok (str_of p, text)) as ->
      by (unfold read_source; by rewrite Hrd).
    assert (scan_path str_of t st p = scan_file real_calls st (str_of p, text)) as ->
      by (unfold scan_path; by rewrite Hrd).
    cbn [mbind result_bind].
    destruct (scan_file real_calls st (str_of p, text)) as [st'|e] eqn:Hscan;
      cbn [mbind result_bind].
    + specialize (IH st'). destruct (mapM (read_source str_of t) ps) as [files|e];
        cbn [mbind result_bind mret result_ret]; [|done].
      cbn [foldM]. by rewrite Hscan.
    + destruct (mapM (read_source str_of t) ps) as [files|e'];
        cbn [mbind result_bind mret result_ret]; [|by eexists].
      cbn [foldM]. by rewrite Hscan.
  - assert (read_source str_of t p = Raise e) as ->
      by (unfold read_source; by rewrite Hrd).
    assert (scan_path str_of t st p = Raise e) as ->
      by (unfold scan_path; by rewrite Hrd).
    cbn [mbind result_bind]. by eexists.
Qed.

(** X9.  [build_ccg] reads every entry [rglob] finds.  When all of them can be
    read it does what it does on their texts; one that cannot, a
    directory whose name ends in [.py] for one, makes the call raise. *)
Theorem build_ccg_at_reads (str_of : Path → string) (t : fsnode) :
  match mapM (read_source str_of t) (rglob_py t) with
  | Ok files => build_ccg_at str_of t = build_ccg files
  | Raise _ => ∃ e, build_ccg_at str_of t = Raise e
  end ∧
  (∀ p es, p ∈ rglob_py t → tree_lookup t p = Some (Dir es) →
           ∃ e, build_ccg_at str_of t = Raise e).
Proof.
  pose proof (scan_paths_read str_of t (rglob_py t) (Graph [] [], MkMeta 0 0 0)) as H.
  fold (build_ccg_at str_of t) in H. split; [exact H|].
  intros p es Hp Hl.
  destruct (mapM (read_source str_of t) (rglob_py t)) as [files|e] eqn:Hm; [|done].
  exfalso. clear H. revert files Hm. induction (rglob_py t) as [|p' ps IH]; intros files Hm.
  - by apply elem_of_nil in Hp.
  - change (mapM (read_source str_of t) (p' :: ps)) with
      (y ← read_source str_of t p'; k ← mapM (read_source str_of t) ps; mret (y :: k)) in Hm.
    apply elem_of_cons in Hp as [<-|Hp].
    + assert (read_source str_of t p = Raise OSError) as Hr
        by (unfold read_source, read_text; by rewrite Hl).
      by rewrite Hr in Hm.
    + destruct (read_source str_of t p'); cbn [mbind result_bind] in Hm; [|done].
      destruct (mapM (read_source str_of t) ps) as [files'|]; [|done]. by eapply IH.
Qed.

(** ** What [build_ccg] returns: counters, attributes, and the dot graph *)

(** X8.  [build_ccg] raises exactly when some file declares two different
    function names, and what it raises then is [re.error]. *)
Theorem build_ccg_raises_exactly (files : list (string * string)) :
  (build_ccg files = Raise ReError ↔ ¬ one_function_each files) ∧
  (∀ e, build_ccg files = Raise e → e = ReError).
Proof.
  pose proof (build_ccg_outcome files) as H.
  destruct (build_ccg files) as [[g meta]|e].
  - destruct H as [Hone _]. split; [|done]. split; [done|]. by intros Hn.
  - destruct H as [-> Hn]. split; [done|]. by intros e [= <-].
Qed.

Section Declarations.
Context (calls : string → string → result bool).

Lemma scan_file_declares file text g meta :
  (∀ a b, a ∈ funcs_of text → b ∈ funcs_of text → a = b) →
  scan_file calls (g, meta) (file, text) =
  Ok (declare_all g (file, text),
      MkMeta (S (files_analyzed meta)) (functions meta + length (funcs_of text))
        (classes meta + length (clss_of text))).
Proof.
  intros Hf. unfold scan_file, declare_all. cbn [fst snd].
  by rewrite caller_edges_same by done.
Qed.

Lemma foldM_scan_declares files : ∀ g meta,
  one_function_each files →
  foldM (scan_file calls) (g, meta) files =
  Ok (foldl declare_all g files,
      MkMeta (files_analyzed meta + length files)
        (functions meta + length (all_funcs files))
        (classes meta + length (all_clss files))).
Proof.
  induction files as [|[file text] files IH]; intros g meta Hone.
  - cbn [foldM foldl all_funcs all_clss flat_map length]. rewrite !Nat.add_0_r. by destruct meta.
  - apply Forall_cons in Hone as [Hf Hone]. cbn [snd] in Hf.
    cbn [foldM]. rewrite scan_file_declares by done. cbn [mbind result_bind].
    rewrite IH by done. cbn [foldl files_analyzed functions classes].
    unfold all_funcs, all_clss. cbn [flat_map snd length]. rewrite !length_app.
    do 2 f_equal. f_equal; lia.
Qed.
End Declarations.

(** When [build_ccg] returns, it returns the graph of the declarations and
    their counts. *)
Lemma build_ccg_declared files g meta :
  build_ccg files = Ok (g, meta) →
  one_function_each files ∧ g = declared_graph files ∧
  meta = MkMeta (length files) (length (all_funcs files)) (length (all_clss files)).
Proof.
  intros Hrun. pose proof (build_ccg_outcome files) as H. rewrite Hrun in H.
  destruct H as [Hone _]. split; [done|].
  unfold build_ccg, build_ccg_with in Hrun.
  rewrite foldM_scan_declares in Hrun by done. by injection Hrun as <- <-.
Qed.

Lemma upsert_length {K} `{EqDecision K} (k : K) attrs l :
  (length l ≤ length (upsert k attrs l) ≤ S (length l))%nat.
Proof.
  induction l as [|[k' a] l IH]; cbn [upsert length]; [lia|].
  destruct (decide (k = k')); cbn [length]; lia.
Qed.

Lemma add_nodes_length (mk : string → string) attrs names : ∀ g,
  (length (g_nodes (foldl (λ g x, add_node (mk x) attrs g) g names))
   ≤ length (g_nodes g) + length names)%nat.
Proof.
  induction names as [|x names IH]; intros g; cbn [foldl length]; [lia|].
  etrans; [apply IH|]. cbn [add_node g_nodes].
  pose proof (upsert_length (mk x) attrs (g_nodes g)). lia.
Qed.

Lemma declared_graph_length files : ∀ g,
  (length (g_nodes (foldl declare_all g files))
   ≤ length (g_nodes g) + length (all_funcs files) + length (all_clss files))%nat.
Proof.
  induction files as [|f files IH]; intros g; cbn [foldl]; [unfold all_funcs, all_clss; simpl; lia|].
  etrans; [apply IH|]. unfold all_funcs, all_clss. cbn [flat_map]. rewrite !length_app.
  unfold declare_all.
  pose proof (add_nodes_length (String.app "class::") {[ "kind" := "class"; "file" := f.1 ]}
                (clss_of f.2)
                (foldl (λ g x, add_node ("func::" +:+ x) {[ "kind" := "func"; "file" := f.1 ]} g)
                   g (funcs_of f.2))) as H1.
  pose proof (add_nodes_length (String.app "func::") {[ "kind" := "func"; "file" := f.1 ]}
                (funcs_of f.2) g) as H2.
  cbn beta in *. lia.
Qed.

(** X10.  The counters [build_ccg] returns: the files read, and the [def] and
    [class] lines found in them, each counted as often as it occurs.  The
    nodes are one per name, so there are at most as many as the counters
    add up to. *)
Theorem build_ccg_counts (files : list (string * string)) (g : DiGraph) (meta : Meta) :
  build_ccg files = Ok (g, meta) →
  files_analyzed meta = length files ∧
  functions meta = length (all_funcs files) ∧
  classes meta = length (all_clss files) ∧
  (length (g_nodes g) ≤ functions meta + classes meta)%nat.
Proof.
  intros (_ & -> & ->)%build_ccg_declared. split_and!; [done|done|done|].
  cbn [functions classes]. apply (declared_graph_length files (Graph [] [])).
Qed.

Lemma build_ccg_counts_witness :
  build_ccg [("a.py", "def f(): pass" +:+ LF +:+ "def f(): pass" +:+ LF +:+ "class C:")]
    = Ok (Graph [("func::f", {[ "kind" := "func"; "file" := "a.py" ]});
                 ("class::C", {[ "kind" := "class"; "file" := "a.py" ]})] [],
          MkMeta 1 2 1) ∧
  files_analyzed (MkMeta 1 2 1) = 1 ∧
  functions (MkMeta 1 2 1) =
    length (all_funcs [("a.py", "def f(): pass" +:+ LF +:+ "def f(): pass" +:+ LF +:+ "class C:")]) ∧
  classes (MkMeta 1 2 1) =
    length (all_clss [("a.py", "def f(): pass" +:+ LF +:+ "def f(): pass" +:+ LF +:+ "class C:")]) ∧
  (length [("func::f", ({[ "kind" := "func"; "file" := "a.py" ]} : gmap string string));
          ("class::C", {[ "kind" := "class"; "file" := "a.py" ]})] ≤ 2 + 1)%nat.
Proof.
  assert (build_ccg [("a.py", "def f(): pass" +:+ LF +:+ "def f(): pass" +:+ LF +:+ "class C:")]
    = Ok (Graph [("func::f", {[ "kind" := "func"; "file" := "a.py" ]});
                 ("class::C", {[ "kind" := "class"; "file" := "a.py" ]})] [],
          MkMeta 1 2 1)) as H by (vm_compute; reflexivity).
  split; [exact H|]. exact (build_ccg_counts _ _ _ H).
Defined.

Lemma two_keys_union a b : two_keys a → two_keys b → a ∪ b = a.
Proof.
  intros (k & f & ->) (k' & f' & ->). apply map_eq. intros i.
  rewrite lookup_union.
  destruct (decide (i = "kind")) as [->|Hk]; [by rewrite !lookup_insert_eq|].
  rewrite !lookup_insert_ne by done.
  destruct (decide (i = "file")) as [->|Hf]; [by rewrite !lookup_singleton_eq|].
  by rewrite !lookup_singleton_ne.
Qed.

Lemma upsert_elem {K} `{EqDecision K} (k n : K) attrs a l :
  NoDup l.*1 → (n, a) ∈ upsert k attrs l →
  (n = k ∧ ((∃ old, (k, old) ∈ l ∧ a = attrs ∪ old) ∨ a = attrs)) ∨
  (n ≠ k ∧ (n, a) ∈ l).
Proof.
  induction l as [|[k' a'] l IH]; intros Hnd Hin; cbn [upsert] in Hin.
  - apply list_elem_of_singleton in Hin as [= -> ->]. left. split; [done|by right].
  - rewrite fmap_cons in Hnd. apply NoDup_cons in Hnd as [Hk' Hnd]. cbn [fst] in Hk'.
    destruct (decide (k = k')) as [<-|Hne].
    + apply elem_of_cons in Hin as [[= -> ->]|Hin].
      * left. split; [done|]. left. exists a'. split; [by left|done].
      * right. split; [|by right]. intros ->. apply Hk'.
        by apply (list_elem_of_fmap_2 fst) in Hin.
    + apply elem_of_cons in Hin as [[= -> ->]|Hin].
      * right. split; [done|by left].
      * destruct (IH Hnd Hin) as [[-> [[old [Hold ->]]| ->]]|[Hn Hl]].
        -- left. split; [done|]. left. exists old. split; [by right|done].
        -- left. split; [done|by right].
        -- right. split; [done|by right].
Qed.

Lemma add_nodes_attrs (mk : string → string) attrs names : ∀ g,
  NoDup (g_nodes g).*1 → Forall (λ nd, two_keys nd.2) (g_nodes g) → two_keys attrs →
  let g' := foldl (λ g x, add_node (mk x) attrs g) g names in
  Forall (λ nd, two_keys nd.2) (g_nodes g') ∧
  ∀ n a, (n, a) ∈ g_nodes g' →
    (n ∈ map mk names ∧ a = attrs) ∨ ((n ∉ map mk names) ∧ (n, a) ∈ g_nodes g).
Proof.
  induction names as [|x names IH]; intros g Hnd Htk Hattrs; cbn [foldl map].
  - split; [done|]. intros n a Hin. right. split; [by intros ?%elem_of_nil|done].
  - assert (∀ n a, (n, a) ∈ g_nodes (add_node (mk x) attrs g) →
              (n = mk x ∧ a = attrs) ∨ (n ≠ mk x ∧ (n, a) ∈ g_nodes g)) as Hstep.
    { intros n a Hin. cbn [add_node g_nodes] in Hin.
      apply upsert_elem in Hin as [[-> [[old [Hold ->]]| ->]]|?]; [|by left|by right|done].
      left. split; [done|]. apply two_keys_union; [done|].
      rewrite Forall_forall in Htk. apply (Htk _ Hold). }
    destruct (IH (add_node (mk x) attrs g)) as [Htk' Hin']; [| |done|].
    + cbn [add_node g_nodes]. by apply upsert_keys_NoDup.
    + apply Forall_forall. intros [n a] Hin. cbn [snd].
      destruct (Hstep n a Hin) as [[_ ->]|[_ Hold]]; [done|].
      rewrite Forall_forall in Htk. apply (Htk _ Hold).
    + split; [done|]. intros n a Hin.
      destruct (Hin' n a Hin) as [[Hn ->]|[Hn Hg1]].
      * left. split; [by right|done].
      * destruct (Hstep n a Hg1) as [[-> ->]|[Hne Hg]].
        -- left. split; [by left|done].
        -- right. split; [|done]. by intros [?|?]%elem_of_cons.
Qed.

Lemma kind_of_func x : kind_of ("func::" +:+ x) = "func".
Proof. by destruct x. Qed.
Lemma kind_of_class c : kind_of ("class::" +:+ c) = "class".
Proof. reflexivity. Qed.

(** One file: the nodes it declares carry its path, the others are left as
    they were. *)
Lemma declare_all_attrs g f :
  NoDup (g_nodes g).*1 → Forall (λ nd, two_keys nd.2) (g_nodes g) →
  NoDup (g_nodes (declare_all g f)).*1 ∧
  Forall (λ nd, two_keys nd.2) (g_nodes (declare_all g f)) ∧
  ∀ n a, (n, a) ∈ g_nodes (declare_all g f) →
    (n ∈ declared_in f.2 ∧ a = {[ "kind" := kind_of n; "file" := f.1 ]}) ∨
    ((n ∉ declared_in f.2) ∧ (n, a) ∈ g_nodes g).
Proof.
  intros Hnd Htk. unfold declare_all.
  destruct (add_nodes_spec (String.app "func::") {[ "kind" := "func"; "file" := f.1 ]}
              (funcs_of f.2) g) as (_ & Hnd1 & _).
  destruct (add_nodes_attrs (String.app "func::") {[ "kind" := "func"; "file" := f.1 ]}
              (funcs_of f.2) g) as [Htk1 Hin1]; [done|done|by eexists _, _|].
  set (g1 := foldl _ g (funcs_of f.2)) in *.
  destruct (add_nodes_spec (String.app "class::") {[ "kind" := "class"; "file" := f.1 ]}
              (clss_of f.2) g1) as (_ & Hnd2 & _).
  destruct (add_nodes_attrs (String.app "class::") {[ "kind" := "class"; "file" := f.1 ]}
              (clss_of f.2) g1) as [Htk2 Hin2]; [by apply Hnd1|done|by eexists _, _|].
  split_and!; [by apply Hnd2, Hnd1|done|].
  intros n a Hin. unfold declared_in. rewrite elem_of_app.
  destruct (Hin2 n a Hin) as [[Hn ->]|[Hn Hg1]].
  - left. split; [by right|]. apply list_elem_of_fmap in Hn as (c & -> & _).
    by rewrite kind_of_class.
  - destruct (Hin1 n a Hg1) as [[Hn' ->]|[Hn' Hg]].
    + left. split; [by left|]. apply list_elem_of_fmap in Hn' as (x & -> & _).
      by rewrite kind_of_func.
    + right. split; [|done]. by intros [?|?].
Qed.

Lemma last_declaring_cons f files n :
  last_declaring (f :: files) n =
  match last_declaring files n with
  | Some f' => Some f'
  | None => if decide (n ∈ declared_in f.2) then Some f else None
  end.
Proof.
  unfold last_declaring. destruct (decide (n ∈ declared_in f.2)) as [Hn|Hn].
  - rewrite filter_cons_True by done.
    destruct (filter _ files) as [|f' fs] eqn:Hf; [done|]. rewrite last_cons_ne by done.
    destruct (last (f' :: fs)) eqn:Hl; [done|]. by apply last_None in Hl.
  - rewrite filter_cons_False by done. by destruct (last _).
Qed.

Lemma declared_graph_attrs files : ∀ g,
  NoDup (g_nodes g).*1 → Forall (λ nd, two_keys nd.2) (g_nodes g) →
  ∀ n a, (n, a) ∈ g_nodes (foldl declare_all g files) →
    match last_declaring files n with
    | Some f => a = {[ "kind" := kind_of n; "file" := f.1 ]}
    | None => (n, a) ∈ g_nodes g
    end.
Proof.
  induction files as [|f files IH]; intros g Hnd Htk n a Hin; [done|].
  cbn [foldl] in Hin. destruct (declare_all_attrs g f Hnd Htk) as (Hnd1 & Htk1 & Hin1).
  specialize (IH _ Hnd1 Htk1 n a Hin). rewrite last_declaring_cons.
  destruct (last_declaring files n) as [f'|]; [done|].
  destruct (Hin1 n a IH) as [[Hn ->]|[Hn Hg]].
  - by rewrite decide_True.
  - by rewrite decide_False.
Qed.

Lemma last_declaring_elem files n f :
  last_declaring files n = Some f → f ∈ files ∧ n ∈ declared_in f.2.
Proof.
  unfold last_declaring. intros Hl. apply last_Some in Hl as [l' Hl].
  assert (f ∈ filter (λ f, n ∈ declared_in f.2) files) as Hf
    by (rewrite Hl; apply elem_of_app; right; by left).
  by apply list_elem_of_filter in Hf as [? ?].
Qed.

(** X11.  The attributes of a node [build_ccg] returns: the kind its id spells,
    and the path of the last file of the bucket that declares it; a name
    declared in several files is one node, with the path of the last. *)
Theorem build_ccg_node_attrs (files : list (string * string)) (g : DiGraph) (meta : Meta)
    (n : string) (attrs : gmap string string) :
  build_ccg files = Ok (g, meta) → (n, attrs) ∈ g_nodes g →
  ∃ file text,
    last_declaring files n = Some (file, text) ∧
    attrs = {[ "kind" := kind_of n; "file" := file ]}.
Proof.
  intros (_ & -> & _)%build_ccg_declared Hin.
  pose proof (declared_graph_attrs files (Graph [] []) (NoDup_nil_2 : NoDup [])
                (Forall_nil_2 _) n attrs Hin) as H.
  destruct (last_declaring files n) as [[file text]|]; [|by apply elem_of_nil in H].
  by exists file, text.
Qed.

Lemma build_ccg_node_attrs_witness :
  build_ccg [("a.py", "def f(): pass"); ("b.py", "def f(): return 1")]
    = Ok (Graph [("func::f", {[ "kind" := "func"; "file" := "b.py" ]})] [], MkMeta 2 2 0) ∧
  ("func::f", ({[ "kind" := "func"; "file" := "b.py" ]} : gmap string string))
    ∈ [("func::f", ({[ "kind" := "func"; "file" := "b.py" ]} : gmap string string))] ∧
  ∃ file text,
    last_declaring [("a.py", "def f(): pass"); ("b.py", "def f(): return 1")] "func::f"
      = Some (file, text) ∧
    ({[ "kind" := "func"; "file" := "b.py" ]} : gmap string string)
      = {[ "kind" := kind_of "func::f"; "file" := file ]}.
Proof.
  assert (build_ccg [("a.py", "def f(): pass"); ("b.py", "def f(): return 1")]
    = Ok (Graph [("func::f", {[ "kind" := "func"; "file" := "b.py" ]})] [], MkMeta 2 2 0))
    as H by (vm_compute; reflexivity).
  assert (("func::f", ({[ "kind" := "func"; "file" := "b.py" ]} : gmap string string))
    ∈ [("func::f", ({[ "kind" := "func"; "file" := "b.py" ]} : gmap string string))]) as Hin
    by (by left).
  split; [exact H|]. split; [exact Hin|].
  exact (build_ccg_node_attrs _ _ _ _ _ H Hin).
Defined.

Ltac skip_char :=
  cbn [find_after];
  match goal with
  | |- context [String.prefix ?a ?b] => change (String.prefix a b) with false
  end; cbv iota.

Lemma after_first_func f : after_first "::" ("func::" +:+ f) = f.
Proof.
  unfold after_first.
  assert (find_after "::" ("func::" +:+ f) = Some (str (chars f))) as ->; [|apply str_chars].
  change ("func::" +:+ f) with
    (String "f" (String "u" (String "n" (String "c" (String ":" (String ":" f)))))).
  do 4 skip_char. cbn [find_after].
  assert (String.prefix "::" (String ":" (String ":" f)) = true) as -> by (by destruct f).
  reflexivity.
Qed.

Lemma after_first_class c : after_first "::" ("class::" +:+ c) = c.
Proof.
  unfold after_first.
  assert (find_after "::" ("class::" +:+ c) = Some (str (chars c))) as ->; [|apply str_chars].
  change ("class::" +:+ c) with
    (String "c" (String "l" (String "a" (String "s" (String "s" (String ":" (String ":" c))))))).
  do 5 skip_char. cbn [find_after].
  assert (String.prefix "::" (String ":" (String ":" c)) = true) as -> by (by destruct c).
  reflexivity.
Qed.

Lemma node_stmt_func f file :
  node_stmt ("func::" +:+ f, {[ "kind" := "func"; "file" := file ]}) =
  DotNode ("func::" +:+ f) ("func\n" +:+ f) "ellipse".
Proof. unfold node_stmt. cbn [fst snd]. by rewrite after_first_func. Qed.

Lemma node_stmt_class c file :
  node_stmt ("class::" +:+ c, {[ "kind" := "class"; "file" := file ]}) =
  DotNode ("class::" +:+ c) ("class\n" +:+ c) "box".
Proof. unfold node_stmt. cbn [fst snd]. by rewrite after_first_class. Qed.

Lemma edges_view_nil g : g_edges g = [] → edges_view g = [].
Proof.
  unfold edges_view. intros ->. induction (g_nodes g).*1 as [|n ns IH]; [done|].
  cbn [flat_map]. by rewrite IH.
Qed.

(** X12.  From a graph [build_ccg] returns, [graph_to_dot] draws one ellipse per
    function name declared in the bucket, labelled [func\n] and the name,
    one box per class name, labelled [class\n] and the name, and nothing
    else: no edge at all. *)
Theorem graph_to_dot_of_build_ccg (files : list (string * string)) (g : DiGraph)
    (meta : Meta) (stmt : dot_stmt) :
  build_ccg files = Ok (g, meta) →
  stmt ∈ d_body (graph_to_dot g) ↔
    (∃ f, f ∈ all_funcs files ∧
          stmt = DotNode ("func::" +:+ f) ("func\n" +:+ f) "ellipse") ∨
    (∃ c, c ∈ all_clss files ∧
          stmt = DotNode ("class::" +:+ c) ("class\n" +:+ c) "box").
Proof.
  intros Hrun. pose proof (build_ccg_outcome files) as Hout. rewrite Hrun in Hout.
  destruct Hout as [Hone Hedges].
  destruct (build_from_one_function_each real_calls files (Graph [] []) (MkMeta 0 0 0) Hone)
    as (g' & meta' & Hrun' & _ & _ & Hnodes).
  unfold build_ccg, build_ccg_with in Hrun. rewrite Hrun in Hrun'. injection Hrun' as <- <-.
  assert (∀ n a, (n, a) ∈ g_nodes g →
            ∃ file text, last_declaring files n = Some (file, text) ∧
                         a = {[ "kind" := kind_of n; "file" := file ]}) as Hattrs.
  { intros n a Hin. apply build_ccg_declared in Hrun as (_ & -> & _).
    pose proof (declared_graph_attrs files (Graph [] []) (NoDup_nil_2 : NoDup [])
                  (Forall_nil_2 _) n a Hin) as H.
    destruct (last_declaring files n) as [[file text]|]; [|by apply elem_of_nil in H].
    by exists file, text. }
  assert (∀ f, f ∈ all_funcs files ↔ ∃ file text, (file, text) ∈ files ∧ f ∈ funcs_of text)
    as Hfuncs.
  { intros f. unfold all_funcs. rewrite list_elem_of_In, in_flat_map. split.
    - intros ([file text] & ?%list_elem_of_In & ?%list_elem_of_In). by exists file, text.
    - intros (file & text & ? & ?). exists (file, text). by rewrite <- !list_elem_of_In. }
  assert (∀ c, c ∈ all_clss files ↔ ∃ file text, (file, text) ∈ files ∧ c ∈ clss_of text)
    as Hclss.
  { intros c. unfold all_clss. rewrite list_elem_of_In, in_flat_map. split.
    - intros ([file text] & ?%list_elem_of_In & ?%list_elem_of_In). by exists file, text.
    - intros (file & text & ? & ?). exists (file, text). by rewrite <- !list_elem_of_In. }
  unfold graph_to_dot. cbn [d_body]. rewrite edges_view_nil, app_nil_r by done.
  rewrite list_elem_of_fmap. split.
  - intros ([n a] & -> & Hin). destruct (Hattrs n a Hin) as (file & text & Hlast & ->).
    apply last_declaring_elem in Hlast as [Hfile Hdecl]. cbn [snd] in Hdecl.
    unfold declared_in in Hdecl. apply elem_of_app in Hdecl as [Hd|Hd];
      apply list_elem_of_fmap in Hd as (x & -> & Hx).
    + left. exists x. split; [apply Hfuncs; by exists file, text|].
      rewrite kind_of_func. apply node_stmt_func.
    + right. exists x. split; [apply Hclss; by exists file, text|].
      rewrite kind_of_class. apply node_stmt_class.
  - intros [(f & Hf & ->)|(c & Hc & ->)].
    + apply Hfuncs in Hf as (file & text & Hfile & Hf).
      assert ("func::" +:+ f ∈ (g_nodes g).*1) as Hn.
      { apply Hnodes. right. unfold declared. apply list_elem_of_In, in_flat_map.
        exists (file, text). split; [by apply list_elem_of_In|]. apply list_elem_of_In.
        unfold declared_in. apply elem_of_app. left. by apply list_elem_of_fmap_2. }
      apply list_elem_of_fmap in Hn as ([n a] & Hn & Hin). cbn [fst] in Hn. subst n.
      destruct (Hattrs _ a Hin) as (file' & text' & _ & ->).
      exists ("func::" +:+ f, {[ "kind" := kind_of ("func::" +:+ f); "file" := file' ]}).
      split; [|done]. rewrite kind_of_func. symmetry. apply node_stmt_func.
    + apply Hclss in Hc as (file & text & Hfile & Hc).
      assert ("class::" +:+ c ∈ (g_nodes g).*1) as Hn.
      { apply Hnodes. right. unfold declared. apply list_elem_of_In, in_flat_map.
        exists (file, text). split; [by apply list_elem_of_In|]. apply list_elem_of_In.
        unfold declared_in. apply elem_of_app. right. by apply list_elem_of_fmap_2. }
      apply list_elem_of_fmap in Hn as ([n a] & Hn & Hin). cbn [fst] in Hn. subst n.
      destruct (Hattrs _ a Hin) as (file' & text' & _ & ->).
      exists ("class::" +:+ c, {[ "kind" := kind_of ("class::" +:+ c); "file" := file' ]}).
      split; [|done]. rewrite kind_of_class. symmetry. apply node_stmt_class.
Qed.

Lemma graph_to_dot_of_build_ccg_witness :
  build_ccg demo_calls
    = Ok (Graph [("func::f", {[ "kind" := "func"; "file" := "a.py" ]});
                 ("func::g", {[ "kind" := "func"; "file" := "b.py" ]})] [], MkMeta 2 2 0) ∧
  (DotNode "func::g" "func\ng" "ellipse"
     ∈ d_body (graph_to_dot
                 (Graph [("func::f", {[ "kind" := "func"; "file" := "a.py" ]});
                         ("func::g", {[ "kind" := "func"; "file" := "b.py" ]})] [])) ↔
   (∃ f, f ∈ all_funcs demo_calls ∧
         DotNode "func::g" "func\ng" "ellipse"
           = DotNode ("func::" +:+ f) ("func\n" +:+ f) "ellipse") ∨
   (∃ c, c ∈ all_clss demo_calls ∧
         DotNode "func::g" "func\ng" "ellipse"
           = DotNode ("class::" +:+ c) ("class\n" +:+ c) "box")).
Proof.
  assert (build_ccg demo_calls
    = Ok (Graph [("func::f", {[ "kind" := "func"; "file" := "a.py" ]});
                 ("func::g", {[ "kind" := "func"; "file" := "b.py" ]})] [], MkMeta 2 2 0))
    as H by (vm_compute; reflexivity).
  split; [exact H|].
  exact (graph_to_dot_of_build_ccg demo_calls _ _ (DotNode "func::g" "func\ng" "ellipse") H).
Defined.

(** ** [utils.file_tree] *)

Lemma file_tree_walk_dir d es :
  file_tree_walk d (Dir es) = merge_sort item_le (flat_map (walk_item d) es).
Proof.
  cbn [file_tree_walk]. f_equal. induction es as [|[nm sub] es IH]; [done|].
  cbn [flat_map]. unfold walk_item at 1. cbn [fst snd].
  destruct (bool_decide (nm ∈ IGNORE_DIRS)); cbn [app]; by rewrite IH.
Qed.

Lemma item_lists_dir nm cs : item_lists (ItemDir nm cs) = cs :: flat_map item_lists cs.
Proof. reflexivity. Qed.

Lemma item_paths_dir nm cs : item_paths (ItemDir nm cs) = flat_map item_paths cs.
Proof. reflexivity. Qed.

Global Instance item_le_total : Total item_le.
Proof.
  intros a b. unfold item_le, key_leb.
  destruct (item_key a) as [[] na], (item_key b) as [[] nb]; cbn [fst snd Bool.eqb negb];
    try apply (total String.le); by (left + right).
Qed.

Global Instance item_le_trans : Transitive item_le.
Proof.
  intros a b c. unfold item_le, key_leb.
  destruct (item_key a) as [[] na], (item_key b) as [[] nb], (item_key c) as [[] nc];
    cbn [fst snd Bool.eqb negb]; try done; apply (transitivity (R:=String.le)).
Qed.

Lemma walk_item_elem d e it :
  it ∈ walk_item d e →
  (e.1 ∉ IGNORE_DIRS) ∧
  it = match e.2 with
       | Dir _ => ItemDir e.1 (file_tree_walk (d ++ [e.1]) e.2)
       | File _ => ItemFile e.1 (PyPath.as_posix (d ++ [e.1]))
       end.
Proof.
  unfold walk_item. case_bool_decide as Hi; [by intros ?%elem_of_nil|].
  by intros ->%list_elem_of_singleton.
Qed.

Lemma file_tree_walk_elem d es it :
  it ∈ file_tree_walk d (Dir es) ↔ ∃ e, e ∈ es ∧ it ∈ walk_item d e.
Proof.
  rewrite file_tree_walk_dir, merge_sort_Permutation, list_elem_of_In, in_flat_map.
  split; intros (e & He & Hit); exists e; by rewrite ?list_elem_of_In in *.
Qed.

Lemma file_tree_walk_sorted t : ∀ d cs,
  cs ∈ file_tree_walk d t :: flat_map item_lists (file_tree_walk d t) →
  StronglySorted item_le cs.
Proof.
  induction t as [c|es IH] using fsnode_ind; intros d cs Hcs.
  - cbn in Hcs. apply list_elem_of_singleton in Hcs as ->. constructor.
  - apply elem_of_cons in Hcs as [->|Hcs].
    + rewrite file_tree_walk_dir. apply StronglySorted_merge_sort; apply _.
    + apply list_elem_of_In, in_flat_map in Hcs as (it & Hit & Hcs).
      apply list_elem_of_In in Hit, Hcs.
      apply file_tree_walk_elem in Hit as ([nm sub] & He & Hit).
      apply walk_item_elem in Hit as [_ ->]. cbn [fst snd] in Hcs.
      destruct sub as [c|es']; [by apply elem_of_nil in Hcs|].
      rewrite item_lists_dir in Hcs. rewrite Forall_forall in IH.
      by apply (IH _ He (d ++ [nm])).
Qed.

(** X18.  Every list of children in the dict of [file_tree], at any depth, is in
    the order of the key: the directories before the files, each group by
    ascending name. *)
Theorem file_tree_sorted (root : string) (t : fsnode) (dict : tree_dict)
    (cs : list tree_item) :
  file_tree root t = Ok dict →
  cs ∈ td_children dict :: flat_map item_lists (td_children dict) →
  StronglySorted item_le cs.
Proof.
  unfold file_tree. destruct t as [c|es]; [done|]. intros Heq.
  assert (td_children dict = file_tree_walk [] (Dir es)) as -> by (by injection Heq as <-).
  apply file_tree_walk_sorted.
Qed.

Lemma file_tree_sorted_witness :
  file_tree "repo" demo_ignored
    = Ok (TreeDict "repo"
            [ ItemDir "src" [ ItemDir ".hidden" [ItemFile "h.go" "src/.hidden/h.go"];
                              ItemFile "Main.PY" "src/Main.PY";
                              ItemFile "notes.txt" "src/notes.txt" ];
              ItemFile "app.js" "app.js" ]) ∧
  [ ItemDir ".hidden" [ItemFile "h.go" "src/.hidden/h.go"];
    ItemFile "Main.PY" "src/Main.PY"; ItemFile "notes.txt" "src/notes.txt" ]
    ∈ td_children
        (TreeDict "repo"
           [ ItemDir "src" [ ItemDir ".hidden" [ItemFile "h.go" "src/.hidden/h.go"];
                             ItemFile "Main.PY" "src/Main.PY";
                             ItemFile "notes.txt" "src/notes.txt" ];
             ItemFile "app.js" "app.js" ])
      :: flat_map item_lists
           (td_children
              (TreeDict "repo"
                 [ ItemDir "src" [ ItemDir ".hidden" [ItemFile "h.go" "src/.hidden/h.go"];
                                   ItemFile "Main.PY" "src/Main.PY";
                                   ItemFile "notes.txt" "src/notes.txt" ];
                   ItemFile "app.js" "app.js" ])) ∧
  StronglySorted item_le
    [ ItemDir ".hidden" [ItemFile "h.go" "src/.hidden/h.go"];
      ItemFile "Main.PY" "src/Main.PY"; ItemFile "notes.txt" "src/notes.txt" ].
Proof.
  assert (file_tree "repo" demo_ignored
    = Ok (TreeDict "repo"
            [ ItemDir "src" [ ItemDir ".hidden" [ItemFile "h.go" "src/.hidden/h.go"];
                              ItemFile "Main.PY" "src/Main.PY";
                              ItemFile "notes.txt" "src/notes.txt" ];
              ItemFile "app.js" "app.js" ])) as H by (vm_compute; reflexivity).
  assert ([ ItemDir ".hidden" [ItemFile "h.go" "src/.hidden/h.go"];
            ItemFile "Main.PY" "src/Main.PY"; ItemFile "notes.txt" "src/notes.txt" ]
    ∈ td_children
        (TreeDict "repo"
           [ ItemDir "src" [ ItemDir ".hidden" [ItemFile "h.go" "src/.hidden/h.go"];
                             ItemFile "Main.PY" "src/Main.PY";
                             ItemFile "notes.txt" "src/notes.txt" ];
             ItemFile "app.js" "app.js" ])
      :: flat_map item_lists
           (td_children
              (TreeDict "repo"
                 [ ItemDir "src" [ ItemDir ".hidden" [ItemFile "h.go" "src/.hidden/h.go"];
                                   ItemFile "Main.PY" "src/Main.PY";
                                   ItemFile "notes.txt" "src/notes.txt" ];
                   ItemFile "app.js" "app.js" ]))) as Hin
    by (right; left).
  split; [exact H|]. split; [exact Hin|].
  exact (file_tree_sorted "repo" demo_ignored _ _ H Hin).
Defined.

(** Every file whose path holds no ignored name is listed. *)
Lemma file_tree_paths_complete q : ∀ d t c,
  q ≠ [] → tree_lookup t q = Some (File c) → Forall (λ x, x ∉ IGNORE_DIRS) q →
  PyPath.as_posix (d ++ q) ∈ flat_map item_paths (file_tree_walk d t).
Proof.
  induction q as [|nm q IH]; intros d t c Hne Hl Hk; [done|].
  destruct t as [c'|es]; [done|]. cbn [tree_lookup] in Hl.
  destruct (entry nm es) as [sub|] eqn:He; cbn in Hl; [|done].
  apply entry_elem in He. apply Forall_cons in Hk as [Hnm Hk].
  apply list_elem_of_In, in_flat_map.
  exists (match sub with
          | Dir _ => ItemDir nm (file_tree_walk (d ++ [nm]) sub)
          | File _ => ItemFile nm (PyPath.as_posix (d ++ [nm]))
          end).
  split.
  - apply list_elem_of_In, file_tree_walk_elem. exists (nm, sub). split; [done|].
    unfold walk_item. cbn [fst snd]. rewrite bool_decide_eq_false_2 by done. by left.
  - apply list_elem_of_In. destruct q as [|nm' q'].
    + cbn in Hl. injection Hl as ->. by left.
    + destruct sub as [c'|es']; [done|]. rewrite item_paths_dir.
      replace (d ++ nm :: nm' :: q') with ((d ++ [nm]) ++ nm' :: q')
        by (by rewrite <- app_assoc).
      by eapply IH.
Qed.

(** In a well-formed tree, what is listed is a file whose path holds no
    ignored name. *)
Lemma file_tree_paths_sound t : ∀ d path,
  wf t → path ∈ flat_map item_paths (file_tree_walk d t) →
  ∃ q c, path = PyPath.as_posix (d ++ q) ∧ q ≠ [] ∧
         tree_lookup t q = Some (File c) ∧ Forall (λ x, x ∉ IGNORE_DIRS) q.
Proof.
  induction t as [c|es IH] using fsnode_ind; intros d path Hwf Hp.
  - by apply elem_of_nil in Hp.
  - inversion Hwf as [|es' Hnd Hsub]; subst.
    apply list_elem_of_In, in_flat_map in Hp as (it & Hit & Hp).
    apply list_elem_of_In in Hit, Hp.
    apply file_tree_walk_elem in Hit as ([nm sub] & He & Hit).
    apply walk_item_elem in Hit as [Hnm ->]. cbn [fst snd] in *.
    destruct sub as [c|es'].
    + apply list_elem_of_singleton in Hp as ->. exists [nm], c.
      split_and!; [done|done| |by constructor].
      cbn [tree_lookup]. by rewrite (entry_of_elem _ _ _ Hnd He).
    + rewrite item_paths_dir in Hp. rewrite Forall_forall in IH, Hsub.
      destruct (IH _ He _ _ (Hsub _ He) Hp) as (q & c & -> & Hq & Hl & Hk).
      exists (nm :: q), c. split_and!.
      * by rewrite <- app_assoc.
      * done.
      * cbn [tree_lookup]. by rewrite (entry_of_elem _ _ _ Hnd He).
      * by constructor.
Qed.

(** X19.  The files in the dict of [file_tree] are exactly the files below the
    root on whose path no name, the file's own included, is in
    [IGNORE_DIRS]; each is listed with its path relative to the root.
    Hidden directories are not left out. *)
Theorem file_tree_files (root : string) (t : fsnode) (dict : tree_dict) (path : string) :
  wf t → file_tree root t = Ok dict →
  path ∈ flat_map item_paths (td_children dict) ↔
    ∃ p c, path = PyPath.as_posix p ∧ p ≠ [] ∧ tree_lookup t p = Some (File c) ∧
           Forall (λ x, x ∉ IGNORE_DIRS) p.
Proof.
  intros Hwf. unfold file_tree. destruct t as [c|es]; [done|]. intros Heq.
  assert (td_children dict = file_tree_walk [] (Dir es)) as -> by (by injection Heq as <-).
  split.
  - intros Hp. apply file_tree_paths_sound in Hp as (q & c & -> & ? & ? & ?); [|done].
    by exists q, c.
  - intros (p & c & -> & Hne & Hl & Hk). by apply (file_tree_paths_complete p [] (Dir es) c).
Qed.

Lemma file_tree_files_witness :
  wf demo_ignored ∧
  file_tree "repo" demo_ignored
    = Ok (TreeDict "repo"
            [ ItemDir "src" [ ItemDir ".hidden" [ItemFile "h.go" "src/.hidden/h.go"];
                              ItemFile "Main.PY" "src/Main.PY";
                              ItemFile "notes.txt" "src/notes.txt" ];
              ItemFile "app.js" "app.js" ]) ∧
  ("src/.hidden/h.go"
     ∈ flat_map item_paths
         (td_children
            (TreeDict "repo"
               [ ItemDir "src" [ ItemDir ".hidden" [ItemFile "h.go" "src/.hidden/h.go"];
                                 ItemFile "Main.PY" "src/Main.PY";
                                 ItemFile "notes.txt" "src/notes.txt" ];
                 ItemFile "app.js" "app.js" ])) ↔
   ∃ p c, "src/.hidden/h.go" = PyPath.as_posix p ∧ p ≠ [] ∧
          tree_lookup demo_ignored p = Some (File c) ∧ Forall (λ x, x ∉ IGNORE_DIRS) p).
Proof.
  assert (file_tree "repo" demo_ignored
    = Ok (TreeDict "repo"
            [ ItemDir "src" [ ItemDir ".hidden" [ItemFile "h.go" "src/.hidden/h.go"];
                              ItemFile "Main.PY" "src/Main.PY";
                              ItemFile "notes.txt" "src/notes.txt" ];
              ItemFile "app.js" "app.js" ])) as H by (vm_compute; reflexivity).
  split; [exact demo_ignored_wf|]. split; [exact H|].
  exact (file_tree_files "repo" demo_ignored _ "src/.hidden/h.go" demo_ignored_wf H).
Defined.

(** *** The dict does not depend on the order of the entries *)

Lemma walk_item_name d e it : it ∈ walk_item d e → (item_key it).2 = e.1.
Proof. intros [_ ->]%walk_item_elem. by destruct e.2. Qed.

Lemma walk_items_unique d es x y :
  NoDup es.*1 →
  x ∈ flat_map (walk_item d) es → y ∈ flat_map (walk_item d) es →
  (item_key x).2 = (item_key y).2 → x = y.
Proof.
  intros Hnd Hx Hy Hxy.
  apply list_elem_of_In, in_flat_map in Hx as ([n1 s1] & He1 & Hx).
  apply list_elem_of_In, in_flat_map in Hy as ([n2 s2] & He2 & Hy).
  apply list_elem_of_In in He1, He2, Hx, Hy.
  pose proof (walk_item_name _ _ _ Hx) as H1. pose proof (walk_item_name _ _ _ Hy) as H2.
  cbn [fst] in H1, H2. assert (n1 = n2) as <- by congruence.
  assert (s1 = s2) as <- by (by eapply NoDup_fst_unique).
  apply walk_item_elem in Hx as [_ ->], Hy as [_ ->]. done.
Qed.

Lemma walk_items_NoDup d es : NoDup es.*1 → NoDup (flat_map (walk_item d) es).
Proof.
  induction es as [|[nm sub] es IH]; intros Hnd; [constructor|].
  rewrite fmap_cons in Hnd. apply NoDup_cons in Hnd as [Hnm Hnd]. cbn [flat_map fst] in *.
  apply NoDup_app. split_and!.
  - unfold walk_item. destruct (bool_decide _); [constructor|apply NoDup_singleton].
  - intros it Hit Hrest. apply walk_item_name in Hit. cbn [fst] in Hit.
    apply list_elem_of_In, in_flat_map in Hrest as (e & He & Hrest).
    apply list_elem_of_In in He, Hrest. apply walk_item_name in Hrest.
    apply Hnm. rewrite <- Hit, Hrest. by apply (list_elem_of_fmap_2 fst).
  - by apply IH.
Qed.

Lemma key_le_antisym a b :
  item_le a b → item_le b a → item_key a = item_key b.
Proof.
  unfold item_le, key_leb. destruct (item_key a) as [[] na], (item_key b) as [[] nb];
    cbn [fst snd Bool.eqb negb]; try done; intros H1 H2; f_equal;
    by apply (anti_symm String.le).
Qed.

Lemma same_files_entry es1 es2 nm sub1 :
  NoDup es1.*1 → same_files (Dir es1) (Dir es2) → (nm, sub1) ∈ es1 →
  ∃ sub2, (nm, sub2) ∈ es2 ∧ same_files sub1 sub2.
Proof.
  intros Hnd Hsame He. apply (entry_of_elem _ _ _ Hnd) in He.
  assert (∀ p, kind_at sub1 p = kind_at (Dir es2) (nm :: p)) as Hsub.
  { intros p. rewrite <- Hsame. unfold kind_at. cbn [tree_lookup]. by rewrite He. }
  destruct (entry nm es2) as [sub2|] eqn:He2.
  - exists sub2. split; [by apply entry_elem|]. intros p. rewrite Hsub.
    unfold kind_at. cbn [tree_lookup]. by rewrite He2.
  - specialize (Hsub []). unfold kind_at in Hsub. cbn [tree_lookup] in Hsub.
    rewrite He2 in Hsub. cbn in Hsub. by destruct sub1.
Qed.

Lemma same_files_sym t1 t2 : same_files t1 t2 → same_files t2 t1.
Proof. intros H p. by rewrite H. Qed.

Lemma file_tree_walk_same t1 : ∀ t2 d,
  wf t1 → wf t2 → same_files t1 t2 → file_tree_walk d t1 = file_tree_walk d t2.
Proof.
  induction t1 as [c|es1 IH] using fsnode_ind; intros t2 d Hwf1 Hwf2 Hsame.
  - specialize (Hsame []). by destruct t2.
  - destruct t2 as [c|es2]; [by specialize (Hsame [])|].
    inversion Hwf1 as [|? Hnd1 Hsub1]; inversion Hwf2 as [|? Hnd2 Hsub2]; subst.
    rewrite Forall_forall in IH, Hsub1, Hsub2.
    assert (∀ it, it ∈ flat_map (walk_item d) es1 ↔ it ∈ flat_map (walk_item d) es2) as Hiff.
    { intros it. rewrite !list_elem_of_In, !in_flat_map. split.
      - intros ([nm sub1] & He%list_elem_of_In & Hit%list_elem_of_In).
        destruct (same_files_entry _ _ _ _ Hnd1 Hsame He) as (sub2 & He2 & Hs).
        exists (nm, sub2). split; [by apply list_elem_of_In|]. apply list_elem_of_In.
        revert Hit. unfold walk_item. cbn [fst snd]. destruct (bool_decide _); [done|].
        pose proof (Hs []) as Hk. destruct sub1 as [c1|es1'], sub2 as [c2|es2']; try done.
        pose proof (IH _ He (Dir es2') (d ++ [nm]) (Hsub1 _ He) (Hsub2 _ He2) Hs) as Heq.
        cbn [snd] in Heq. by rewrite Heq.
      - intros ([nm sub2] & He%list_elem_of_In & Hit%list_elem_of_In).
        destruct (same_files_entry _ _ _ _ Hnd2 (same_files_sym _ _ Hsame) He)
          as (sub1 & He1 & Hs%same_files_sym).
        exists (nm, sub1). split; [by apply list_elem_of_In|]. apply list_elem_of_In.
        revert Hit. unfold walk_item. cbn [fst snd]. destruct (bool_decide _); [done|].
        pose proof (Hs []) as Hk. destruct sub1 as [c1|es1'], sub2 as [c2|es2']; try done.
        pose proof (IH _ He1 (Dir es2') (d ++ [nm]) (Hsub1 _ He1) (Hsub2 _ He) Hs) as Heq.
        cbn [snd] in Heq. by rewrite Heq. }
    rewrite !file_tree_walk_dir.
    apply (StronglySorted_unique_strong item_le);
      [|apply StronglySorted_merge_sort; apply _..|].
    + intros x y Hx Hy Hxy Hyx. rewrite merge_sort_Permutation in Hx, Hy.
      apply Hiff in Hy. apply (walk_items_unique d es1); [done..|].
      by rewrite (key_le_antisym x y).
    + rewrite !merge_sort_Permutation.
      apply NoDup_Permutation; [by apply walk_items_NoDup..|done].
Qed.

(** X20.  Two scans of the same files give the same dict, in whatever order the
    directories enumerate their entries: the sort fixes the order of each
    list of children. *)
Theorem file_tree_same (root : string) (t1 t2 : fsnode) :
  wf t1 → wf t2 → same_files t1 t2 → file_tree root t1 = file_tree root t2.
Proof.
  intros Hwf1 Hwf2 Hsame. pose proof (Hsame []) as Hk.
  unfold file_tree. destruct t1 as [c1|es1], t2 as [c2|es2]; try done.
  f_equal. f_equal. by apply file_tree_walk_same.
Qed.

Lemma file_tree_same_witness :
  wf demo_root ∧ wf demo_root_reordered ∧ same_files demo_root demo_root_reordered ∧
  file_tree "repo" demo_root = file_tree "repo" demo_root_reordered.
Proof.
  assert (demo_root_entries ≡ₚ reverse demo_root_entries) as Hperm
    by (symmetry; apply reverse_Permutation).
  assert (wf demo_root_reordered) as Hwf2
    by exact (reordered_root_wf _ _ Hperm demo_root_wf).
  assert (same_files demo_root demo_root_reordered) as Hsame.
  { apply (reordered_root_same demo_root_entries); [|exact Hperm].
    apply (bool_decide_unpack _). vm_compute. exact I. }
  split; [exact demo_root_wf|]. split; [exact Hwf2|]. split; [exact Hsame|].
  exact (file_tree_same "repo" demo_root demo_root_reordered demo_root_wf Hwf2 Hsame).
Defined.

(** ** [simple_fs.ensure_dir] and [simple_fs.write_text] *)




(** X15.  [write_text] either succeeds, and then the target holds the whole
    content, the sibling [.tmp] file is gone (one that was there before
    too) and every other file is as it was; or it raises, and then the
    target is as it was, with at most the sibling [.tmp] file changed. *)
Theorem write_text_outcome (flt : faults) (path : Path) (content : string) (w : world) :
  let tmp := parent path ++ [PyPath.name path +:+ ".tmp"] in
  match write_text flt path content w with
  | (Ok _, w') =>
      w_files w' = <[path := content]> (delete tmp (w_files w)) ∧ w_cwd w' = w_cwd w
  | (Raise _, w') =>
      w_files w' !! path = w_files w !! path ∧
      (∀ q, q ≠ tmp → w_files w' !! q = w_files w !! q) ∧ w_cwd w' = w_cwd w
  end.
Proof.
  intros tmp. unfold write_text, io_bind, mkdir_p.
  destruct (mkdir_fails flt || existsb _ _); [done|].
  destruct path as [|x path']; [done|].
  set (path := x :: path') in *.
  assert (tmp ≠ path) as Htmp by (by apply tmp_path_differs).
  fold tmp. unfold path_write_text. cbn [w_dirs w_files w_cwd].
  destruct (bool_decide _ || negb _); [done|].
  destruct (write_stops flt) as [n|].
  - cbn [w_files w_cwd]. split_and!; [by rewrite lookup_insert_ne| |done].
    intros q Hq. by rewrite lookup_insert_ne.
  - unfold path_replace. cbn [w_dirs w_files w_cwd]. rewrite lookup_insert_eq.
    destruct (replace_fails flt || bool_decide _); cbn [w_files w_cwd].
    + split_and!; [by rewrite lookup_insert_ne| |done].
      intros q Hq. by rewrite lookup_insert_ne.
    + split; [|done]. by rewrite delete_insert_eq.
Qed.

(** ** The bridge on the generator *)



(** ** Import edges: exactly which ones *)

Lemma stem_index_from_last (files : list Path) : ∀ (m0 : gmap string Path) nm,
  foldl (λ m p, <[PyPath.stem p := p]> m) m0 files !! nm =
  match last_with_stem files nm with
  | Some q => Some q
  | None => m0 !! nm
  end.
Proof.
  unfold last_with_stem. induction files as [|p files IH]; intros m0 nm; [done|].
  cbn [foldl]. rewrite IH. destruct (decide (PyPath.stem p = nm)) as [Hp|Hp].
  - rewrite filter_cons_True by done.
    destruct (filter _ files) as [|f fs] eqn:Hf.
    + cbn. by rewrite <- Hp, lookup_insert_eq.
    + rewrite (last_cons_ne p (f :: fs)) by done. destruct (last (f :: fs)) eqn:Hl; [done|].
      by apply last_None in Hl.
  - rewrite filter_cons_False by done.
    destruct (last _); [done|]. by rewrite lookup_insert_ne.
Qed.

Lemma stem_index_last files nm : stem_index files !! nm = last_with_stem files nm.
Proof.
  unfold stem_index. rewrite stem_index_from_last, lookup_empty. by destruct (last_with_stem _ _).
Qed.

Section ImportEdgesComplete.
Context (target : string → option string) (root : fsnode).

Lemma line_edge_mono index src edges line e :
  e ∈ edges → e ∈ line_edge target index src edges line.
Proof.
  intros He. unfold line_edge. destruct (target line) as [nm|]; [|done].
  destruct (index !! nm) as [q|]; [|done]. case_decide; [|done].
  apply elem_of_union. by left.
Qed.

Lemma lines_edges_mono index src lines : ∀ edges e,
  e ∈ edges → e ∈ foldl (line_edge target index src) edges lines.
Proof.
  induction lines as [|l lines IH]; intros edges e He; [done|].
  cbn [foldl]. by apply IH, line_edge_mono.
Qed.

Lemma lines_edges_adds index src lines line nm q : ∀ edges,
  line ∈ lines → target line = Some nm → index !! nm = Some q →
  src ≠ slug_for_mermaid q →
  (src, slug_for_mermaid q) ∈ foldl (line_edge target index src) edges lines.
Proof.
  induction lines as [|l lines IH]; intros edges Hl Ht Hq Hne; [by apply elem_of_nil in Hl|].
  cbn [foldl]. apply elem_of_cons in Hl as [<-|Hl]; [|by apply IH].
  apply lines_edges_mono. unfold line_edge. rewrite Ht, Hq, decide_True by done.
  apply elem_of_union. right. by apply elem_of_singleton.
Qed.

Lemma files_edges_mono index ps : ∀ edges e,
  e ∈ edges → e ∈ foldl (file_edges target root index) edges ps.
Proof.
  induction ps as [|p ps IH]; intros edges e He; [done|].
  cbn [foldl]. apply IH. unfold file_edges. destruct (read_text root p); [|done].
  by apply lines_edges_mono.
Qed.

Lemma files_edges_adds index ps p text line nm q : ∀ edges,
  p ∈ ps → read_text root p = Ok text → line ∈ splitlines text →
  target line = Some nm → index !! nm = Some q →
  slug_for_mermaid p ≠ slug_for_mermaid q →
  (slug_for_mermaid p, slug_for_mermaid q)
    ∈ foldl (file_edges target root index) edges ps.
Proof.
  induction ps as [|p' ps IH]; intros edges Hp Hrd Hl Ht Hq Hne; [by apply elem_of_nil in Hp|].
  cbn [foldl]. apply elem_of_cons in Hp as [<-|Hp]; [|by apply IH].
  apply files_edges_mono. unfold file_edges. rewrite Hrd. by eapply lines_edges_adds.
Qed.

Lemma import_edges_iff files e :
  e ∈ import_edges target root files ↔
  ∃ p q text line,
    p ∈ files ∧ read_text root p = Ok text ∧ line ∈ splitlines text ∧
    target line = Some (PyPath.stem q) ∧
    last_with_stem files (PyPath.stem q) = Some q ∧
    e = (slug_for_mermaid p, slug_for_mermaid q) ∧
    slug_for_mermaid p ≠ slug_for_mermaid q.
Proof.
  rewrite import_edges_elem. unfold edge_set. split.
  - intros He. destruct (files_edges_elem _ _ _ _ _ _ He)
      as [Hin|(p & text & line & nm & q & Hp & Hrd & Hl & Ht & Hq & -> & Hne)];
      [by apply not_elem_of_empty in Hin|].
    pose proof Hq as Hq'. apply stem_index_lookup in Hq' as [_ <-].
    rewrite stem_index_last in Hq. by exists p, q, text, line.
  - intros (p & q & text & line & Hp & Hrd & Hl & Ht & Hq & -> & Hne).
    eapply files_edges_adds; [done..| |done]. by rewrite stem_index_last.
Qed.
End ImportEdgesComplete.

(** X4.  The import edges, exactly.  There is an edge from the slug of [p] to
    the slug of [q] when, and only when, a line of a readable file [p] of
    the bucket imports a name that is the stem of [q], [q] is the last file
    of the bucket with that stem, and the two slugs differ.  Files that
    cannot be read contribute nothing, and of two files with one stem only
    the later one is ever a destination. *)
Theorem import_edges_exactly (js : bool) (root : fsnode) (files : list Path)
    (e : string * string) :
  e ∈ (if js then js_import_edges root files else py_import_edges root files) ↔
  ∃ p q text line,
    p ∈ files ∧ read_text root p = Ok text ∧ line ∈ splitlines text ∧
    (if js then js_import_base line else py_import_head line) = Some (PyPath.stem q) ∧
    last_with_stem files (PyPath.stem q) = Some q ∧
    e = (slug_for_mermaid p, slug_for_mermaid q) ∧
    slug_for_mermaid p ≠ slug_for_mermaid q.
Proof.
  destruct js; [unfold js_import_edges|unfold py_import_edges]; apply import_edges_iff.
Qed.

(** ** When the generator fails *)

(** X7.  Building the report fails only with the README: [main] raises what
    [read_readme] raises, and builds its text whenever [read_readme]
    returns.  Source files that cannot be read are passed over, and no
    bucket is ever missing. *)
Theorem main_text_fails_with_readme (root : fsnode) (resolved : string) :
  match main_text root resolved with
  | Ok _ => ∃ readme_line, read_readme root = Ok readme_line
  | Raise e => read_readme root = Raise e
  end.
Proof.
  unfold main_text. destruct (read_readme root) as [readme_line|e] eqn:Hr.
  - rewrite (main_lines_total root resolved readme_line Hr). cbn [fmap result_fmap]. by eexists.
  - unfold main_lines, main_scan. by rewrite Hr.
Qed.

(** ** What an import line names *)

(** A greedy repetition whose continuation succeeds after the longest run
    takes the longest run. *)
Lemma rep_greedy_first {R} cs (k : PyRe.mstate → option R) caps x : ∀ rest min prev,
  (min ≤ run_len (PyRe.cset_mem cs) rest)%nat →
  k (PyRe.MState (prev_after (PyRe.cset_mem cs) prev rest)
       (drop_while (PyRe.cset_mem cs) rest) caps) = Some x →
  PyRe.rep true min cs prev rest caps k = Some x.
Proof.
  unfold run_len. induction rest as [|c rest IH]; intros min prev Hmin Hk.
  - cbn in Hmin. assert (min = 0) as -> by lia. cbn [PyRe.rep]. cbn in Hk. by rewrite Hk.
  - cbn [PyRe.rep]. cbn [prev_after drop_while] in Hk, Hmin.
    destruct (PyRe.cset_mem cs c) eqn:Hc.
    + destruct (drop_while_suffix (PyRe.cset_mem cs) rest) as (n & Hn & Hd).
      rewrite (IH (pred min) (Some c)); [by destruct min| |done].
      rewrite Hd, length_drop in *. cbn [length] in Hmin. lia.
    + cbn [length] in Hmin. assert (min = 0) as -> by lia. by rewrite Hk.
Qed.

(** A greedy repetition over a run none of whose positions lets the
    continuation succeed fails. *)
Lemma rep_fails_in_run {R} cs (k : PyRe.mstate → option R) caps : ∀ ws r min prev,
  Forall (λ c, PyRe.cset_mem cs c = true) ws →
  match r with c :: _ => PyRe.cset_mem cs c = false | [] => True end →
  (∀ prev' j, (j ≤ length ws)%nat → k (PyRe.MState prev' (drop j (ws ++ r)) caps) = None) →
  PyRe.rep true min cs prev (ws ++ r) caps k = None.
Proof.
  induction ws as [|c ws IH]; intros r min prev Hws Hr Hk.
  - cbn [app]. destruct r as [|c r]; cbn [PyRe.rep].
    + destruct min; [|done]. apply (Hk prev 0). cbn. lia.
    + rewrite Hr. destruct min; [|done]. apply (Hk prev 0). cbn. lia.
  - apply Forall_cons in Hws as [Hc Hws]. cbn [app PyRe.rep]. rewrite Hc.
    rewrite IH; [|done|done|].
    + destruct min; [|done]. apply (Hk prev 0). cbn. lia.
    + intros prev' j Hj. apply (Hk prev' (S j)). cbn. lia.
Qed.

Lemma drop_while_run p (ws r : list ascii) :
  Forall (λ c, p c = true) ws →
  match r with c :: _ => p c = false | [] => True end →
  drop_while p (ws ++ r) = r.
Proof.
  intros Hws Hr. induction Hws as [|c ws Hc _ IH]; cbn [app drop_while].
  - destruct r as [|c r]; [done|]. cbn. by rewrite Hr.
  - by rewrite Hc.
Qed.

Lemma run_len_run p (ws r : list ascii) :
  Forall (λ c, p c = true) ws →
  match r with c :: _ => p c = false | [] => True end →
  run_len p (ws ++ r) = length ws.
Proof.
  intros Hws Hr. unfold run_len. rewrite drop_while_run, length_app by done. lia.
Qed.

Lemma modchar_mem c :
  PyRe.cset_mem
    (PyRe.CSet false [PyRe.CRange "A" "Z"; PyRe.CRange "a" "z"; PyRe.CRange "0" "9";
                      PyRe.CRange "_" "_"; PyRe.CRange "." "."]) c
  = modchar c.
Proof. destruct c as [[] [] [] [] [] [] [] []]; reflexivity. Qed.

Lemma space_not_modchar c : isspace c = true → modchar c = false.
Proof. destruct c as [[] [] [] [] [] [] [] []]; cbv; congruence. Qed.

Lemma space_not_letter c (l : ascii) :
  isspace c = true → isalnum l = true →
  PyRe.cset_mem (PyRe.CSet false [PyRe.CRange l l]) c = false.
Proof.
  intros Hc Hl. unfold PyRe.cset_mem. cbn [PyRe.cs_neg PyRe.cs_items existsb PyRe.citem_mem xorb].
  rewrite orb_false_r. unfold between.
  destruct (N.leb_spec (code l) (code c)), (N.leb_spec (code c) (code l)); try done.
  assert (code c = code l) as Heq by lia. exfalso.
  assert (c = l) as ->.
  { unfold code in Heq. by rewrite <- (ascii_N_embedding c), Heq, ascii_N_embedding. }
  revert Hc Hl. destruct l as [[] [] [] [] [] [] [] []]; cbv; congruence.
Qed.

Lemma lit_mem c : PyRe.cset_mem (PyRe.CSet false [PyRe.CRange c c]) c = true.
Proof.
  unfold PyRe.cset_mem. cbn [PyRe.cs_neg PyRe.cs_items existsb PyRe.citem_mem xorb].
  rewrite orb_false_r. unfold between. by rewrite N.leb_refl.
Qed.

Lemma spaces_mem ws :
  Forall (λ c, isspace c = true) ws →
  Forall (λ c, PyRe.cset_mem (PyRe.CSet false [PyRe.CSpace]) c = true) ws.
Proof. intros H. eapply Forall_impl; [exact H|]. intros c Hc. by rewrite space_mem. Qed.

Lemma modchars_mem ws :
  Forall (λ c, modchar c = true) ws →
  Forall (λ c, PyRe.cset_mem
    (PyRe.CSet false [PyRe.CRange "A" "Z"; PyRe.CRange "a" "z"; PyRe.CRange "0" "9";
                      PyRe.CRange "_" "_"; PyRe.CRange "." "."]) c = true) ws.
Proof. intros H. eapply Forall_impl; [exact H|]. intros c Hc. by rewrite modchar_mem. Qed.

(** Over a run that ends, the greedy repetition goes on from the end of the
    run when the rest of the pattern matches there. *)
Lemma rep_run {R} cs (k : PyRe.mstate → option R) caps x ws r min prev :
  Forall (λ c, PyRe.cset_mem cs c = true) ws →
  match r with c :: _ => PyRe.cset_mem cs c = false | [] => True end →
  (min ≤ length ws)%nat →
  k (PyRe.MState (prev_after (PyRe.cset_mem cs) prev (ws ++ r)) r caps) = Some x →
  PyRe.rep true min cs prev (ws ++ r) caps k = Some x.
Proof.
  intros Hws Hr Hmin Hk. apply rep_greedy_first.
  - by rewrite run_len_run.
  - by rewrite drop_while_run.
Qed.

Lemma run_len_ge p (ws r : list ascii) :
  Forall (λ c, p c = true) ws → (length ws ≤ run_len p (ws ++ r))%nat.
Proof.
  intros Hws. unfold run_len. induction Hws as [|c ws Hc _ IH]; [cbn; lia|].
  cbn [app drop_while length]. rewrite Hc.
  destruct (drop_while_suffix p (ws ++ r)) as (n & Hn & Hd).
  rewrite Hd, length_drop in *. lia.
Qed.

Lemma name_starts nm (rest : list ascii) :
  nm ≠ [] → Forall (λ c, modchar c = true) nm →
  match nm ++ rest with
  | c :: _ => PyRe.cset_mem (PyRe.CSet false [PyRe.CSpace]) c = false
  | [] => True
  end.
Proof.
  intros Hnm Hmc. destruct nm as [|c nm]; [done|]. cbn [app].
  apply Forall_cons in Hmc as [Hc _]. rewrite space_mem.
  destruct (isspace c) eqn:Hs; [|done]. apply space_not_modchar in Hs. congruence.
Qed.

(** The characters of a literal word, written out. *)
Ltac expose_word :=
  match goal with
  | |- context [chars ?w ++ _] =>
      let l := eval vm_compute in (chars w) in
      change (chars w) with l;
      cbn [PyRe.ms_prev PyRe.ms_rest PyRe.ms_caps app]
  end.

(** [imp_re1] on a line [<indent>import<gap><name><rest>]. *)
Lemma imp_re1_match indent gap nm rest :
  Forall (λ c, isspace c = true) indent →
  gap ≠ [] → Forall (λ c, isspace c = true) gap →
  nm ≠ [] → Forall (λ c, modchar c = true) nm →
  match rest with c :: _ => modchar c = false | [] => True end →
  ∃ len, PyRe.match_at false imp_re1 None (indent ++ chars "import" ++ gap ++ nm ++ rest) =
         Some (PyRe.RMatch len [(1, str nm)]).
Proof.
  intros Hindent Hgap Hsp Hnm Hmc Hrest. eexists.
  unfold PyRe.match_at, imp_re1.
  cbn [PyRe.run PyRe.at_bol PyRe.ms_prev PyRe.ms_rest PyRe.ms_caps].
  apply rep_run; [by apply spaces_mem|done|lia|].
  expose_word. rewrite !lit_mem.
  apply rep_run; [by apply spaces_mem|by apply name_starts| |].
  { destruct gap; [done|cbn; lia]. }
  cbn [PyRe.ms_prev PyRe.ms_rest PyRe.ms_caps].
  apply rep_run; [by apply modchars_mem|by destruct rest; [|rewrite modchar_mem]| |].
  { destruct nm; [done|cbn; lia]. }
  cbn [PyRe.ms_prev PyRe.ms_rest PyRe.ms_caps].
  replace (length (nm ++ rest) - length rest) with (length nm) by (rewrite length_app; lia).
  rewrite take_app_length. reflexivity.
Qed.

(** [imp_re1] on a line that starts, after its indentation, with [from]. *)
Lemma imp_re1_from indent rest :
  Forall (λ c, isspace c = true) indent →
  PyRe.match_at false imp_re1 None (indent ++ chars "from" ++ rest) = None.
Proof.
  intros Hindent. unfold PyRe.match_at, imp_re1.
  cbn [PyRe.run PyRe.at_bol PyRe.ms_prev PyRe.ms_rest PyRe.ms_caps].
  apply rep_fails_in_run; [by apply spaces_mem|done|].
  intros prev' j Hj. cbn [PyRe.ms_prev PyRe.ms_rest PyRe.ms_caps].
  rewrite drop_app_le by done.
  destruct (drop j indent) as [|c l] eqn:Hd; [done|]. cbn [app].
  assert (isspace c = true) as Hc.
  { assert (c ∈ indent) as Hin.
    { rewrite <- (take_drop j indent), Hd. apply elem_of_app. right. left. }
    by apply (proj1 (Forall_forall _ _) Hindent). }
  by rewrite (space_not_letter c "i").
Qed.

(** [imp_re2] on a line [<indent>from<gap><name><gap2>import<gap3><rest>]. *)
Lemma imp_re2_match indent gap nm gap2 gap3 rest :
  Forall (λ c, isspace c = true) indent →
  gap ≠ [] → Forall (λ c, isspace c = true) gap →
  nm ≠ [] → Forall (λ c, modchar c = true) nm →
  gap2 ≠ [] → Forall (λ c, isspace c = true) gap2 →
  gap3 ≠ [] → Forall (λ c, isspace c = true) gap3 →
  ∃ len, PyRe.match_at false imp_re2 None
           (indent ++ chars "from" ++ gap ++ nm ++ gap2 ++ chars "import" ++ gap3 ++ rest) =
         Some (PyRe.RMatch len [(1, str nm)]).
Proof.
  intros Hindent Hgap Hsp Hnm Hmc Hgap2 Hsp2 Hgap3 Hsp3. eexists.
  unfold PyRe.match_at, imp_re2.
  cbn [PyRe.run PyRe.at_bol PyRe.ms_prev PyRe.ms_rest PyRe.ms_caps].
  apply rep_run; [by apply spaces_mem|done|lia|].
  expose_word. rewrite !lit_mem.
  apply rep_run; [by apply spaces_mem|by apply name_starts| |].
  { destruct gap; [done|cbn; lia]. }
  cbn [PyRe.ms_prev PyRe.ms_rest PyRe.ms_caps].
  apply rep_run; [by apply modchars_mem| | |].
  { destruct gap2 as [|c gap2]; [done|]. cbn [app]. apply Forall_cons in Hsp2 as [Hc _].
    rewrite modchar_mem. by apply space_not_modchar. }
  { destruct nm; [done|cbn; lia]. }
  cbn [PyRe.ms_prev PyRe.ms_rest PyRe.ms_caps].
  match goal with
  | |- context [take (length (nm ++ ?r) - length ?r) _] =>
      replace (length (nm ++ r) - length r) with (length nm) by (rewrite length_app; lia)
  end.
  rewrite take_app_length.
  apply rep_run; [by apply spaces_mem|done| |].
  { destruct gap2; [done|cbn; lia]. }
  expose_word. rewrite !lit_mem.
  apply rep_greedy_first.
  - etrans; [|apply run_len_ge; by apply spaces_mem]. destruct gap3; [done|cbn; lia].
  - cbn [PyRe.ms_prev PyRe.ms_rest PyRe.ms_caps]. reflexivity.
Qed.

Lemma chars_nil s : s ≠ "" → chars s ≠ [].
Proof. by destruct s. Qed.

Lemma ends_name_chars rest :
  ends_name rest → match chars rest with c :: _ => modchar c = false | [] => True end.
Proof. by destruct rest. Qed.

(** X24.  What an import line names.  A line made of indentation, the word
    [import], white space and a module name (letters, digits, underscores
    and dots) that ends there or goes on with another character names the
    part of the module name before its first dot; so does a line made of
    indentation, [from], white space, the module name, white space,
    [import], white space and anything. *)
Theorem import_line_names (indent gap name : string) :
  spaces indent → spaces gap → gap ≠ "" →
  Forall (λ c, modchar c = true) (chars name) → name ≠ "" →
  (∀ rest, ends_name rest →
     py_import_head (indent +:+ "import" +:+ gap +:+ name +:+ rest)
     = Some (hd "" (split "." name))) ∧
  (∀ gap2 gap3 rest, spaces gap2 → gap2 ≠ "" → spaces gap3 → gap3 ≠ "" →
     py_import_head (indent +:+ "from" +:+ gap +:+ name +:+ gap2 +:+ "import" +:+ gap3 +:+ rest)
     = Some (hd "" (split "." name))).
Proof.
  intros Hindent Hsp Hgap Hmc Hname. split.
  - intros rest Hrest. unfold py_import_head, PyRe.rmatch_of. rewrite !chars_app.
    destruct (imp_re1_match (chars indent) (chars gap) (chars name) (chars rest))
      as [len ->]; [done|by apply chars_nil|done|by apply chars_nil|done|
                    by apply ends_name_chars|].
    cbn. by rewrite str_chars.
  - intros gap2 gap3 rest Hsp2 Hgap2 Hsp3 Hgap3.
    unfold py_import_head, PyRe.rmatch_of. rewrite !chars_app.
    rewrite imp_re1_from by done.
    destruct (imp_re2_match (chars indent) (chars gap) (chars name) (chars gap2)
                (chars gap3) (chars rest))
      as [len ->]; [done|by apply chars_nil|done|by apply chars_nil|done|
                    by apply chars_nil|done|by apply chars_nil|done|].
    cbn. by rewrite str_chars.
Qed.

Lemma import_line_names_witness :
  py_import_head "  import os.path as p" = Some "os" ∧
  py_import_head "from  pkg.sub.mod import  name, other" = Some "pkg".
Proof.
  destruct (import_line_names "  " " " "os.path") as [H1 _];
    [by repeat constructor|by repeat constructor|done|by repeat constructor|done|].
  destruct (import_line_names "" "  " "pkg.sub.mod") as [_ H2];
    [by repeat constructor|by repeat constructor|done|by repeat constructor|done|].
  split.
  - exact (H1 " as p" eq_refl).
  - apply (H2 " " "  " "name, other"); by repeat constructor.
Defined.
